(** * Session and multi-agent coordination engine (src/src/orchestration.ts)

    A shallow embedding of [VPSMemoryOrchestrator]: the four stores
    (sessions, agents, conflicts, patterns), the coordination record built
    by [initializeCoordination] and the public methods, written as state
    passing functions over a record [Orchestrator]; and of the memory client
    [VPSMemoryClient] that the orchestrator writes its audit records to.

    Conventions of the embedding.
    - A JavaScript [Map<string, T>] is a [gmap string T].  The objects held
      by the maps are mutated in place by the source; a session, agent or
      pattern object is reachable under exactly one key, so an assignment
      [session.f = v] is an [alter] of the store at that key and
      [return session] reads the store at that key.  The session map is
      iterated by the expiry sweep, so its insertion order is kept beside
      it.
    - [Date.now()] / [new Date()] is an input [now] (milliseconds), the
      [Math.random()] suffix of generated ids is an input [rnd].  ISO date
      strings are kept as the millisecond count they denote; clock readings
      are whole milliseconds and TTLs whole seconds.  A call of a
      public method is one transition with one clock reading; calls do not
      interleave.
    - [this.client.storeMemory] is the external memory collaborator.  A
      write may be acknowledged or rejected; what the collaborator answers
      is an input [mem] of every method that awaits a write.  A rejected
      write makes the awaiting method reject, with everything it assigned
      before the [await] left in place.  The acknowledged writes are
      recorded, in order, in an audit trail.
    - An [async] method returns a pair: how its promise settles and the
      state of the orchestrator at that moment.
    - The private helper methods whose bodies are placeholders in the source
      ([resolveMemoryConflict], ..., [executePatternActions]) are gathered in
      a record [Helpers]; [source_helpers] holds the bodies as written. *)

From Stdlib Require Import ZArith QArith Qcanon.
From stdpp Require Import ssreflect gmap strings list fin_maps pretty relations.

Open Scope Z_scope.

(** ** JavaScript numbers

    Finite doubles are idealised as exact rationals; the non-finite values
    and the IEEE rules that produce them (division by zero, [0/0],
    [Infinity - Infinity]) are kept.  Divisors in the program are
    non-negative counters, so a zero divisor is [+0]. *)
Module JsNum.

Inductive t : Type :=
| Fin (q : Qc)
| PosInf
| NegInf
| NaN.

Definition sgn (q : Qc) : comparison := (Qnum (this q) ?= 0)%Z.

Definition of_Z (z : Z) : t := Fin (Q2Qc (inject_Z z)).
Definition of_nat (n : nat) : t := of_Z (Z.of_nat n).

(** A decimal literal [n/d], as in [0.85 = 85/100]. *)
Definition lit (n : Z) (d : positive) : t := Fin (Q2Qc (n # d)).

Definition neg (x : t) : t :=
  match x with
  | Fin q => Fin (- q)%Qc
  | PosInf => NegInf
  | NegInf => PosInf
  | NaN => NaN
  end.

Definition inf_of (c : comparison) : t :=
  match c with
  | Gt => PosInf
  | Lt => NegInf
  | Eq => NaN
  end.

Definition add (x y : t) : t :=
  match x, y with
  | NaN, _ | _, NaN => NaN
  | Fin a, Fin b => Fin (a + b)%Qc
  | PosInf, NegInf | NegInf, PosInf => NaN
  | PosInf, _ | _, PosInf => PosInf
  | NegInf, _ | _, NegInf => NegInf
  end.

Definition mul (x y : t) : t :=
  match x, y with
  | NaN, _ | _, NaN => NaN
  | Fin a, Fin b => Fin (a * b)%Qc
  | PosInf, Fin b | Fin b, PosInf => inf_of (sgn b)
  | NegInf, Fin b | Fin b, NegInf => neg (inf_of (sgn b))
  | PosInf, PosInf | NegInf, NegInf => PosInf
  | PosInf, NegInf | NegInf, PosInf => NegInf
  end.

Definition sub (x y : t) : t := add x (neg y).

Definition div (x y : t) : t :=
  match x, y with
  | NaN, _ | _, NaN => NaN
  | Fin a, Fin b =>
      match sgn b with
      | Eq => inf_of (sgn a)
      | _ => Fin (a / b)%Qc
      end
  | Fin _, _ => Fin 0%Qc
  | PosInf, Fin b => match sgn b with Lt => NegInf | _ => PosInf end
  | NegInf, Fin b => match sgn b with Lt => PosInf | _ => NegInf end
  | _, _ => NaN
  end.

(** [x < y]; false as soon as one side is [NaN]. *)
Definition ltb (x y : t) : bool :=
  match x, y with
  | NaN, _ | _, NaN => false
  | Fin a, Fin b => match (this a ?= this b)%Q with Lt => true | _ => false end
  | Fin _, PosInf => true
  | Fin _, NegInf => false
  | PosInf, _ => false
  | NegInf, NegInf => false
  | NegInf, _ => true
  end.

Definition gtb (x y : t) : bool := ltb y x.

(** Membership in the closed interval [0, 1]. *)
Definition in_unit_interval (x : t) : bool :=
  match x with
  | Fin q =>
      match sgn q with
      | Lt => false
      | _ => match (this q ?= 1)%Q with Gt => false | _ => true end
      end
  | _ => false
  end.

End JsNum.

(** ** The memory client (class [VPSMemoryClient])

    The HTTP layer below [makeHttpRequest] is the environment: what happens
    to the k-th request of a [makeRequest] call is an input [http k].
    [JSON.parse] and the emptiness of [body.trim()] are library functions
    and are parameters.  The requests sent and the delays slept are
    recorded in the result. *)
Module Client.

#[local] Set Warnings "-register-all".

Inductive Json : Type :=
| JNull
| JBool (b : bool)
| JNum (x : JsNum.t)
| JString (s : string)
| JArray (items : list Json)
| JObject (fields : list (string * Json)).

Fixpoint assoc (name : string) (fields : list (string * Json)) : option Json :=
  match fields with
  | [] => None
  | (k, v) :: rest => if String.eqb k name then Some v else assoc name rest
  end.

(** Property access [j.name]: [None] is the [TypeError] raised on [null],
    [Some None] is [undefined]. *)
Definition get (j : Json) (name : string) : option (option Json) :=
  match j with
  | JNull => None
  | JObject fields => Some (assoc name fields)
  | _ => Some None
  end.

Definition truthy_json (j : Json) : bool :=
  match j with
  | JNull => false
  | JBool b => b
  | JNum (JsNum.Fin q) => match JsNum.sgn q with Eq => false | _ => true end
  | JNum JsNum.NaN => false
  | JNum _ => true
  | JString s => negb (String.eqb s "")
  | JArray _ | JObject _ => true
  end.

(** [v || d] for a possibly undefined [v]. *)
Definition or_default (v : option Json) (d : Json) : Json :=
  match v with
  | Some j => if truthy_json j then j else d
  | None => d
  end.

(** The message of an error, by the template that builds it. *)
Inductive ErrorMessage : Type :=
| MsgEmptyResponse
| MsgServer (error : Json)
| MsgHttp (statusCode : Z) (body : string)
| MsgInvalidJson (body : string)
| MsgNetwork (message : string)
| MsgTimeout (ms : Z)
| MsgFailedAfter (attempts : Z) (last : option ErrorMessage)
| MsgOther (message : string).

(** A thrown value: a [VPSMemoryError] with its [code], [statusCode] and
    [details], or any other [Error]. *)
Inductive JsError : Type :=
| VPSMemoryError (message : ErrorMessage) (code : string)
    (statusCode : option Z) (details : Details)
| OtherError (message : string)
with Details : Type :=
| NoDetails
| DetailsJson (result : Json)
| DetailsBody (body : string)
| DetailsError (cause : option JsError).

Definition message_of (e : JsError) : ErrorMessage :=
  match e with
  | VPSMemoryError m _ _ _ => m
  | OtherError m => MsgOther m
  end.

Definition code_of (e : JsError) : option string :=
  match e with
  | VPSMemoryError _ c _ _ => Some c
  | OtherError _ => None
  end.

Definition statusCode_of (e : JsError) : option Z :=
  match e with
  | VPSMemoryError _ _ sc _ => sc
  | OtherError _ => None
  end.

(** A settled promise. *)
Inductive Attempt (A : Type) : Type :=
| Ok (a : A)
| Fail (e : JsError).
Arguments Ok {A} a.
Arguments Fail {A} e.

Record VPSConfig : Type := {
  baseUrl : string;
  apiKey : string;
  timeout : Z;
  retryAttempts : Z;
  retryDelay : Z
}.

(** What the HTTP layer does with one request. *)
Inductive Transport : Type :=
| Responded (statusCode : Z) (body : string)
| SocketError (message : string)
| TimedOut
| Threw (message : string).

Section Requests.
Variable trim_is_empty : string → bool.
Variable JSON_parse : string → option Json.
Variable config : VPSConfig.

Definition parse_error (statusCode : Z) (body : string) : JsError :=
  VPSMemoryError (MsgInvalidJson body) "PARSE_ERROR" (Some statusCode)
    (DetailsBody body).

(** One request.  An exception raised in the [try] of the ['end'] handler
    that is not a [VPSMemoryError] is rejected as a [PARSE_ERROR]. *)
Definition makeHttpRequest (t : Transport) : Attempt Json :=
  match t with
  | Responded statusCode body =>
      if trim_is_empty body then
        Fail (VPSMemoryError MsgEmptyResponse "EMPTY_RESPONSE"
                (Some statusCode) NoDetails)
      else
        match JSON_parse body with
        | None => Fail (parse_error statusCode body)
        | Some result =>
            if (200 <=? statusCode) && (statusCode <? 300) then Ok result
            else
              match get result "error" with
              | None => Fail (parse_error statusCode body)
              | Some error =>
                  let message :=
                    match error with
                    | Some e =>
                        if truthy_json e then MsgServer e
                        else MsgHttp statusCode body
                    | None => MsgHttp statusCode body
                    end in
                  Fail (VPSMemoryError message "HTTP_ERROR" (Some statusCode)
                          (DetailsJson result))
              end
        end
  | SocketError message =>
      Fail (VPSMemoryError (MsgNetwork message) "NETWORK_ERROR" None
              (DetailsError (Some (OtherError message))))
  | TimedOut =>
      Fail (VPSMemoryError (MsgTimeout (timeout config)) "TIMEOUT_ERROR" None
              NoDetails)
  | Threw message => Fail (OtherError message)
  end.

(** [error instanceof VPSMemoryError && error.statusCode
     && error.statusCode >= 400 && error.statusCode < 500] *)
Definition is_client_error (e : JsError) : bool :=
  match e with
  | VPSMemoryError _ _ (Some sc) _ =>
      negb (sc =? 0) && (400 <=? sc) && (sc <? 500)
  | _ => false
  end.

Record RequestRun : Type := {
  outcome : Attempt Json;
  requests : nat;
  delays : list Z
}.

Definition retry_exhausted (lastError : option JsError) : JsError :=
  VPSMemoryError
    (MsgFailedAfter (retryAttempts config) (message_of <$> lastError))
    "RETRY_EXHAUSTED" None (DetailsError lastError).

(** The [for] loop of [makeRequest], [remaining] iterations from
    [attempt] on. *)
Fixpoint retry_loop (http : Z → Transport) (remaining : nat) (attempt : Z)
    (lastError : option JsError) (sent : nat) (slept : list Z) : RequestRun :=
  match remaining with
  | O => {| outcome := Fail (retry_exhausted lastError);
            requests := sent; delays := slept |}
  | S remaining' =>
      match makeHttpRequest (http attempt) with
      | Ok result =>
          {| outcome := Ok result; requests := S sent; delays := slept |}
      | Fail error =>
          if is_client_error error then
            {| outcome := Fail error; requests := S sent; delays := slept |}
          else
            retry_loop http remaining' (attempt + 1) (Some error) (S sent)
              (if attempt <? retryAttempts config
               then slept ++ [retryDelay config * attempt] else slept)
      end
  end.

Definition makeRequest (http : Z → Transport) : RequestRun :=
  retry_loop http (Z.to_nat (retryAttempts config)) 1 None 0 [].

(** A request that fails in a way [makeRequest] retries. *)
Definition retryable (t : Transport) : Prop :=
  ∃ e, makeHttpRequest t = Fail e ∧ is_client_error e = false.

(** The delays slept before the attempts [2 .. k]. *)
Definition backoff (k : Z) : list Z :=
  (λ i, retryDelay config * i) <$> seqZ 1 (k - 1).

(** What any run of the loop satisfies, from a loop state that the run of
    [makeRequest] can be in. *)
Definition run_ok (http : Z → Transport) (r : RequestRun) : Prop :=
  (requests r ≤ Z.to_nat (retryAttempts config))%nat
  ∧ delays r = backoff (Z.of_nat (requests r))
  ∧ match outcome r with
    | Ok result => makeHttpRequest (http (Z.of_nat (requests r))) = Ok result
    | Fail e =>
        (makeHttpRequest (http (Z.of_nat (requests r))) = Fail e
         ∧ is_client_error e = true)
        ∨ (requests r = Z.to_nat (retryAttempts config)
           ∧ code_of e = Some "RETRY_EXHAUSTED"
           ∧ statusCode_of e = None)
    end.

Record HealthStatus : Type := {
  health_status : string;
  uptime : Json;
  version : Json;
  memoryCount : Json;
  lastCheck : Z
}.

(** The [try] block of [healthCheck] after the request has returned. *)
Definition healthy_status (now : Z) (health : Json) : Attempt HealthStatus :=
  match get health "uptime", get health "version",
        get health "memoryCount" with
  | Some u, Some v, Some m =>
      Ok {| health_status := "healthy";
            uptime := or_default u (JNum (JsNum.of_Z 0));
            version := or_default v (JString "1.0.0");
            memoryCount := or_default m (JNum (JsNum.of_Z 0));
            lastCheck := now |}
  | _, _, _ => Fail (OtherError "TypeError")
  end.

Definition healthCheck (http : Z → Transport) (now : Z)
    : Attempt HealthStatus :=
  let attempt :=
    match outcome (makeRequest http) with
    | Ok health => healthy_status now health
    | Fail e => Fail e
    end in
  match attempt with
  | Ok status => Ok status
  | Fail _ =>
      Ok {| health_status := "error";
            uptime := JNum (JsNum.of_Z 0);
            version := JString "unknown";
            memoryCount := JNum (JsNum.of_Z 0);
            lastCheck := now |}
  end.

(** [try { await this.healthCheck(); return true } catch { return false }] *)
Definition validateConnection (http : Z → Transport) (now : Z) : bool :=
  match healthCheck http now with
  | Ok _ => true
  | Fail _ => false
  end.

(** [storeMemory]: one [POST /api/memory/store] through [makeRequest]; the
    value is [response.id], and reading it from a [null] response throws. *)
Definition storeMemory (http : Z → Transport) : Attempt (option Json) :=
  match outcome (makeRequest http) with
  | Ok response =>
      match get response "id" with
      | Some id => Ok id
      | None => Fail (OtherError "TypeError")
      end
  | Fail e => Fail e
  end.

End Requests.

End Client.

(** ** Data model (src/src/types.ts) *)

(** Values of type [unknown] stored in state, metadata and pattern maps. *)
Inductive JsValue : Type :=
| JsNull
| JsBool (b : bool)
| JsNumber (z : Z)
| JsString (s : string).

#[global] Instance JsValue_eq_dec : EqDecision JsValue.
Proof. solve_decision. Defined.

(** [Record<string, unknown>] *)
Abbreviation JsRecord := (gmap string JsValue).

(** Object spread [{ ...a, ...b }]: the keys of [b] override those of [a]. *)
Definition spread (a b : JsRecord) : JsRecord := b ∪ a.

(** Truthiness of an optional string: [undefined] and the empty string are
    falsy. *)
Definition truthy (o : option string) : option string :=
  match o with
  | Some s => if decide (s = "") then None else Some s
  | None => None
  end.

Record SessionContext : Type := {
  sess_id : string;
  parentSessionId : option string;
  hierarchyLevel : nat;
  agentRole : string;
  sess_state : JsRecord;
  createdAt : Z;
  lastAccess : Z;
  ttl : Z;
  isActive : bool;
  childSessions : list string;
  memoryContext : list string
}.

Record AgentPerformance : Type := {
  tasksCompleted : nat;
  perf_successRate : JsNum.t;
  averageResponseTime : JsNum.t;
  conflictResolutions : nat;
  patternContributions : nat
}.

Record AgentContext : Type := {
  agent_id : string;
  role : string;
  specialization : list string;
  currentSessions : list string;
  lastActivity : Z;
  performance : AgentPerformance;
  agent_state : JsRecord
}.

Inductive ConflictStatus : Type :=
| Pending
| InProgress
| Resolved
| Escalated.

Record ConflictRecord : Type := {
  conflict_id : string;
  conflict_type : string;
  severity : string;
  description : string;
  involvedMemories : list string;
  involvedSessions : list string;
  involvedAgents : list string;
  resolutionTier : nat;
  resolutionStrategy : string;
  status : ConflictStatus;
  conflict_createdAt : Z;
  resolvedAt : option Z;
  metadata : JsRecord
}.

Record LearnedPattern : Type := {
  pattern_id : string;
  pattern_type : string;
  pattern_description : string;
  conditions : JsRecord;
  actions : JsRecord;
  confidence : JsNum.t;
  usageCount : nat;
  successRate : JsNum.t;
  lastApplied : Z;
  applicableContexts : list string
}.

(** *** Coordination record *)

Record AutoResolution : Type := {
  tier1_enabled : bool;
  memoryDeduplication : bool;
  temporalRecency : bool;
  similarityMerging : bool;
  agentPrecedence : bool;
  similarityThreshold : JsNum.t;
  timeThreshold : JsNum.t;
  confidenceThreshold : JsNum.t
}.

Record AgentMediation : Type := {
  tier2_enabled : bool;
  contextualAnalysis : bool;
  votingMechanism : bool;
  expertConsensus : bool;
  maxMediationTime : JsNum.t;
  complexityThreshold : JsNum.t;
  stakeholderCount : JsNum.t
}.

Record HumanEscalation : Type := {
  tier3_enabled : bool;
  notificationChannels : list string;
  criticalConflicts : JsNum.t;
  unresolvedTime : JsNum.t;
  systemImpact : JsNum.t
}.

Record ConflictResolutionState : Type := {
  tier1 : AutoResolution;
  tier2 : AgentMediation;
  tier3 : HumanEscalation;
  activeConflicts : list ConflictRecord;
  resolutionHistory : list ConflictRecord
}.

Record PerformanceMetrics : Type := {
  patternsLearned : nat;
  patternsApplied : nat;
  adaptationRate : JsNum.t;
  learningEfficiency : JsNum.t;
  lastUpdated : Z
}.

(** [activeAgents], [sessionHierarchy] and [globalPatterns.patterns] hold the
    very objects of the orchestrator's own maps; they are kept as the sets
    of their keys.  The constant [learningStrategies] and [adaptationRules]
    lists are never read and are left out. *)
Record AgentCoordination : Type := {
  orchestratorId : string;
  activeAgents : gset string;
  sessionHierarchy : gset string;
  conflictResolution : ConflictResolutionState;
  globalPatterns_patterns : gset string;
  performanceMetrics : PerformanceMetrics
}.

(** Calls of [client.storeMemory], by call site. *)
Inductive AuditEvent : Type :=
| SessionCreated (sessionId agentRole : string) (level : nat)
    (parent : option string) (specialization : option (list string))
| AgentRegistered (agentId role : string) (specialization : list string)
| HumanEscalationLogged (conflictId ctype severity : string)
    (items : list string)
| PatternLearned (patternId ptype : string) (context action : JsRecord)
    (contexts : list string)
| SessionExpired (sessionId : string) (age ttl : Z).

(** What the memory collaborator answers to [client.storeMemory(...)]
    during one call of a public method, by the record written: [None] when
    the promise is fulfilled (its value, the id of the new record, is never
    used by the orchestrator), [Some e] when it is rejected with [e]. *)
Definition Memory : Type := AuditEvent → option Client.JsError.

(** [client] is the audit trail: the writes the collaborator has
    acknowledged, oldest first.  [sessions_order] lists the keys of
    [sessions] in the order [this.sessions.entries()] yields them, the order
    of their first insertion. *)
Record Orchestrator : Type := {
  client : list AuditEvent;
  coordination : AgentCoordination;
  sessions : gmap string SessionContext;
  sessions_order : list string;
  agents : gmap string AgentContext;
  conflicts : gmap string ConflictRecord;
  patterns : gmap string LearnedPattern
}.

(** *** Field updates *)

Definition set_lastAccess (v : Z) (s : SessionContext) : SessionContext :=
  {| sess_id := sess_id s; parentSessionId := parentSessionId s;
     hierarchyLevel := hierarchyLevel s; agentRole := agentRole s;
     sess_state := sess_state s; createdAt := createdAt s; lastAccess := v;
     ttl := ttl s; isActive := isActive s; childSessions := childSessions s;
     memoryContext := memoryContext s |}.

Definition set_isActive (v : bool) (s : SessionContext) : SessionContext :=
  {| sess_id := sess_id s; parentSessionId := parentSessionId s;
     hierarchyLevel := hierarchyLevel s; agentRole := agentRole s;
     sess_state := sess_state s; createdAt := createdAt s;
     lastAccess := lastAccess s; ttl := ttl s; isActive := v;
     childSessions := childSessions s; memoryContext := memoryContext s |}.

Definition set_state (v : JsRecord) (s : SessionContext) : SessionContext :=
  {| sess_id := sess_id s; parentSessionId := parentSessionId s;
     hierarchyLevel := hierarchyLevel s; agentRole := agentRole s;
     sess_state := v; createdAt := createdAt s; lastAccess := lastAccess s;
     ttl := ttl s; isActive := isActive s; childSessions := childSessions s;
     memoryContext := memoryContext s |}.

(** [parent.childSessions.push(sessionId)] *)
Definition push_child (c : string) (s : SessionContext) : SessionContext :=
  {| sess_id := sess_id s; parentSessionId := parentSessionId s;
     hierarchyLevel := hierarchyLevel s; agentRole := agentRole s;
     sess_state := sess_state s; createdAt := createdAt s;
     lastAccess := lastAccess s; ttl := ttl s; isActive := isActive s;
     childSessions := childSessions s ++ [c];
     memoryContext := memoryContext s |}.

Definition with_sessions (f : gmap string SessionContext → gmap string SessionContext)
    (o : Orchestrator) : Orchestrator :=
  {| client := client o; coordination := coordination o;
     sessions := f (sessions o); sessions_order := sessions_order o;
     agents := agents o;
     conflicts := conflicts o; patterns := patterns o |}.

Definition with_coordination (f : AgentCoordination → AgentCoordination)
    (o : Orchestrator) : Orchestrator :=
  {| client := client o; coordination := f (coordination o);
     sessions := sessions o; sessions_order := sessions_order o;
     agents := agents o;
     conflicts := conflicts o; patterns := patterns o |}.

(** [this.sessions.set(k, s)]: a new key goes to the end of the iteration
    order, a key that is already there keeps its place. *)
Definition set_session (k : string) (s : SessionContext) (o : Orchestrator)
    : Orchestrator :=
  {| client := client o; coordination := coordination o;
     sessions := <[k := s]> (sessions o);
     sessions_order :=
       if decide (is_Some (sessions o !! k)) then sessions_order o
       else sessions_order o ++ [k];
     agents := agents o;
     conflicts := conflicts o; patterns := patterns o |}.

(** [this.sessions.entries()] *)
Definition sessions_entries (o : Orchestrator) : list (string * SessionContext) :=
  omap (λ k, pair k <$> sessions o !! k) (sessions_order o).

(** The trail after an acknowledged write. *)
Definition recorded (e : AuditEvent) (o : Orchestrator) : Orchestrator :=
  {| client := client o ++ [e]; coordination := coordination o;
     sessions := sessions o; sessions_order := sessions_order o;
     agents := agents o;
     conflicts := conflicts o; patterns := patterns o |}.

(** [await this.client.storeMemory(...)]: the first component is the error
    thrown at the [await], if any. *)
Definition storeMemory (mem : Memory) (e : AuditEvent) (o : Orchestrator)
    : option Client.JsError * Orchestrator :=
  match mem e with
  | None => (None, recorded e o)
  | Some err => (Some err, o)
  end.

(** How an [async] method settles that returns [a] unless [thrown] was
    thrown on the way. *)
Definition settle {A : Type} (thrown : option Client.JsError) (a : A)
    : Client.Attempt A :=
  match thrown with
  | None => Client.Ok a
  | Some e => Client.Fail e
  end.

Definition with_sessionHierarchy (f : gset string → gset string)
    (c : AgentCoordination) : AgentCoordination :=
  {| orchestratorId := orchestratorId c; activeAgents := activeAgents c;
     sessionHierarchy := f (sessionHierarchy c);
     conflictResolution := conflictResolution c;
     globalPatterns_patterns := globalPatterns_patterns c;
     performanceMetrics := performanceMetrics c |}.

Definition with_activeAgents (f : gset string → gset string)
    (c : AgentCoordination) : AgentCoordination :=
  {| orchestratorId := orchestratorId c; activeAgents := f (activeAgents c);
     sessionHierarchy := sessionHierarchy c;
     conflictResolution := conflictResolution c;
     globalPatterns_patterns := globalPatterns_patterns c;
     performanceMetrics := performanceMetrics c |}.

Definition with_conflictResolution
    (f : ConflictResolutionState → ConflictResolutionState)
    (c : AgentCoordination) : AgentCoordination :=
  {| orchestratorId := orchestratorId c; activeAgents := activeAgents c;
     sessionHierarchy := sessionHierarchy c;
     conflictResolution := f (conflictResolution c);
     globalPatterns_patterns := globalPatterns_patterns c;
     performanceMetrics := performanceMetrics c |}.

Definition with_globalPatterns (f : gset string → gset string)
    (g : PerformanceMetrics → PerformanceMetrics)
    (c : AgentCoordination) : AgentCoordination :=
  {| orchestratorId := orchestratorId c; activeAgents := activeAgents c;
     sessionHierarchy := sessionHierarchy c;
     conflictResolution := conflictResolution c;
     globalPatterns_patterns := f (globalPatterns_patterns c);
     performanceMetrics := g (performanceMetrics c) |}.

(** [activeConflicts.push(conflict)] *)
Definition push_activeConflict (c : ConflictRecord)
    (r : ConflictResolutionState) : ConflictResolutionState :=
  {| tier1 := tier1 r; tier2 := tier2 r; tier3 := tier3 r;
     activeConflicts := activeConflicts r ++ [c];
     resolutionHistory := resolutionHistory r |}.

Definition with_conflicts (f : gmap string ConflictRecord → gmap string ConflictRecord)
    (o : Orchestrator) : Orchestrator :=
  {| client := client o; coordination := coordination o;
     sessions := sessions o; sessions_order := sessions_order o;
     agents := agents o;
     conflicts := f (conflicts o); patterns := patterns o |}.

Definition with_agents (f : gmap string AgentContext → gmap string AgentContext)
    (o : Orchestrator) : Orchestrator :=
  {| client := client o; coordination := coordination o;
     sessions := sessions o; sessions_order := sessions_order o;
     agents := f (agents o);
     conflicts := conflicts o; patterns := patterns o |}.

Definition with_patterns (f : gmap string LearnedPattern → gmap string LearnedPattern)
    (o : Orchestrator) : Orchestrator :=
  {| client := client o; coordination := coordination o;
     sessions := sessions o; sessions_order := sessions_order o;
     agents := agents o;
     conflicts := conflicts o; patterns := f (patterns o) |}.

Definition set_resolutionTier (n : nat) (c : ConflictRecord) : ConflictRecord :=
  {| conflict_id := conflict_id c; conflict_type := conflict_type c;
     severity := severity c; description := description c;
     involvedMemories := involvedMemories c;
     involvedSessions := involvedSessions c;
     involvedAgents := involvedAgents c; resolutionTier := n;
     resolutionStrategy := resolutionStrategy c; status := status c;
     conflict_createdAt := conflict_createdAt c; resolvedAt := resolvedAt c;
     metadata := metadata c |}.

Definition set_status (v : ConflictStatus) (c : ConflictRecord) : ConflictRecord :=
  {| conflict_id := conflict_id c; conflict_type := conflict_type c;
     severity := severity c; description := description c;
     involvedMemories := involvedMemories c;
     involvedSessions := involvedSessions c;
     involvedAgents := involvedAgents c; resolutionTier := resolutionTier c;
     resolutionStrategy := resolutionStrategy c; status := v;
     conflict_createdAt := conflict_createdAt c; resolvedAt := resolvedAt c;
     metadata := metadata c |}.

(** The three assignments of a successful tier:
    [status = 'resolved'], [resolvedAt = now], [resolutionStrategy = s]. *)
Definition mark_resolved (now : Z) (s : string) (c : ConflictRecord) : ConflictRecord :=
  {| conflict_id := conflict_id c; conflict_type := conflict_type c;
     severity := severity c; description := description c;
     involvedMemories := involvedMemories c;
     involvedSessions := involvedSessions c;
     involvedAgents := involvedAgents c; resolutionTier := resolutionTier c;
     resolutionStrategy := s; status := Resolved;
     conflict_createdAt := conflict_createdAt c; resolvedAt := Some now;
     metadata := metadata c |}.

(** ** Placeholder helpers *)

(** [{ resolved: boolean; strategy: string }] *)
Record Resolution : Type := {
  resolved : bool;
  strategy : string
}.

(** The private helpers of the class that the tiers and [applyPattern]
    delegate to.  [performContextualAnalysis] and [conductAgentVoting] give
    the [confidence] and [consensus] fields of their results;
    [executePatternActions] is [true] when its promise is fulfilled and
    [false] when it is rejected, which is what the [try]/[catch] of
    [applyPattern] distinguishes.  A helper is a function of its arguments
    that returns and assigns nothing, as the bodies of the source are; the
    executor of the source is always fulfilled. *)
Record Helpers : Type := {
  resolveMemoryConflict : ConflictRecord → AutoResolution → Resolution;
  resolveSessionConflict : ConflictRecord → AutoResolution → Resolution;
  resolveAgentConflict : ConflictRecord → AutoResolution → Resolution;
  resolvePatternConflict : ConflictRecord → AutoResolution → Resolution;
  performContextualAnalysis : ConflictRecord → JsNum.t;
  conductAgentVoting : ConflictRecord → JsNum.t;
  evaluatePatternMatch : JsRecord → JsRecord → JsNum.t;
  executePatternActions : JsRecord → JsRecord → bool
}.

(** The bodies as the source has them. *)
Definition source_helpers : Helpers := {|
  resolveMemoryConflict _ _ :=
    {| resolved := true; strategy := "memory_deduplication" |};
  resolveSessionConflict _ _ :=
    {| resolved := true; strategy := "session_hierarchy_precedence" |};
  resolveAgentConflict _ _ :=
    {| resolved := true; strategy := "agent_precedence" |};
  resolvePatternConflict _ _ :=
    {| resolved := true; strategy := "pattern_priority" |};
  performContextualAnalysis _ := JsNum.lit 9 10;
  conductAgentVoting _ := JsNum.lit 8 10;
  evaluatePatternMatch _ _ := JsNum.lit 85 100;
  executePatternActions _ _ := true
|}.

(** ** The orchestrator *)

(** [`${prefix}-${Date.now()}-${Math.random().toString(36).substr(2, 9)}`] *)
Definition generated_id (prefix : string) (now : Z) (rnd : string) : string :=
  prefix +:+ "-" +:+ pretty now +:+ "-" +:+ rnd.

Definition initializeCoordination (now : Z) (rnd : string) : AgentCoordination := {|
  orchestratorId := generated_id "orchestrator" now rnd;
  activeAgents := ∅;
  sessionHierarchy := ∅;
  conflictResolution := {|
    tier1 := {|
      tier1_enabled := true;
      memoryDeduplication := true;
      temporalRecency := true;
      similarityMerging := true;
      agentPrecedence := true;
      similarityThreshold := JsNum.lit 85 100;
      timeThreshold := JsNum.of_Z 3600;
      confidenceThreshold := JsNum.lit 8 10 |};
    tier2 := {|
      tier2_enabled := true;
      contextualAnalysis := true;
      votingMechanism := true;
      expertConsensus := true;
      maxMediationTime := JsNum.of_Z 300;
      complexityThreshold := JsNum.lit 7 10;
      stakeholderCount := JsNum.of_Z 3 |};
    tier3 := {|
      tier3_enabled := true;
      notificationChannels := ["system_log"; "admin_alert"];
      criticalConflicts := JsNum.of_Z 5;
      unresolvedTime := JsNum.of_Z 1800;
      systemImpact := JsNum.lit 8 10 |};
    activeConflicts := [];
    resolutionHistory := [] |};
  globalPatterns_patterns := ∅;
  performanceMetrics := {|
    patternsLearned := 0;
    patternsApplied := 0;
    adaptationRate := JsNum.of_Z 0;
    learningEfficiency := JsNum.of_Z 0;
    lastUpdated := now |}
|}.

(** [new VPSMemoryOrchestrator(client)] on a client with an empty trail. *)
Definition new_orchestrator (now : Z) (rnd : string) : Orchestrator := {|
  client := [];
  coordination := initializeCoordination now rnd;
  sessions := ∅;
  sessions_order := [];
  agents := ∅;
  conflicts := ∅;
  patterns := ∅
|}.

(** *** createSession *)

Record SessionOptions : Type := {
  opt_parentSessionId : option string;
  opt_initialState : option JsRecord;
  opt_ttl : option Z;
  opt_specialization : option (list string)
}.

(** [options.ttl || 3600]: [undefined] and [0] are falsy. *)
Definition ttl_or_default (t : option Z) : Z :=
  match t with
  | Some v => if decide (v = 0) then 3600 else v
  | None => 3600
  end.

(** [(this.sessions.get(p)?.hierarchyLevel || 0) + 1] *)
Definition level_under (parent : option SessionContext) : nat :=
  (default 0 (hierarchyLevel <$> parent) + 1)%nat.

(** The record built on entry of [createSession]. *)
Definition new_session (now : Z) (rnd : string) (agentRole : string)
    (options : SessionOptions) (o : Orchestrator) : SessionContext := {|
  sess_id := generated_id "session" now rnd;
  parentSessionId := opt_parentSessionId options;
  hierarchyLevel :=
    match truthy (opt_parentSessionId options) with
    | Some p => level_under (sessions o !! p)
    | None => 0%nat
    end;
  agentRole := agentRole;
  sess_state := default ∅ (opt_initialState options);
  createdAt := now;
  lastAccess := now;
  ttl := ttl_or_default (opt_ttl options);
  isActive := true;
  childSessions := [];
  memoryContext := []
|}.

(** The record written by [createSession]. *)
Definition session_created (session : SessionContext)
    (options : SessionOptions) : AuditEvent :=
  SessionCreated (sess_id session) (agentRole session)
    (hierarchyLevel session) (opt_parentSessionId options)
    (opt_specialization options).

Definition createSession (now : Z) (rnd : string) (agentRole : string)
    (options : SessionOptions) (mem : Memory) (o : Orchestrator)
    : Client.Attempt SessionContext * Orchestrator :=
  let sessionId := generated_id "session" now rnd in
  let session := new_session now rnd agentRole options o in
  let o1 :=
    match truthy (opt_parentSessionId options) with
    | Some p =>
        match sessions o !! p with
        | Some _ => with_sessions (alter (push_child sessionId) p) o
        | None => o
        end
    | None => o
    end in
  let o2 := set_session sessionId session o1 in
  let o3 := with_coordination (with_sessionHierarchy (union {[sessionId]})) o2 in
  let '(thrown, o4) := storeMemory mem (session_created session options) o3 in
  (settle thrown session, o4).

(** *** registerAgent *)

(** The record built on entry of [registerAgent]. *)
Definition new_agent (now : Z) (agentId role : string)
    (specialization : list string) : AgentContext := {|
  agent_id := agentId;
  role := role;
  specialization := specialization;
  currentSessions := [];
  lastActivity := now;
  performance := {|
    tasksCompleted := 0;
    perf_successRate := JsNum.of_Z 1;
    averageResponseTime := JsNum.of_Z 0;
    conflictResolutions := 0;
    patternContributions := 0 |};
  agent_state := ∅
|}.

Definition registerAgent (now : Z) (agentId role : string)
    (specialization : list string) (mem : Memory) (o : Orchestrator)
    : Client.Attempt AgentContext * Orchestrator :=
  let agent := new_agent now agentId role specialization in
  let o1 := with_agents (insert agentId agent) o in
  let o2 := with_coordination (with_activeAgents (union {[agentId]})) o1 in
  let '(thrown, o3) :=
    storeMemory mem (AgentRegistered agentId role specialization) o2 in
  (settle thrown agent, o3).

(** *** Conflict resolution *)

Section Resolution.
Variable h : Helpers.

(** Tier 1: automatic resolution. *)
Definition attemptTier1Resolution (conflict : ConflictRecord)
    (o : Orchestrator) : Resolution :=
  let t1 := tier1 (conflictResolution (coordination o)) in
  if negb (tier1_enabled t1) then
    {| resolved := false; strategy := "tier1_disabled" |}
  else if String.eqb (conflict_type conflict) "memory_conflict" then
    resolveMemoryConflict h conflict t1
  else if String.eqb (conflict_type conflict) "session_conflict" then
    resolveSessionConflict h conflict t1
  else if String.eqb (conflict_type conflict) "agent_conflict" then
    resolveAgentConflict h conflict t1
  else if String.eqb (conflict_type conflict) "pattern_conflict" then
    resolvePatternConflict h conflict t1
  else
    {| resolved := false; strategy := "unknown_conflict_type" |}.

Definition is_mediator (a : AgentContext) : bool :=
  String.eqb (role a) "coordinator" || String.eqb (role a) "orchestrator".

(** [Array.from(this.agents.values()).filter(...)]; only the length of the
    result is used, so the order of the values plays no part. *)
Definition mediators (o : Orchestrator) : list AgentContext :=
  List.filter is_mediator (map_to_list (agents o)).*2.

(** Tier 2: agent mediation. *)
Definition attemptTier2Resolution (conflict : ConflictRecord)
    (o : Orchestrator) : Resolution :=
  let t2 := tier2 (conflictResolution (coordination o)) in
  if negb (tier2_enabled t2) then
    {| resolved := false; strategy := "tier2_disabled" |}
  else if (length (mediators o) =? 0)%nat then
    {| resolved := false; strategy := "no_mediators_available" |}
  else if contextualAnalysis t2
          && JsNum.gtb (performContextualAnalysis h conflict) (JsNum.lit 8 10) then
    {| resolved := true; strategy := "contextual_analysis" |}
  else if votingMechanism t2
          && (1 <? length (involvedAgents conflict))%nat
          && JsNum.gtb (conductAgentVoting h conflict) (JsNum.lit 7 10) then
    {| resolved := true; strategy := "agent_voting" |}
  else
    {| resolved := false; strategy := "tier2_exhausted" |}.

(** The record written by [escalateToHuman]. *)
Definition escalation_logged (conflict : ConflictRecord) : AuditEvent :=
  HumanEscalationLogged (conflict_id conflict) (conflict_type conflict)
    (severity conflict)
    (involvedMemories conflict ++ involvedSessions conflict
       ++ involvedAgents conflict).

(** Tier 3: human escalation.  The conflict is pushed to the active
    conflicts after the awaited write, so not when that write is rejected. *)
Definition escalateToHuman (mem : Memory) (conflict : ConflictRecord)
    (o : Orchestrator) : option Client.JsError * Orchestrator :=
  let t3 := tier3 (conflictResolution (coordination o)) in
  if negb (tier3_enabled t3) then (None, o)
  else
    match storeMemory mem (escalation_logged conflict) o with
    | (None, o1) =>
        (None,
         with_coordination
           (with_conflictResolution (push_activeConflict conflict)) o1)
    | (Some e, o1) => (Some e, o1)
    end.

(** The record built on entry of [resolveConflict]. *)
Definition new_conflict (now : Z) (rnd : string) (conflictType : string)
    (involvedItems : list string) (severity : string) (metadata : JsRecord)
    : ConflictRecord := {|
  conflict_id := generated_id "conflict" now rnd;
  conflict_type := conflictType;
  severity := severity;
  description :=
    conflictType +:+ " involving " +:+ pretty (length involvedItems)
      +:+ " items";
  involvedMemories :=
    if String.eqb conflictType "memory_conflict" then involvedItems else [];
  involvedSessions :=
    if String.eqb conflictType "session_conflict" then involvedItems else [];
  involvedAgents :=
    if String.eqb conflictType "agent_conflict" then involvedItems else [];
  resolutionTier := 1;
  resolutionStrategy := "";
  status := Pending;
  conflict_createdAt := now;
  resolvedAt := None;
  metadata := metadata
|}.

(** [this.conflicts] holds the conflict object itself, so every assignment
    to [conflict] is also an update of the map entry. *)
Definition resolveConflict (now : Z) (rnd : string) (conflictType : string)
    (involvedItems : list string) (severity : string) (metadata : JsRecord)
    (mem : Memory) (o : Orchestrator)
    : Client.Attempt ConflictRecord * Orchestrator :=
  let conflictId := generated_id "conflict" now rnd in
  let conflict :=
    new_conflict now rnd conflictType involvedItems severity metadata in
  let o1 := with_conflicts (insert conflictId conflict) o in
  let tier1Result := attemptTier1Resolution conflict o1 in
  if resolved tier1Result then
    let c := mark_resolved now (strategy tier1Result) conflict in
    (Client.Ok c, with_conflicts (insert conflictId c) o1)
  else
    let conflict2 := set_resolutionTier 2 conflict in
    let o2 := with_conflicts (insert conflictId conflict2) o1 in
    let tier2Result := attemptTier2Resolution conflict2 o2 in
    if resolved tier2Result then
      let c := mark_resolved now (strategy tier2Result) conflict2 in
      (Client.Ok c, with_conflicts (insert conflictId c) o2)
    else
      let conflict3 := set_status Escalated (set_resolutionTier 3 conflict2) in
      let o3 := with_conflicts (insert conflictId conflict3) o2 in
      let '(thrown, o4) := escalateToHuman mem conflict3 o3 in
      (settle thrown conflict3, o4).

(** *** Pattern learning *)

(** The record built on entry of [learnPattern]. *)
Definition new_pattern (now : Z) (rnd : string) (type : string)
    (context action : JsRecord) (applicableContexts : list string)
    : LearnedPattern := {|
  pattern_id := generated_id ("pattern-" +:+ type) now rnd;
  pattern_type := type;
  pattern_description :=
    "Learned " +:+ type +:+ " pattern from context analysis";
  conditions := context;
  actions := action;
  confidence := JsNum.lit 5 10;
  usageCount := 0;
  successRate := JsNum.of_Z 0;
  lastApplied := now;
  applicableContexts := applicableContexts
|}.

(** [patternsLearned++; lastUpdated = now] *)
Definition count_learned (now : Z) (m : PerformanceMetrics)
    : PerformanceMetrics :=
  {| patternsLearned := S (patternsLearned m);
     patternsApplied := patternsApplied m;
     adaptationRate := adaptationRate m;
     learningEfficiency := learningEfficiency m;
     lastUpdated := now |}.

(** The learning metrics are updated after the awaited write. *)
Definition learnPattern (now : Z) (rnd : string) (type : string)
    (context action : JsRecord) (applicableContexts : list string)
    (mem : Memory) (o : Orchestrator)
    : Client.Attempt LearnedPattern * Orchestrator :=
  let patternId := generated_id ("pattern-" +:+ type) now rnd in
  let pattern := new_pattern now rnd type context action applicableContexts in
  let o1 := with_patterns (insert patternId pattern) o in
  let o2 := with_coordination
    (with_globalPatterns (union {[patternId]}) id) o1 in
  match storeMemory mem
          (PatternLearned patternId type context action applicableContexts)
          o2 with
  | (None, o3) =>
      (Client.Ok pattern,
       with_coordination (with_globalPatterns id (count_learned now)) o3)
  | (Some e, o3) => (Client.Fail e, o3)
  end.

(** [((successRate * (usageCount - 1)) + outcome) / usageCount], on the
    pattern's current fields. *)
Definition running_average (p : LearnedPattern) (outcome : Z) : JsNum.t :=
  JsNum.div
    (JsNum.add
       (JsNum.mul (successRate p)
          (JsNum.sub (JsNum.of_nat (usageCount p)) (JsNum.of_Z 1)))
       (JsNum.of_Z outcome))
    (JsNum.of_nat (usageCount p)).

Definition set_successRate (v : JsNum.t) (p : LearnedPattern) : LearnedPattern :=
  {| pattern_id := pattern_id p; pattern_type := pattern_type p;
     pattern_description := pattern_description p;
     conditions := conditions p; actions := actions p;
     confidence := confidence p; usageCount := usageCount p;
     successRate := v; lastApplied := lastApplied p;
     applicableContexts := applicableContexts p |}.

(** [pattern.usageCount++; pattern.lastApplied = now] *)
Definition count_usage (now : Z) (p : LearnedPattern) : LearnedPattern :=
  {| pattern_id := pattern_id p; pattern_type := pattern_type p;
     pattern_description := pattern_description p;
     conditions := conditions p; actions := actions p;
     confidence := confidence p; usageCount := S (usageCount p);
     successRate := successRate p; lastApplied := now;
     applicableContexts := applicableContexts p |}.

(** The [try] block of [applyPattern] after the awaited helper returned. *)
Definition record_success (now : Z) (p : LearnedPattern) : LearnedPattern :=
  let p1 := count_usage now p in
  set_successRate (running_average p1 1) p1.

(** The [catch] block of [applyPattern]. *)
Definition record_failure (p : LearnedPattern) : LearnedPattern :=
  set_successRate (running_average p 0) p.

Definition applyPattern (now : Z) (patternId : string)
    (currentContext : JsRecord) (o : Orchestrator) : bool * Orchestrator :=
  match patterns o !! patternId with
  | None => (false, o)
  | Some pattern =>
      let matches := evaluatePatternMatch h (conditions pattern) currentContext in
      if JsNum.ltb matches (JsNum.lit 7 10) then (false, o)
      else if executePatternActions h (actions pattern) currentContext then
        let o1 := with_patterns (insert patternId (record_success now pattern)) o in
        let o2 := with_coordination
          (with_globalPatterns id
             (λ m, {| patternsLearned := patternsLearned m;
                      patternsApplied := S (patternsApplied m);
                      adaptationRate := adaptationRate m;
                      learningEfficiency := learningEfficiency m;
                      lastUpdated := lastUpdated m |})) o1 in
        (true, o2)
      else
        (false, with_patterns (insert patternId (record_failure pattern)) o)
  end.

End Resolution.

(** *** Session retrieval and expiry *)

(** [now - createdAt > ttl * 1000] *)
Definition expired (now : Z) (s : SessionContext) : bool :=
  bool_decide (now - createdAt s > ttl s * 1000).

Definition alter_session (f : SessionContext → SessionContext) (k : string)
    (o : Orchestrator) : Orchestrator :=
  with_sessions (alter f k) o.

(** [session.state = { ...parentContext.state, ...session.state }] *)
Definition inherit_state (parentContext : SessionContext)
    (s : SessionContext) : SessionContext :=
  set_state (spread (sess_state parentContext) (sess_state s)) s.

(** The recursion follows [parentSessionId]; [fuel] bounds its depth and
    [None] is a call that has not returned within that depth.  [session]
    denotes the stored object, so the result is read from the store. *)
Fixpoint getSessionContext (fuel : nat) (now : Z) (sessionId : string)
    (includeHierarchy : bool) (o : Orchestrator)
    : option (option SessionContext * Orchestrator) :=
  match fuel with
  | O => None
  | S fuel' =>
      match sessions o !! sessionId with
      | None => Some (None, o)
      | Some session =>
          let o1 := alter_session (set_lastAccess now) sessionId o in
          if expired now session then
            let o2 := alter_session (set_isActive false) sessionId o1 in
            Some (sessions o2 !! sessionId, o2)
          else
            match (if includeHierarchy then truthy (parentSessionId session)
                   else None) with
            | Some p =>
                match getSessionContext fuel' now p true o1 with
                | None => None
                | Some (Some parentContext, o2) =>
                    let o3 := alter_session (inherit_state parentContext)
                                sessionId o2 in
                    Some (sessions o3 !! sessionId, o3)
                | Some (None, o2) => Some (sessions o2 !! sessionId, o2)
                end
            | None => Some (sessions o1 !! sessionId, o1)
            end
      end
  end.

(** The record written by the sweep for an expired session. *)
Definition session_expired (now : Z) (entry : string * SessionContext)
    : AuditEvent :=
  SessionExpired entry.1 (now - createdAt entry.2) (ttl entry.2).

(** The [for ... of this.sessions.entries()] loop of
    [cleanupExpiredSessions] over the entries still to visit.  A rejected
    write leaves the loop, and the method, at the [await]. *)
Fixpoint cleanup_loop (now : Z) (mem : Memory)
    (entries : list (string * SessionContext)) (cleanedCount : nat)
    (o : Orchestrator) : Client.Attempt nat * Orchestrator :=
  match entries with
  | [] => (Client.Ok cleanedCount, o)
  | (sessionId, session) :: rest =>
      if expired now session then
        let o1 := alter_session (set_isActive false) sessionId o in
        let o2 := with_coordination
                    (with_sessionHierarchy (λ m, m ∖ {[sessionId]})) o1 in
        match storeMemory mem (session_expired now (sessionId, session)) o2 with
        | (None, o3) => cleanup_loop now mem rest (S cleanedCount) o3
        | (Some e, o3) => (Client.Fail e, o3)
        end
      else cleanup_loop now mem rest cleanedCount o
  end.

Definition cleanupExpiredSessions (now : Z) (mem : Memory) (o : Orchestrator)
    : Client.Attempt nat * Orchestrator :=
  cleanup_loop now mem (sessions_entries o) 0 o.

(** What the sweep does to one stored session. *)
Definition expire (now : Z) (s : SessionContext) : SessionContext :=
  if expired now s then set_isActive false s else s.

#[global] Arguments generated_id : simpl never.

(** The configuration part of [coordination.conflictResolution]. *)
Definition configuration (o : Orchestrator)
    : AutoResolution * AgentMediation * HumanEscalation :=
  let r := conflictResolution (coordination o) in (tier1 r, tier2 r, tier3 r).

(** ** Runs of the orchestrator *)

(** One invocation of a public method (the interval timer of the class
    invokes [cleanupExpiredSessions]).  [rnd] is the random suffix drawn
    by the call, [fuel] the depth within which [getSessionContext] returned. *)
Inductive Call : Type :=
| CallCreateSession (rnd agentRole : string) (options : SessionOptions)
    (mem : Memory)
| CallRegisterAgent (agentId role : string) (specialization : list string)
    (mem : Memory)
| CallResolveConflict (rnd conflictType : string) (involvedItems : list string)
    (severity : string) (metadata : JsRecord) (mem : Memory)
| CallLearnPattern (rnd type : string) (context action : JsRecord)
    (applicableContexts : list string) (mem : Memory)
| CallApplyPattern (patternId : string) (currentContext : JsRecord)
| CallGetSessionContext (fuel : nat) (sessionId : string)
    (includeHierarchy : bool)
| CallCleanupExpiredSessions (mem : Memory).

(** The state a call leaves, whether its promise is fulfilled or
    rejected. *)
Definition perform (h : Helpers) (now : Z) (c : Call) (o : Orchestrator)
    : option Orchestrator :=
  match c with
  | CallCreateSession rnd agentRole options mem =>
      Some (createSession now rnd agentRole options mem o).2
  | CallRegisterAgent agentId role specialization mem =>
      Some (registerAgent now agentId role specialization mem o).2
  | CallResolveConflict rnd conflictType involvedItems severity metadata mem =>
      Some (resolveConflict h now rnd conflictType involvedItems severity
              metadata mem o).2
  | CallLearnPattern rnd type context action applicableContexts mem =>
      Some (learnPattern now rnd type context action applicableContexts
              mem o).2
  | CallApplyPattern patternId currentContext =>
      Some (applyPattern h now patternId currentContext o).2
  | CallGetSessionContext fuel sessionId includeHierarchy =>
      snd <$> getSessionContext fuel now sessionId includeHierarchy o
  | CallCleanupExpiredSessions mem =>
      Some (cleanupExpiredSessions now mem o).2
  end.

(** Session ids are unique tokens: the id a [createSession] call draws is
    not the key of a stored session. *)
Definition fresh_id (now : Z) (c : Call) (o : Orchestrator) : Prop :=
  match c with
  | CallCreateSession rnd _ _ _ =>
      sessions o !! generated_id "session" now rnd = None
  | _ => True
  end.

Inductive step (h : Helpers) (o o' : Orchestrator) : Prop :=
| step_call (now : Z) (c : Call) :
    fresh_id now c o → perform h now c o = Some o' → step h o o'.

(** The states of an orchestrator built by the constructor. *)
Definition reachable (h : Helpers) (o : Orchestrator) : Prop :=
  ∃ now rnd, rtc (step h) (new_orchestrator now rnd) o.

(** ** Notions used by the properties *)

(** The parent chain of [sid] as [getSessionContext] walks it at time
    [now], leaf first.  The walk goes up through stored sessions that have
    not expired and ends with the first session that has expired, or whose
    parent id is falsy or not a key of the store.  Each entry is the session
    id with its stored state map. *)
Inductive parent_walk (now : Z) (o : Orchestrator)
    : string → list (string * JsRecord) → Prop :=
| walk_expired sid s :
    sessions o !! sid = Some s →
    expired now s = true →
    parent_walk now o sid [(sid, sess_state s)]
| walk_top sid s :
    sessions o !! sid = Some s →
    expired now s = false →
    (∀ p, truthy (parentSessionId s) = Some p → sessions o !! p = None) →
    parent_walk now o sid [(sid, sess_state s)]
| walk_link sid s p l :
    sessions o !! sid = Some s →
    expired now s = false →
    truthy (parentSessionId s) = Some p →
    parent_walk now o p l →
    parent_walk now o sid ((sid, sess_state s) :: l).

(** The merge of the specification: the root's keys are applied first and
    each descendant's keys override those of its ancestors.  The argument
    lists the state maps root first. *)
Definition merge_root_to_leaf (root_first : list JsRecord) : JsRecord :=
  foldl spread ∅ root_first.

(** [child] is stored with parent id [parent], one level below the stored
    session [parent], and is listed among that session's children. *)
Definition hierarchy_link (o : Orchestrator) (child parent : string) : Prop :=
  ∃ S P,
    sessions o !! child = Some S ∧ sessions o !! parent = Some P
    ∧ parentSessionId S = Some parent
    ∧ hierarchyLevel S = (hierarchyLevel P + 1)%nat
    ∧ child ∈ childSessions P.

(** The sessions a run from [o] to [o'] flipped from active to inactive. *)
Definition transitioned (o o' : Orchestrator) : gmap string SessionContext :=
  filter (λ e, isActive e.2 = true
               ∧ isActive <$> sessions o' !! e.1 = Some false) (sessions o).

(** The stored sessions that are past their TTL at [now]. *)
Definition expired_sessions (now : Z) (o : Orchestrator)
    : gmap string SessionContext :=
  filter (λ e, expired now e.2 = true) (sessions o).

(** The session map and its iteration order agree: the order lists every
    key of the map once.  The constructor and every method keep this. *)
Definition ordered (o : Orchestrator) : Prop :=
  NoDup (sessions_order o)
  ∧ ∀ k, k ∈ sessions_order o ↔ is_Some (sessions o !! k).

(** The error that ends a sweep over [entries]: that of the first expired
    entry whose write is rejected. *)
Fixpoint rejection (now : Z) (mem : Memory)
    (entries : list (string * SessionContext)) : option Client.JsError :=
  match entries with
  | [] => None
  | entry :: rest =>
      if expired now entry.2 then
        match mem (session_expired now entry) with
        | Some e => Some e
        | None => rejection now mem rest
        end
      else rejection now mem rest
  end.

(** The entries a sweep over [entries] visits: all of them up to and
    including the first expired entry whose write is rejected. *)
Fixpoint visited (now : Z) (mem : Memory)
    (entries : list (string * SessionContext))
    : list (string * SessionContext) :=
  match entries with
  | [] => []
  | entry :: rest =>
      if expired now entry.2 then
        match mem (session_expired now entry) with
        | Some _ => [entry]
        | None => entry :: visited now mem rest
        end
      else entry :: visited now mem rest
  end.

(** *** Memory collaborators, stores and HTTP behaviours used in the
    examples *)

(** The retry settings are the defaults of the client's constructor. *)
Definition example_config : Client.VPSConfig := {|
  Client.baseUrl := "http://localhost:8080";
  Client.apiKey := "key";
  Client.timeout := 30000;
  Client.retryAttempts := 3;
  Client.retryDelay := 1000
|}.

(** [!body.trim()] and [JSON.parse] on the few bodies used below. *)
Definition example_trim_is_empty (body : string) : bool :=
  String.eqb body "" || String.eqb body " ".

Definition example_JSON_parse (body : string) : option Client.Json :=
  if String.eqb body "{}" then Some (Client.JObject [])
  else if String.eqb body "null" then Some Client.JNull
  else None.

(** A time-out, then a 503 with an empty body, then a 200. *)
Definition flaky_http (attempt : Z) : Client.Transport :=
  if attempt =? 1 then Client.TimedOut
  else if attempt =? 2 then Client.Responded 503 ""
  else Client.Responded 200 "{}".

(** A connection reset, then a 404 whose body is not JSON. *)
Definition not_found_http (attempt : Z) : Client.Transport :=
  if attempt =? 1 then Client.SocketError "ECONNRESET"
  else Client.Responded 404 "Not Found".

(** Every request times out. *)
Definition dead_http (attempt : Z) : Client.Transport := Client.TimedOut.

(** The collaborator seen through a client whose requests behave as
    [http]. *)
Definition memory_over (http : Z → Client.Transport) : Memory :=
  λ _, match Client.storeMemory example_trim_is_empty example_JSON_parse
               example_config http with
       | Client.Ok _ => None
       | Client.Fail e => Some e
       end.

(** Every write is acknowledged. *)
Definition reliable_memory : Memory := λ _, None.

(** No request gets through: every write is rejected with the client's
    [RETRY_EXHAUSTED] error. *)
Definition dead_memory : Memory := memory_over dead_http.

Definition session_options (parent : option string) (state : JsRecord)
    (ttl : option Z) : SessionOptions :=
  {| opt_parentSessionId := parent; opt_initialState := Some state;
     opt_ttl := ttl; opt_specialization := None |}.

(** A root session created at time 100 and a child of it created at time
    200, with the given state maps and TTLs. *)
Definition family_store (root_state : JsRecord) (root_ttl : option Z)
    (child_state : JsRecord) (child_ttl : option Z) : Orchestrator :=
  let o1 := (createSession 100 "root" "orchestrator"
               (session_options None root_state root_ttl) reliable_memory
               (new_orchestrator 0 "k")).2 in
  (createSession 200 "child" "specialist"
     (session_options (Some "session-100-root") child_state child_ttl)
     reliable_memory o1).2.

(** The same with the default TTL for the root. *)
Definition two_level_store (root_state child_state : JsRecord)
    (child_ttl : option Z) : Orchestrator :=
  family_store root_state None child_state child_ttl.

(** One session created at time 0 with a TTL of one second. *)
Definition short_lived_store : Orchestrator :=
  (createSession 0 "s" "coordinator" (session_options None ∅ (Some 1))
     reliable_memory (new_orchestrator 0 "k")).2.

(** Two sessions created at times 0 and 1 with a TTL of one second. *)
Definition two_short_lived_store : Orchestrator :=
  (createSession 1 "t" "validator" (session_options None ∅ (Some 1))
     reliable_memory short_lived_store).2.

(** The collaborator rejects the record of the first of these sessions and
    acknowledges every other write. *)
Definition first_write_fails : Memory :=
  λ e, match e with
       | SessionExpired sessionId _ _ =>
           if String.eqb sessionId "session-0-s" then dead_memory e else None
       | _ => None
       end.

(** ** Tool dispatch (tools.ts, index.ts) *)

(** The names advertised by [getTools], in order. *)
Definition tool_names : list string :=
  ["memory_search"; "memory_store"; "memory_stats"; "memory_list";
   "memory_health"; "session_create"; "session_get"; "agent_register";
   "conflict_resolve"; "pattern_learn"; "pattern_apply";
   "orchestration_status"].

Inductive Handler : Type :=
| handleMemorySearch
| handleMemoryStore
| handleMemoryStats
| handleMemoryList
| handleMemoryHealth
| handleSessionCreate
| handleSessionGet
| handleAgentRegister
| handleConflictResolve
| handlePatternLearn
| handlePatternApply
| handleOrchestrationStatus.

(** The [switch] of [executeTool]; [None] is its [default] arm, which
    answers with the error result [Unknown tool]. *)
Definition executeTool_handler (name : string) : option Handler :=
  if String.eqb name "memory_search" then Some handleMemorySearch
  else if String.eqb name "memory_store" then Some handleMemoryStore
  else if String.eqb name "memory_stats" then Some handleMemoryStats
  else if String.eqb name "memory_list" then Some handleMemoryList
  else if String.eqb name "memory_health" then Some handleMemoryHealth
  else if String.eqb name "session_create" then Some handleSessionCreate
  else if String.eqb name "session_get" then Some handleSessionGet
  else if String.eqb name "agent_register" then Some handleAgentRegister
  else if String.eqb name "conflict_resolve" then Some handleConflictResolve
  else if String.eqb name "pattern_learn" then Some handlePatternLearn
  else if String.eqb name "pattern_apply" then Some handlePatternApply
  else if String.eqb name "orchestration_status"
  then Some handleOrchestrationStatus
  else None.

(** [availableTools.find(t => t.name === name)] of the server's
    [tools/call] handler: a call is passed to [executeTool] only when the
    name is found. *)
Definition find_tool (name : string) : option string :=
  List.find (String.eqb name) tool_names.

(** [s'] differs from [s] at most in the fields a retrieval or a sweep
    assigns: [lastAccess], [isActive] and [state]. *)
Record session_touch (s s' : SessionContext) : Prop := {
  touch_id : sess_id s' = sess_id s;
  touch_parent : parentSessionId s' = parentSessionId s;
  touch_level : hierarchyLevel s' = hierarchyLevel s;
  touch_role : agentRole s' = agentRole s;
  touch_createdAt : createdAt s' = createdAt s;
  touch_ttl : ttl s' = ttl s;
  touch_children : childSessions s' = childSessions s;
  touch_memory : memoryContext s' = memoryContext s
}.

(** The two stores have the same keys and corresponding sessions differ at
    most in the touched fields. *)
Definition sessions_touch (o o' : Orchestrator) : Prop :=
  ∀ k, option_Forall2 session_touch (sessions o !! k) (sessions o' !! k).

(** ** What a run preserves of a stored session *)

#[local] Set Warnings "-rewrite-rw".

(** [s'] is a later version of the stored object [s]: identity, parent
    link, level, creation time and TTL are fixed, an inactive session stays
    inactive, children are only appended, state bindings are only added
    and a session without parent keeps its state. *)
Record session_le (s s' : SessionContext) : Prop := {
  le_id : sess_id s' = sess_id s;
  le_parent : parentSessionId s' = parentSessionId s;
  le_level : hierarchyLevel s' = hierarchyLevel s;
  le_createdAt : createdAt s' = createdAt s;
  le_ttl : ttl s' = ttl s;
  le_inactive : isActive s = false → isActive s' = false;
  le_children : childSessions s `prefix_of` childSessions s';
  le_state : sess_state s ⊆ sess_state s';
  le_root_state :
    truthy (parentSessionId s) = None → sess_state s' = sess_state s
}.

Definition sessions_le (o o' : Orchestrator) : Prop :=
  ∀ k s, sessions o !! k = Some s →
    ∃ s', sessions o' !! k = Some s' ∧ session_le s s'.

#[global] Instance session_le_po : PreOrder session_le.
Proof.
  split.
  - intros s. by split.
  - intros s1 s2 s3 H12 H23. split.
    + by rewrite (le_id _ _ H23) (le_id _ _ H12).
    + by rewrite (le_parent _ _ H23) (le_parent _ _ H12).
    + by rewrite (le_level _ _ H23) (le_level _ _ H12).
    + by rewrite (le_createdAt _ _ H23) (le_createdAt _ _ H12).
    + by rewrite (le_ttl _ _ H23) (le_ttl _ _ H12).
    + intros Hs. by apply (le_inactive _ _ H23), (le_inactive _ _ H12).
    + etrans; [apply (le_children _ _ H12) | apply (le_children _ _ H23)].
    + etrans; [apply (le_state _ _ H12) | apply (le_state _ _ H23)].
    + intros Hroot. rewrite (le_root_state _ _ H23).
      * by apply (le_root_state _ _ H12).
      * by rewrite (le_parent _ _ H12).
Qed.

#[global] Instance sessions_le_po : PreOrder sessions_le.
Proof.
  split.
  - intros o k s Hk. exists s. split; [done | reflexivity].
  - intros o1 o2 o3 H12 H23 k s Hk.
    destruct (H12 k s Hk) as (s2 & Hk2 & Hle2).
    destruct (H23 k s2 Hk2) as (s3 & Hk3 & Hle3).
    exists s3. split; [done | by etrans].
Qed.

Lemma session_le_set_lastAccess v s : session_le s (set_lastAccess v s).
Proof. by split. Qed.

Lemma session_le_set_isActive_false s : session_le s (set_isActive false s).
Proof. by split. Qed.

Lemma session_le_push_child c s : session_le s (push_child c s).
Proof. split; try done. simpl. by apply prefix_app_r. Qed.

Lemma session_le_inherit_state p s :
  is_Some (truthy (parentSessionId s)) → session_le s (inherit_state p s).
Proof.
  intros [q Hq]. split; try done.
  - simpl. apply map_union_subseteq_l.
  - congruence.
Qed.

(** Updating one stored object to a later version of itself. *)
Lemma sessions_le_alter f k o :
  (∀ s, sessions o !! k = Some s → session_le s (f s)) →
  sessions_le o (alter_session f k o).
Proof.
  intros Hf j s Hj. simpl. destruct (decide (k = j)) as [->|Hne].
  - exists (f s). rewrite lookup_alter_eq Hj. split; [done|]. by apply Hf.
  - exists s. rewrite lookup_alter_ne //.
Qed.

Lemma sessions_le_same o o' : sessions o' = sessions o → sessions_le o o'.
Proof. intros Heq k s Hk. exists s. rewrite Heq. split; [done | reflexivity]. Qed.

(** *** The session store after each method *)

Lemma generated_id_nonempty prefix now rnd :
  prefix ≠ "" → generated_id prefix now rnd ≠ "".
Proof. unfold generated_id. by destruct prefix. Qed.

Lemma truthy_Some p : p ≠ "" → truthy (Some p) = Some p.
Proof. intros Hp. simpl. by destruct (decide (p = "")). Qed.

Lemma truthy_inv o p : truthy o = Some p → o = Some p ∧ p ≠ "".
Proof.
  destruct o as [s|]; simpl; [|done].
  destruct (decide (s = "")); [done|]. by intros [= ->].
Qed.

(** What awaiting a write does to the state: nothing but a possible
    addition to the trail. *)
Lemma storeMemory_state mem e o :
  (storeMemory mem e o).2 = (if mem e is None then recorded e o else o)
  ∧ (storeMemory mem e o).1 = mem e.
Proof. unfold storeMemory. by destruct (mem e). Qed.

Lemma createSession_returns now rnd agentRole options mem o :
  let session := new_session now rnd agentRole options o in
  (createSession now rnd agentRole options mem o).1
    = settle (mem (session_created session options)) session.
Proof. cbv zeta. unfold createSession, storeMemory. by destruct (mem _). Qed.

Lemma createSession_sessions now rnd agentRole options mem o :
  sessions (createSession now rnd agentRole options mem o).2 =
    <[generated_id "session" now rnd :=
        new_session now rnd agentRole options o]>
      (from_option
         (λ p, alter (push_child (generated_id "session" now rnd)) p (sessions o))
         (sessions o) (truthy (opt_parentSessionId options))).
Proof.
  unfold createSession, storeMemory. destruct (mem _); simpl.
  all: destruct (truthy (opt_parentSessionId options)) as [p|]; simpl; [|done].
  all: destruct (sessions o !! p) eqn:Hp; simpl; [done|].
  all: by rewrite alter_id'.
Qed.

Lemma createSession_sessions_le now rnd agentRole options mem o :
  sessions o !! generated_id "session" now rnd = None →
  sessions_le o (createSession now rnd agentRole options mem o).2.
Proof.
  intros Hfresh k s Hk. rewrite createSession_sessions.
  assert (generated_id "session" now rnd ≠ k) as Hne by congruence.
  rewrite lookup_insert_ne //.
  destruct (truthy (opt_parentSessionId options)) as [p|]; simpl.
  - destruct (decide (p = k)) as [->|Hpk].
    + rewrite lookup_alter_eq Hk. eexists. split; [done|].
      apply session_le_push_child.
    + rewrite lookup_alter_ne //. by exists s.
  - by exists s.
Qed.

Lemma registerAgent_sessions now agentId role specialization mem o :
  sessions (registerAgent now agentId role specialization mem o).2 = sessions o.
Proof. unfold registerAgent, storeMemory. by destruct (mem _). Qed.

Lemma escalateToHuman_sessions mem c o :
  sessions (escalateToHuman mem c o).2 = sessions o.
Proof.
  unfold escalateToHuman, storeMemory.
  destruct (negb _); [done|]. by destruct (mem _).
Qed.

Lemma resolveConflict_sessions h now rnd ty items sev meta mem o :
  sessions (resolveConflict h now rnd ty items sev meta mem o).2 = sessions o.
Proof.
  unfold resolveConflict.
  destruct (resolved (attemptTier1Resolution h _ _)); [done|].
  destruct (resolved (attemptTier2Resolution h _ _)); [done|].
  match goal with |- context [escalateToHuman mem ?c ?o3] =>
    pose proof (escalateToHuman_sessions mem c o3) as He;
    destruct (escalateToHuman mem c o3) end.
  done.
Qed.

Lemma learnPattern_sessions now rnd ty ctx act ctxs mem o :
  sessions (learnPattern now rnd ty ctx act ctxs mem o).2 = sessions o.
Proof. unfold learnPattern, storeMemory. by destruct (mem _). Qed.

Lemma applyPattern_sessions h now pid ctx o :
  sessions (applyPattern h now pid ctx o).2 = sessions o.
Proof. unfold applyPattern. by repeat case_match. Qed.

Lemma getSessionContext_sessions_le fuel now : ∀ sid incl o r o',
  getSessionContext fuel now sid incl o = Some (r, o') → sessions_le o o'.
Proof.
  induction fuel as [|fuel IH]; intros sid incl o r o'; simpl; [done|].
  destruct (sessions o !! sid) as [session|] eqn:Hs.
  2:{ intros [= _ <-]. reflexivity. }
  assert (sessions_le o (alter_session (set_lastAccess now) sid o)) as H1.
  { apply sessions_le_alter. intros s _. apply session_le_set_lastAccess. }
  destruct (expired now session).
  { intros [= _ <-]. etrans; [exact H1|].
    apply sessions_le_alter. intros s _. apply session_le_set_isActive_false. }
  destruct (if incl then truthy (parentSessionId session) else None)
    as [p|] eqn:Hp.
  2:{ by intros [= _ <-]. }
  assert (truthy (parentSessionId session) = Some p) as Htp
    by by destruct incl.
  destruct (getSessionContext fuel now p true _) as [[[pc|] o2]|] eqn:Hrec;
    [| |done].
  - intros [= _ <-].
    assert (sessions_le o o2) as H2 by (etrans; [exact H1|by eapply IH]).
    etrans; [exact H2|]. apply sessions_le_alter. intros s2 Hs2.
    apply session_le_inherit_state.
    destruct (H2 sid session Hs) as (s2' & Hs2' & Hle).
    assert (s2' = s2) as -> by congruence.
    rewrite (le_parent _ _ Hle) Htp. by eexists.
  - intros [= _ <-]. etrans; [exact H1|]. by eapply IH.
Qed.

(** *** The sweep *)

(** A property of the orchestrator that the assignments of an iteration and
    an acknowledged write keep holds when the sweep ends, however it
    ends. *)
Lemma cleanup_loop_inv (P : Orchestrator → Prop) now mem l : ∀ n o,
  (∀ o1 k, P o1 →
     P (with_coordination (with_sessionHierarchy (λ m, m ∖ {[k]}))
          (alter_session (set_isActive false) k o1))) →
  (∀ o1 e, P o1 → P (recorded e o1)) →
  P o → P (cleanup_loop now mem l n o).2.
Proof.
  induction l as [|[k s] l IH]; intros n o Hflip Hrec HP; simpl; [done|].
  destruct (expired now s); [|by apply IH].
  unfold storeMemory. destruct (mem _); [by apply Hflip|].
  apply IH; [done..|]. by apply Hrec, Hflip.
Qed.

Lemma expired_set_isActive now b s :
  expired now (set_isActive b s) = expired now s.
Proof. done. Qed.

Lemma visited_sublist now mem l : visited now mem l `sublist_of` l.
Proof.
  induction l as [|e l IH]; simpl; [done|].
  destruct (expired now e.2); [destruct (mem _)|]; try by constructor.
  constructor. apply sublist_nil_l.
Qed.

Lemma visited_all now mem l :
  rejection now mem l = None → visited now mem l = l.
Proof.
  induction l as [|e l IH]; simpl; [done|].
  destruct (expired now e.2); [destruct (mem _); [done|]|];
    intros Hr; f_equal; by apply IH.
Qed.

(** What the sweep does to the session stored under [k]: it is flipped if
    it is expired and the sweep got to it. *)
Lemma cleanup_loop_lookup now mem l : ∀ n o k,
  NoDup l.*1 →
  (∀ j s, (j, s) ∈ l → sessions o !! j = Some s) →
  sessions (cleanup_loop now mem l n o).2 !! k =
    (λ s, if decide (k ∈ (visited now mem l).*1) then expire now s else s)
      <$> sessions o !! k.
Proof.
  induction l as [|[j s] l IH]; intros n o k Hnd Hl.
  { simpl. by destruct (sessions o !! k). }
  rewrite fmap_cons in Hnd. apply NoDup_cons in Hnd as [Hj Hnd].
  simpl in Hj. assert (sessions o !! j = Some s) as Hjs by (apply Hl; by left).
  assert (∀ f, (∀ j' s', (j', s') ∈ l →
            alter f j (sessions o) !! j' = Some s')) as Hl1.
  { intros f j' s' Hin. assert (j ≠ j') as Hne.
    { intros ->. apply Hj. apply list_elem_of_fmap. by exists (j', s'). }
    rewrite lookup_alter_ne //. apply Hl. by right. }
  assert (∀ l', l' `sublist_of` l → j ∉ l'.*1) as Hsub.
  { intros l' Hl' Hin. apply Hj. eapply elem_of_sublist; [exact Hin|].
    by apply fmap_sublist. }
  pose proof (Hsub _ (visited_sublist now mem l)) as Hjv.
  cbn [cleanup_loop visited snd]. destruct (expired now s) eqn:He.
  - unfold storeMemory. destruct (mem _) as [e|] eqn:Hm; cbn [snd].
    + cbn [fmap list_fmap fst]. simpl.
      destruct (decide (j = k)) as [->|Hne].
      * rewrite lookup_alter_eq Hjs /=. unfold expire. rewrite He.
        by rewrite decide_True; [|left].
      * rewrite lookup_alter_ne //. destruct (sessions o !! k); [|done].
        simpl. rewrite decide_False //.
        intros [?|Hin%elem_of_nil]%elem_of_cons; done.
    + rewrite IH; [|done|apply (Hl1 (set_isActive false))].
      cbn [fmap list_fmap fst]. simpl.
      destruct (decide (j = k)) as [->|Hne].
      * rewrite lookup_alter_eq Hjs /=. unfold expire. rewrite He.
        rewrite decide_False // decide_True //. by left.
      * rewrite lookup_alter_ne //. destruct (sessions o !! k); [|done].
        simpl. f_equal.
        destruct (decide (k ∈ (visited now mem l).*1)) as [Hin|Hin].
        -- rewrite decide_True //. by right.
        -- rewrite decide_False //.
           intros [?|?]%elem_of_cons; done.
  - rewrite IH; [|done|intros j' s' Hin; apply Hl; by right].
    cbn [fmap list_fmap fst].
    destruct (sessions o !! k) as [sk|] eqn:Hk; [|done]. simpl. f_equal.
    destruct (decide (j = k)) as [->|Hne].
    + rewrite decide_False // decide_True; [|by left].
      assert (sk = s) as -> by congruence. unfold expire. by rewrite He.
    + destruct (decide (k ∈ (visited now mem l).*1)) as [Hin|Hin].
      * rewrite decide_True //. by right.
      * rewrite decide_False //. intros [?|?]%elem_of_cons; done.
Qed.

(** How the sweep settles. *)
Lemma cleanup_loop_outcome now mem l : ∀ n o,
  (cleanup_loop now mem l n o).1 =
    match rejection now mem l with
    | None =>
        Client.Ok (n + length (filter (λ e, expired now e.2 = true) l))%nat
    | Some e => Client.Fail e
    end.
Proof.
  induction l as [|[j s] l IH]; intros n o; simpl.
  { f_equal. lia. }
  rewrite filter_cons /=. destruct (expired now s) eqn:He; simpl.
  - unfold storeMemory. destruct (mem _); [done|].
    rewrite IH. destruct (rejection now mem l); [done|].
    f_equal. lia.
  - rewrite IH. by destruct (rejection now mem l).
Qed.

Lemma map_size_filter_to_list {A} (P : string * A → Prop)
    `{!∀ x, Decision (P x)} (m : gmap string A) :
  size (filter P m) = length (filter P (map_to_list m)).
Proof.
  rewrite map_filter_alt map_size_list_to_map; [done|].
  eapply sublist_NoDup; [apply (NoDup_fst_map_to_list m)|].
  apply fmap_sublist, sublist_filter.
Qed.

(** *** The session map and its iteration order *)

Lemma elem_of_sessions_entries o k s :
  (k, s) ∈ sessions_entries o →
  k ∈ sessions_order o ∧ sessions o !! k = Some s.
Proof.
  unfold sessions_entries. rewrite list_elem_of_omap.
  intros (k' & Hin & Hf). destruct (sessions o !! k') as [s'|] eqn:Hk; [|done].
  simpl in Hf. by injection Hf as -> ->.
Qed.

Lemma sessions_entries_keys o :
  (∀ k, k ∈ sessions_order o → is_Some (sessions o !! k)) →
  (sessions_entries o).*1 = sessions_order o.
Proof.
  unfold sessions_entries. induction (sessions_order o) as [|k l IH];
    intros Hall; [done|]. simpl.
  destruct (Hall k) as [s Hs]; [by left|]. rewrite Hs /=. f_equal.
  apply IH. intros j Hj. apply Hall. by right.
Qed.

Lemma sessions_entries_ordered o :
  ordered o →
  NoDup (sessions_entries o).*1
  ∧ (∀ k s, (k, s) ∈ sessions_entries o ↔ sessions o !! k = Some s)
  ∧ sessions_entries o ≡ₚ map_to_list (sessions o).
Proof.
  intros [Hnd Hkeys].
  assert ((sessions_entries o).*1 = sessions_order o) as Hfst.
  { apply sessions_entries_keys. intros k. apply Hkeys. }
  assert (∀ k s, (k, s) ∈ sessions_entries o ↔ sessions o !! k = Some s)
    as Hin.
  { intros k s. split; [by intros [_ ?]%elem_of_sessions_entries|].
    intros Hs. unfold sessions_entries. apply list_elem_of_omap.
    exists k. rewrite Hs. split; [|done]. apply Hkeys. by eexists. }
  split; [by rewrite Hfst|]. split; [done|].
  apply NoDup_Permutation.
  - apply (NoDup_fmap_1 fst). by rewrite Hfst.
  - apply NoDup_map_to_list.
  - intros [k s]. by rewrite Hin elem_of_map_to_list.
Qed.

Lemma ordered_same o o' :
  sessions_order o' = sessions_order o →
  dom (sessions o') = dom (sessions o) →
  ordered o → ordered o'.
Proof.
  intros Ho Hd [Hnd Hkeys]. split; [by rewrite Ho|].
  intros k. by rewrite Ho Hkeys -!elem_of_dom Hd.
Qed.

Lemma ordered_set_session k s o : ordered o → ordered (set_session k s o).
Proof.
  intros [Hnd Hkeys]. unfold ordered. simpl.
  destruct (decide (is_Some (sessions o !! k))) as [Hk|Hk].
  - split; [done|]. intros j. rewrite Hkeys.
    destruct (decide (k = j)) as [->|Hne].
    + rewrite lookup_insert_eq. split; [by eexists|done].
    + by rewrite lookup_insert_ne.
  - split.
    + apply NoDup_app. split; [done|]. split; [|apply NoDup_singleton].
      intros j Hj ->%list_elem_of_singleton. by apply Hk, Hkeys.
    + intros j. rewrite elem_of_app list_elem_of_singleton Hkeys.
      destruct (decide (k = j)) as [->|Hne].
      * rewrite lookup_insert_eq. split; [by eexists|by right].
      * rewrite lookup_insert_ne //. split; [|by left].
        intros [?|?]; [done|congruence].
Qed.

Lemma session_le_expire now s : session_le s (expire now s).
Proof.
  unfold expire. destruct (expired now s); [|reflexivity].
  apply session_le_set_isActive_false.
Qed.


Lemma cleanupExpiredSessions_sessions_le now mem o :
  sessions_le o (cleanupExpiredSessions now mem o).2.
Proof.
  unfold cleanupExpiredSessions.
  apply (cleanup_loop_inv (sessions_le o)); [| |reflexivity].
  - intros o1 k H1. etrans; [exact H1|].
    apply (sessions_le_alter (set_isActive false) k o1).
    intros s _. apply session_le_set_isActive_false.
  - intros o1 e H1. done.
Qed.

(** Every admissible call leaves later versions of all stored sessions,
    whether its promise is fulfilled or rejected. *)
Lemma step_sessions_le h o o' : step h o o' → sessions_le o o'.
Proof.
  intros [now c Hfresh Hperf]. destruct c; simpl in *.
  - injection Hperf as <-. by apply createSession_sessions_le.
  - injection Hperf as <-. apply sessions_le_same, registerAgent_sessions.
  - injection Hperf as <-. apply sessions_le_same, resolveConflict_sessions.
  - injection Hperf as <-. apply sessions_le_same, learnPattern_sessions.
  - injection Hperf as <-. apply sessions_le_same, applyPattern_sessions.
  - destruct (getSessionContext _ _ _ _ _) as [[r o1]|] eqn:E; [|done].
    injection Hperf as <-. by eapply getSessionContext_sessions_le.
  - injection Hperf as <-. apply cleanupExpiredSessions_sessions_le.
Qed.

Lemma steps_sessions_le h o o' : rtc (step h) o o' → sessions_le o o'.
Proof.
  induction 1 as [|o1 o2 o3 H12 _ IH]; [reflexivity|].
  etrans; [|exact IH]. by eapply step_sessions_le.
Qed.

(** *** Invariants of the reachable states *)

Lemma escalateToHuman_configuration mem c o :
  configuration (escalateToHuman mem c o).2 = configuration o.
Proof.
  unfold escalateToHuman, storeMemory.
  destruct (negb _); [done|]. by destruct (mem _).
Qed.

Lemma getSessionContext_coordination fuel now : ∀ sid incl o r o',
  getSessionContext fuel now sid incl o = Some (r, o') →
  coordination o' = coordination o.
Proof.
  induction fuel as [|fuel IH]; intros sid incl o r o'; simpl; [done|].
  destruct (sessions o !! sid) as [session|]; [|by intros [= _ <-]].
  destruct (expired now session); [by intros [= _ <-]|].
  destruct (if incl then truthy (parentSessionId session) else None) as [p|];
    [|by intros [= _ <-]].
  destruct (getSessionContext fuel now p true _) as [[[pc|] o2]|] eqn:Hrec;
    [| |done]; intros [= _ <-]; simpl; by rewrite (IH _ _ _ _ _ Hrec).
Qed.

Lemma getSessionContext_lookup_None fuel now k : ∀ sid incl o r o',
  getSessionContext fuel now sid incl o = Some (r, o') →
  sessions o !! k = None → sessions o' !! k = None.
Proof.
  induction fuel as [|fuel IH]; intros sid incl o r o'; simpl; [done|].
  destruct (sessions o !! sid) as [session|]; [|by intros [= _ <-]].
  destruct (expired now session).
  { intros [= _ <-] Hk. simpl. by rewrite !lookup_alter_None. }
  destruct (if incl then truthy (parentSessionId session) else None) as [p|].
  2:{ intros [= _ <-] Hk. simpl. by rewrite lookup_alter_None. }
  destruct (getSessionContext fuel now p true _) as [[[pc|] o2]|] eqn:Hrec;
    [| |done]; intros [= _ <-] Hk; simpl; rewrite ?lookup_alter_None;
    apply (IH _ _ _ _ _ Hrec); simpl; by rewrite lookup_alter_None.
Qed.

(** Everything of the orchestrator that [createSession] leaves alone. *)
Lemma createSession_rest now rnd agentRole options mem o :
  let o' := (createSession now rnd agentRole options mem o).2 in
  agents o' = agents o ∧ conflicts o' = conflicts o ∧ patterns o' = patterns o
  ∧ conflictResolution (coordination o') = conflictResolution (coordination o)
  ∧ activeAgents (coordination o') = activeAgents (coordination o)
  ∧ globalPatterns_patterns (coordination o')
      = globalPatterns_patterns (coordination o)
  ∧ performanceMetrics (coordination o') = performanceMetrics (coordination o)
  ∧ sessionHierarchy (coordination o')
      = {[generated_id "session" now rnd]} ∪ sessionHierarchy (coordination o)
  ∧ client o' =
      (if mem (session_created (new_session now rnd agentRole options o)
                 options) is None
       then client o
              ++ [session_created (new_session now rnd agentRole options o)
                    options]
       else client o).
Proof.
  cbv zeta. unfold createSession, storeMemory.
  destruct (mem _); simpl; by repeat case_match.
Qed.

Lemma registerAgent_rest now agentId role specialization mem o :
  let o' := (registerAgent now agentId role specialization mem o).2 in
  agents o' = <[agentId := new_agent now agentId role specialization]> (agents o)
  ∧ conflicts o' = conflicts o ∧ patterns o' = patterns o
  ∧ sessions_order o' = sessions_order o
  ∧ conflictResolution (coordination o') = conflictResolution (coordination o)
  ∧ activeAgents (coordination o') = {[agentId]} ∪ activeAgents (coordination o)
  ∧ globalPatterns_patterns (coordination o')
      = globalPatterns_patterns (coordination o)
  ∧ performanceMetrics (coordination o') = performanceMetrics (coordination o)
  ∧ sessionHierarchy (coordination o') = sessionHierarchy (coordination o)
  ∧ client o' =
      (if mem (AgentRegistered agentId role specialization) is None
       then client o ++ [AgentRegistered agentId role specialization]
       else client o).
Proof.
  cbv zeta. unfold registerAgent, storeMemory. by destruct (mem _).
Qed.

Lemma learnPattern_rest now rnd ty ctx act ctxs mem o :
  let o' := (learnPattern now rnd ty ctx act ctxs mem o).2 in
  let pid := generated_id ("pattern-" +:+ ty) now rnd in
  let e := PatternLearned pid ty ctx act ctxs in
  agents o' = agents o ∧ conflicts o' = conflicts o
  ∧ patterns o' = <[pid := new_pattern now rnd ty ctx act ctxs]> (patterns o)
  ∧ sessions_order o' = sessions_order o
  ∧ conflictResolution (coordination o') = conflictResolution (coordination o)
  ∧ activeAgents (coordination o') = activeAgents (coordination o)
  ∧ globalPatterns_patterns (coordination o')
      = {[pid]} ∪ globalPatterns_patterns (coordination o)
  ∧ sessionHierarchy (coordination o') = sessionHierarchy (coordination o)
  ∧ patternsApplied (performanceMetrics (coordination o'))
      = patternsApplied (performanceMetrics (coordination o))
  ∧ patternsLearned (performanceMetrics (coordination o'))
      = ((if mem e is None then 1 else 0)
         + patternsLearned (performanceMetrics (coordination o)))%nat
  ∧ client o' = (if mem e is None then client o ++ [e] else client o).
Proof.
  cbv zeta. unfold learnPattern, storeMemory. by destruct (mem _).
Qed.

(** What the sweep leaves alone, however it ends. *)
Lemma cleanupExpiredSessions_rest now mem o :
  let o' := (cleanupExpiredSessions now mem o).2 in
  client o `prefix_of` client o'
  ∧ sessionHierarchy (coordination o') ⊆ sessionHierarchy (coordination o)
  ∧ activeAgents (coordination o') = activeAgents (coordination o)
  ∧ conflictResolution (coordination o') = conflictResolution (coordination o)
  ∧ globalPatterns_patterns (coordination o')
      = globalPatterns_patterns (coordination o)
  ∧ performanceMetrics (coordination o') = performanceMetrics (coordination o)
  ∧ agents o' = agents o ∧ conflicts o' = conflicts o
  ∧ patterns o' = patterns o
  ∧ sessions_order o' = sessions_order o.
Proof.
  cbv zeta. unfold cleanupExpiredSessions.
  apply (cleanup_loop_inv (λ o',
    client o `prefix_of` client o'
    ∧ sessionHierarchy (coordination o') ⊆ sessionHierarchy (coordination o)
    ∧ activeAgents (coordination o') = activeAgents (coordination o)
    ∧ conflictResolution (coordination o') = conflictResolution (coordination o)
    ∧ globalPatterns_patterns (coordination o')
        = globalPatterns_patterns (coordination o)
    ∧ performanceMetrics (coordination o') = performanceMetrics (coordination o)
    ∧ agents o' = agents o ∧ conflicts o' = conflicts o
    ∧ patterns o' = patterns o
    ∧ sessions_order o' = sessions_order o)).
  - intros o1 k (? & Hh & ?). simpl. split; [done|]. split; [|done].
    etrans; [|exact Hh]. by apply subseteq_difference_l.
  - intros o1 e (Hc & ?). simpl. split; [|done].
    etrans; [exact Hc|]. by apply prefix_app_r.
  - done.
Qed.

(** Case analysis on a call, with the names of the method's parameters. *)
Ltac destruct_call c :=
  destruct c as [rnd agentRole options mem|agentId role specialization mem
                |rnd conflictType involvedItems severity metadata mem
                |rnd type context action applicableContexts mem
                |patternId currentContext|fuel sessionId includeHierarchy|mem].

Lemma perform_configuration h now c o o' :
  perform h now c o = Some o' → configuration o' = configuration o.
Proof.
  destruct_call c; simpl.
  - intros [= <-]. unfold configuration.
    by destruct (createSession_rest now rnd agentRole options mem o)
      as (_ & _ & _ & -> & _).
  - intros [= <-]. unfold configuration.
    by destruct (registerAgent_rest now agentId role specialization mem o)
      as (_ & _ & _ & _ & -> & _).
  - intros [= <-]. unfold resolveConflict.
    destruct (resolved (attemptTier1Resolution h _ _)); [done|].
    destruct (resolved (attemptTier2Resolution h _ _)); [done|].
    match goal with |- context [escalateToHuman mem ?c ?o3] =>
      pose proof (escalateToHuman_configuration mem c o3) as He;
      destruct (escalateToHuman mem c o3) end.
    done.
  - intros [= <-]. unfold configuration.
    by destruct (learnPattern_rest now rnd type context action
                   applicableContexts mem o) as (_ & _ & _ & _ & -> & _).
  - intros [= <-]. unfold applyPattern. by repeat case_match.
  - destruct (getSessionContext _ _ _ _ _) as [[r o1]|] eqn:E; [|done].
    intros [= <-]. unfold configuration.
    by rewrite (getSessionContext_coordination _ _ _ _ _ _ _ E).
  - intros [= <-]. unfold configuration.
    by destruct (cleanupExpiredSessions_rest now mem o)
      as (_ & _ & _ & -> & _).
Qed.

Lemma perform_no_empty_key h now c o o' :
  perform h now c o = Some o' →
  sessions o !! "" = None → sessions o' !! "" = None.
Proof.
  destruct_call c; simpl.
  - intros [= <-] Hk. rewrite createSession_sessions.
    rewrite lookup_insert_ne; [|by apply generated_id_nonempty].
    destruct (truthy _); simpl; [|done]. by rewrite lookup_alter_None.
  - intros [= <-]. by rewrite registerAgent_sessions.
  - intros [= <-]. by rewrite resolveConflict_sessions.
  - intros [= <-]. by rewrite learnPattern_sessions.
  - intros [= <-]. by rewrite applyPattern_sessions.
  - destruct (getSessionContext _ _ _ _ _) as [[r o1]|] eqn:E; [|done].
    intros [= <-]. by eapply getSessionContext_lookup_None.
  - intros [= <-] Hk. unfold cleanupExpiredSessions.
    apply (cleanup_loop_inv (λ o1, sessions o1 !! "" = None)); [| |done].
    + intros o1 k H1. simpl. by rewrite lookup_alter_None.
    + done.
Qed.

Lemma reachable_invariant h o :
  reachable h o →
  (∃ now rnd, configuration o = configuration (new_orchestrator now rnd))
  ∧ sessions o !! "" = None.
Proof.
  intros (now & rnd & Hrun). revert o Hrun. apply rtc_ind_r.
  - split; [by exists now, rnd|done].
  - intros o1 o2 _ [now' c _ Hperf] [(n0 & r0 & Hc) Hk].
    split.
    + exists n0, r0. rewrite -Hc. by eapply perform_configuration.
    + by eapply perform_no_empty_key.
Qed.

Lemma reachable_tier3_enabled h o :
  reachable h o →
  tier3_enabled (tier3 (conflictResolution (coordination o))) = true.
Proof.
  intros [(now & rnd & Hc) _]%reachable_invariant.
  unfold configuration in Hc. by injection Hc as _ _ ->.
Qed.

Lemma reachable_key_nonempty h o k s :
  reachable h o → sessions o !! k = Some s → k ≠ "".
Proof. intros [_ Hk]%reachable_invariant Hs ->. congruence. Qed.

Lemma getSessionContext_order fuel now : ∀ sid incl o r o',
  getSessionContext fuel now sid incl o = Some (r, o') →
  sessions_order o' = sessions_order o.
Proof.
  induction fuel as [|fuel IH]; intros sid incl o r o'; simpl; [done|].
  destruct (sessions o !! sid) as [session|]; [|by intros [= _ <-]].
  destruct (expired now session); [by intros [= _ <-]|].
  destruct (if incl then truthy (parentSessionId session) else None) as [p|];
    [|by intros [= _ <-]].
  destruct (getSessionContext fuel now p true _) as [[[pc|] o2]|] eqn:Hrec;
    [| |done]; intros [= _ <-]; simpl; by rewrite (IH _ _ _ _ _ Hrec).
Qed.

Lemma createSession_ordered now rnd agentRole options mem o :
  ordered o → ordered (createSession now rnd agentRole options mem o).2.
Proof.
  intros Ho. unfold createSession.
  set (session := new_session now rnd agentRole options o).
  set (o1 := match truthy (opt_parentSessionId options) with
             | Some p => _ | None => o end).
  assert (ordered o1) as Ho1.
  { subst o1. destruct (truthy _) as [p|]; [|done].
    destruct (sessions o !! p); [|done].
    eapply ordered_same; [| |exact Ho]; [done|]. simpl. apply dom_alter_L. }
  pose proof (ordered_set_session (generated_id "session" now rnd) session o1
                Ho1) as Ho2.
  unfold storeMemory. destruct (mem _); simpl;
    (eapply ordered_same; [| |exact Ho2]; done).
Qed.

(** The session map and its iteration order agree in every state of an
    orchestrator built by the constructor. *)
Lemma reachable_ordered h o : reachable h o → ordered o.
Proof.
  intros (now0 & rnd0 & Hrun). revert o Hrun. apply rtc_ind_r.
  { split; [constructor|]. intros k. simpl. rewrite lookup_empty.
    split; [by intros ?%elem_of_nil|by intros [? ?]]. }
  intros o1 o2 _ [now' c _ Hperf] Ho1. destruct_call c; simpl in Hperf.
  - injection Hperf as <-. by apply createSession_ordered.
  - injection Hperf as <-. eapply ordered_same; [| |exact Ho1].
    + by destruct (registerAgent_rest now' agentId role specialization mem o1)
        as (_ & _ & _ & -> & _).
    + by rewrite registerAgent_sessions.
  - injection Hperf as <-. eapply ordered_same; [| |exact Ho1].
    + unfold resolveConflict.
      destruct (resolved (attemptTier1Resolution h _ _)); [done|].
      destruct (resolved (attemptTier2Resolution h _ _)); [done|].
      unfold escalateToHuman, storeMemory.
      destruct (negb _); [done|]. by destruct (mem _).
    + by rewrite resolveConflict_sessions.
  - injection Hperf as <-. eapply ordered_same; [| |exact Ho1].
    + by destruct (learnPattern_rest now' rnd type context action
                     applicableContexts mem o1) as (_ & _ & _ & -> & _).
    + by rewrite learnPattern_sessions.
  - injection Hperf as <-. eapply ordered_same; [| |exact Ho1].
    + unfold applyPattern. by repeat case_match.
    + by rewrite applyPattern_sessions.
  - destruct (getSessionContext _ _ _ _ _) as [[r o']|] eqn:E; [|done].
    injection Hperf as <-. eapply ordered_same; [| |exact Ho1].
    + by eapply getSessionContext_order.
    + apply set_eq. intros k. rewrite !elem_of_dom.
      split.
      * intros [s' Hs']. destruct (sessions o1 !! k) as [s|] eqn:Hs; [by eexists|].
        by rewrite (getSessionContext_lookup_None _ _ _ _ _ _ _ _ E Hs) in Hs'.
      * intros [s Hs].
        destruct (getSessionContext_sessions_le _ _ _ _ _ _ _ E k s Hs)
          as (s' & Hs' & _). by eexists.
  - injection Hperf as <-. eapply ordered_same; [| |exact Ho1].
    + by destruct (cleanupExpiredSessions_rest now' mem o1)
        as (_ & _ & _ & _ & _ & _ & _ & _ & _ & ->).
    + apply set_eq. intros k. rewrite !elem_of_dom. split.
      * intros [s' Hs']. destruct (sessions o1 !! k) as [s|] eqn:Hs; [by eexists|].
        exfalso. revert Hs'. unfold cleanupExpiredSessions.
        enough (sessions (cleanup_loop now' mem (sessions_entries o1) 0 o1).2
                  !! k = None) as -> by done.
        apply (cleanup_loop_inv (λ o', sessions o' !! k = None)); [| |done].
        -- intros o' j H'. simpl. by rewrite lookup_alter_None.
        -- done.
      * intros [s Hs].
        destruct (cleanupExpiredSessions_sessions_le now' mem o1 k s Hs)
          as (s' & Hs' & _). by eexists.
Qed.

Lemma settle_cases {A} (thrown : option Client.JsError) (a : A) :
  (thrown = None → settle thrown a = Client.Ok a)
  ∧ (∀ e, thrown = Some e → settle thrown a = Client.Fail e).
Proof. split; [by intros ->|by intros e ->]. Qed.

(** * Session store: creation *)

(** C1 (as stated, refuted).  A [createSession] call whose parent id is not
    the key of any stored session does not fail and does create a session:
    on a new orchestrator, with parent id ["session-0-none"] and a memory
    client that acknowledges the audit record, the call returns an active
    session of level 1 that is stored afterwards, so the session map is not
    left unchanged. *)
Lemma createSession_missing_parent_creates :
  let o := new_orchestrator 0 "k" in
  let options := {| opt_parentSessionId := Some "session-0-none";
                    opt_initialState := None; opt_ttl := None;
                    opt_specialization := None |} in
  let r := createSession 1000 "abc" "specialist" options reliable_memory o in
  sessions o !! "session-0-none" = None
  ∧ (∃ s, r.1 = Client.Ok s
       ∧ sessions r.2 !! "session-1000-abc" = Some s
       ∧ isActive s = true ∧ hierarchyLevel s = 1%nat)
  ∧ sessions r.2 ≠ sessions o.
Proof.
  split; [done|]. split; [|by vm_compute].
  eexists. split; [reflexivity|]. split; [by vm_compute|done].
Qed.

(** C1 (amended).  A [createSession] call whose parent id is set but does
    not reference a stored active session is never refused for that reason.
    It builds a new active session carrying the given parent id and stores
    it under the generated id before it writes the audit record; it returns
    that session when the memory client acknowledges the record and rejects
    with the client's error when it does not, the session being stored in
    both cases.  When the parent id is not a key of the store the level is 1
    (0 for the empty string, which is falsy) and no other entry of the store
    changes; when it is the key of a stored inactive session, that session
    is treated like an active parent: the level is the parent's plus one
    and the new id is appended to the parent's children. *)
Theorem createSession_invalid_parent now rnd agentRole options mem o p :
  opt_parentSessionId options = Some p →
  (sessions o !! p = None
   ∨ ∃ P, sessions o !! p = Some P ∧ isActive P = false) →
  let sid := generated_id "session" now rnd in
  let s := new_session now rnd agentRole options o in
  let r := createSession now rnd agentRole options mem o in
  sess_id s = sid ∧ isActive s = true ∧ parentSessionId s = Some p
  ∧ sessions r.2 !! sid = Some s
  ∧ (mem (session_created s options) = None → r.1 = Client.Ok s)
  ∧ (∀ e, mem (session_created s options) = Some e → r.1 = Client.Fail e)
  ∧ (sessions o !! p = None →
       hierarchyLevel s = (if decide (p = "") then 0 else 1)%nat
       ∧ ∀ k, k ≠ sid → sessions r.2 !! k = sessions o !! k)
  ∧ (∀ P, sessions o !! p = Some P → p ≠ "" →
       hierarchyLevel s = (hierarchyLevel P + 1)%nat
       ∧ (p ≠ sid → sessions r.2 !! p = Some (push_child sid P))
       ∧ ∀ k, k ≠ sid → k ≠ p → sessions r.2 !! k = sessions o !! k).
Proof.
  intros Hp _ sid s r. subst r s.
  rewrite createSession_sessions createSession_returns. fold sid.
  split; [done|]. split; [done|]. split; [done|].
  split; [by rewrite lookup_insert_eq|].
  split; [apply settle_cases|]. split; [apply settle_cases|]. split.
  - intros Hnone. unfold new_session. simpl. rewrite Hp. simpl.
    destruct (decide (p = "")) as [->|Hne]; simpl.
    + split; [done|]. intros k Hk. by rewrite lookup_insert_ne.
    + rewrite Hnone /=. split; [done|]. intros k Hk.
      rewrite lookup_insert_ne //. destruct (decide (p = k)) as [->|Hpk].
      * by rewrite lookup_alter_eq Hnone.
      * by rewrite lookup_alter_ne.
  - intros P HP Hne. unfold new_session. simpl. rewrite Hp. simpl.
    destruct (decide (p = "")) as [->|_]; [done|]. simpl.
    rewrite HP /=. split; [done|]. split.
    + intros Hps. rewrite lookup_insert_ne //.
      by rewrite lookup_alter_eq HP.
    + intros k Hk Hkp. rewrite lookup_insert_ne //.
      by rewrite lookup_alter_ne.
Qed.

Lemma createSession_invalid_parent_witness :
  (let o := new_orchestrator 0 "k" in
   let options := {| opt_parentSessionId := Some "session-0-none";
                     opt_initialState := None; opt_ttl := None;
                     opt_specialization := None |} in
   let s := new_session 1000 "abc" "specialist" options o in
   let r := createSession 1000 "abc" "specialist" options reliable_memory o in
   r.1 = Client.Ok s ∧ sessions r.2 !! "session-1000-abc" = Some s
   ∧ isActive s = true ∧ hierarchyLevel s = 1%nat)
  ∧ (let o := (cleanupExpiredSessions 5000 reliable_memory
                 short_lived_store).2 in
     let options := {| opt_parentSessionId := Some "session-0-s";
                       opt_initialState := None; opt_ttl := None;
                       opt_specialization := None |} in
     let s := new_session 6000 "abc" "specialist" options o in
     let r := createSession 6000 "abc" "specialist" options dead_memory o in
     (∃ e, r.1 = Client.Fail e)
     ∧ sessions r.2 !! "session-6000-abc" = Some s
     ∧ hierarchyLevel s = 1%nat
     ∧ childSessions <$> sessions r.2 !! "session-0-s"
         = Some ["session-6000-abc"]).
Proof.
  split.
  - intros o options s r.
    destruct (createSession_invalid_parent 1000 "abc" "specialist" options
                reliable_memory o "session-0-none" eq_refl
                (or_introl eq_refl))
      as (_ & Hact & _ & Hstored & Hok & _ & Hmissing & _).
    destruct (Hmissing eq_refl) as [Hlevel _].
    split; [exact (Hok eq_refl)|]. split; [exact Hstored|].
    split; [exact Hact|exact Hlevel].
  - intros o options s r.
    assert (∃ P, sessions o !! "session-0-s" = Some P ∧ isActive P = false)
      as HP by (eexists; split; by vm_compute).
    destruct HP as (P & HP & Hinactive).
    destruct (createSession_invalid_parent 6000 "abc" "specialist" options
                dead_memory o "session-0-s" eq_refl
                (or_intror (ex_intro _ P (conj HP Hinactive))))
      as (_ & _ & _ & Hstored & _ & Hfail & _ & Hparent).
    destruct (Hparent P HP ltac:(done)) as (Hlevel & Hpush & _).
    split; [eexists; apply Hfail; by vm_compute|].
    split; [exact Hstored|].
    split; [rewrite Hlevel; revert HP; vm_compute; by intros [= <-]|].
    rewrite Hpush; [|done]. revert HP. vm_compute. by intros [= <-].
Defined.

(** * Agent registry *)

(** C2 (as stated, refuted).  Registering the id ["a1"] a second time does
    not fail and replaces the stored record: after registering ["a1"] as a
    specialist and then as a coordinator, with a memory client that
    acknowledges both audit records, the second call returns its record and
    the store holds it, a record that differs from the first. *)
Lemma registerAgent_duplicate_overwrites :
  let o1 := (registerAgent 10 "a1" "specialist" ["db"] reliable_memory
               (new_orchestrator 0 "k")).2 in
  let r := registerAgent 20 "a1" "coordinator" [] reliable_memory o1 in
  is_Some (agents o1 !! "a1")
  ∧ (∃ a, r.1 = Client.Ok a ∧ agents r.2 !! "a1" = Some a)
  ∧ role <$> agents o1 !! "a1" = Some "specialist"
  ∧ role <$> agents r.2 !! "a1" = Some "coordinator"
  ∧ agents r.2 !! "a1" ≠ agents o1 !! "a1".
Proof.
  intros o1 r. split; [by eexists|].
  split; [eexists; split; [reflexivity|by vm_compute]|].
  split; [by vm_compute|]. split; [by vm_compute|].
  intros Heq. apply (f_equal (fmap role)) in Heq. by vm_compute in Heq.
Qed.

(** C2 (amended).  A [registerAgent] call whose agent id is already
    registered is not refused and overwrites: the store then holds, under
    that id, the freshly built record (given role and specializations, no
    sessions, performance counters reset to their initial values), whatever
    the previous record was; all other agents are unchanged.  The call
    returns that record when the memory client acknowledges the audit
    record and rejects with the client's error when it does not; the
    overwrite has happened in both cases. *)
Theorem registerAgent_duplicate now agentId role specialization mem o old :
  agents o !! agentId = Some old →
  let a := new_agent now agentId role specialization in
  let r := registerAgent now agentId role specialization mem o in
  agents r.2 !! agentId = Some a
  ∧ a = {| agent_id := agentId; role := role;
           specialization := specialization; currentSessions := [];
           lastActivity := now;
           performance := {| tasksCompleted := 0;
                             perf_successRate := JsNum.of_Z 1;
                             averageResponseTime := JsNum.of_Z 0;
                             conflictResolutions := 0;
                             patternContributions := 0 |};
           agent_state := ∅ |}
  ∧ (∀ k, k ≠ agentId → agents r.2 !! k = agents o !! k)
  ∧ (mem (AgentRegistered agentId role specialization) = None →
       r.1 = Client.Ok a)
  ∧ (∀ e, mem (AgentRegistered agentId role specialization) = Some e →
       r.1 = Client.Fail e).
Proof.
  intros _ a r. subst r a.
  destruct (registerAgent_rest now agentId role specialization mem o)
    as (-> & _).
  split; [by rewrite lookup_insert_eq|]. split; [done|].
  split; [intros k Hk; by rewrite lookup_insert_ne|].
  unfold registerAgent, storeMemory.
  destruct (mem _) as [e|]; split; try done; by intros ? [= <-].
Qed.

Lemma registerAgent_duplicate_witness :
  let o1 := (registerAgent 10 "a1" "specialist" ["db"] reliable_memory
               (new_orchestrator 0 "k")).2 in
  (let r := registerAgent 20 "a1" "coordinator" [] reliable_memory o1 in
   agents r.2 !! "a1" = Some (new_agent 20 "a1" "coordinator" [])
   ∧ r.1 = Client.Ok (new_agent 20 "a1" "coordinator" []))
  ∧ (let r := registerAgent 20 "a1" "coordinator" [] dead_memory o1 in
     agents r.2 !! "a1" = Some (new_agent 20 "a1" "coordinator" [])
     ∧ ∃ e, r.1 = Client.Fail e).
Proof.
  intros o1.
  assert (agents o1 !! "a1" = Some (new_agent 10 "a1" "specialist" ["db"]))
    as Hold by (by vm_compute).
  split; intros r.
  - destruct (registerAgent_duplicate 20 "a1" "coordinator" [] reliable_memory
                o1 _ Hold) as (Hstored & _ & _ & Hok & _).
    split; [exact Hstored|exact (Hok eq_refl)].
  - destruct (registerAgent_duplicate 20 "a1" "coordinator" [] dead_memory
                o1 _ Hold) as (Hstored & _ & _ & _ & Hfail).
    split; [exact Hstored|]. eexists. apply Hfail. by vm_compute.
Defined.

(** * Conflict resolver *)

(** What [escalateToHuman] does when tier 3 is enabled, by the answer of
    the memory client to the escalation record. *)
Lemma escalateToHuman_enabled mem c o :
  tier3_enabled (tier3 (conflictResolution (coordination o))) = true →
  let r := escalateToHuman mem c o in
  r.1 = mem (escalation_logged c)
  ∧ conflicts r.2 = conflicts o
  ∧ (mem (escalation_logged c) = None →
       activeConflicts (conflictResolution (coordination r.2))
         = activeConflicts (conflictResolution (coordination o)) ++ [c]
       ∧ client r.2 = client o ++ [escalation_logged c])
  ∧ (∀ e, mem (escalation_logged c) = Some e → r.2 = o).
Proof.
  intros Hen. cbv zeta. unfold escalateToHuman, storeMemory. rewrite Hen.
  simpl. destruct (mem _) as [e|]; simpl; repeat split; try done.
Qed.

(** The tiers are tried in order and each outcome of [resolveConflict]
    is determined by the first tier that reports a resolution. *)
Lemma resolveConflict_cases h now rnd ty items sev meta mem o :
  let c1 := new_conflict now rnd ty items sev meta in
  let c2 := set_resolutionTier 2 c1 in
  let c3 := set_status Escalated (set_resolutionTier 3 c2) in
  let t1 := attemptTier1Resolution h c1 o in
  let t2 := attemptTier2Resolution h c2 o in
  let r := resolveConflict h now rnd ty items sev meta mem o in
  (resolved t1 = true
   ∧ r = (Client.Ok (mark_resolved now (strategy t1) c1),
          with_conflicts
            (insert (conflict_id c1) (mark_resolved now (strategy t1) c1)) o))
  ∨ (resolved t1 = false ∧ resolved t2 = true
     ∧ r = (Client.Ok (mark_resolved now (strategy t2) c2),
            with_conflicts
              (insert (conflict_id c1) (mark_resolved now (strategy t2) c2))
              o))
  ∨ (resolved t1 = false ∧ resolved t2 = false
     ∧ r.1 = settle
               (escalateToHuman mem c3
                  (with_conflicts (insert (conflict_id c1) c3) o)).1 c3
     ∧ r.2 = (escalateToHuman mem c3
                (with_conflicts (insert (conflict_id c1) c3) o)).2).
Proof.
  intros c1 c2 c3 t1 t2 r. subst r. unfold resolveConflict.
  change (attemptTier1Resolution h _ _) with t1.
  destruct (resolved t1) eqn:H1.
  { left. split; [done|]. f_equal. unfold with_conflicts. simpl. f_equal.
    by rewrite insert_insert_eq. }
  change (attemptTier2Resolution h _ _) with t2.
  destruct (resolved t2) eqn:H2.
  { right. left. split; [done|]. split; [done|]. f_equal.
    unfold with_conflicts. simpl. f_equal. by rewrite !insert_insert_eq. }
  right. right. split; [done|]. split; [done|].
  assert (with_conflicts
            (insert (generated_id "conflict" now rnd)
               (set_status Escalated
                  (set_resolutionTier 3
                     (set_resolutionTier 2
                        (new_conflict now rnd ty items sev meta)))))
            (with_conflicts
               (insert (generated_id "conflict" now rnd)
                  (set_resolutionTier 2
                     (new_conflict now rnd ty items sev meta)))
               (with_conflicts
                  (insert (generated_id "conflict" now rnd)
                     (new_conflict now rnd ty items sev meta)) o))
          = with_conflicts (insert (conflict_id c1) c3) o) as ->.
  { unfold with_conflicts. simpl. f_equal. by rewrite !insert_insert_eq. }
  subst c1 c2 c3. by destruct (escalateToHuman mem _ _).
Qed.

(** C3 (as stated, refuted).  On a new orchestrator, a conflict of a type
    that no tier-1 strategy handles, with no mediator registered, passes
    tier 1 and tier 2 unresolved; when the memory client rejects the
    escalation record the call returns no conflict at all (it rejects) and
    the conflict, stored as escalated at tier 3, is not appended to the
    active-conflicts list. *)
Lemma resolveConflict_unlogged_escalation :
  let o := new_orchestrator 0 "k" in
  let c1 := new_conflict 10 "r" "resource_conflict" ["a"; "b"] "high" ∅ in
  let r := resolveConflict source_helpers 10 "r" "resource_conflict"
             ["a"; "b"] "high" ∅ dead_memory o in
  resolved (attemptTier1Resolution source_helpers c1 o) = false
  ∧ resolved (attemptTier2Resolution source_helpers
                (set_resolutionTier 2 c1) o) = false
  ∧ (∃ e, r.1 = Client.Fail e)
  ∧ activeConflicts (conflictResolution (coordination r.2)) = []
  ∧ status <$> conflicts r.2 !! "conflict-10-r" = Some Escalated
  ∧ resolutionTier <$> conflicts r.2 !! "conflict-10-r" = Some 3%nat.
Proof.
  split; [done|]. split; [done|].
  split; [eexists; by vm_compute|]. split; [done|]. split; by vm_compute.
Qed.

(** C3 (amended).  On an orchestrator built by the constructor, when the
    tier-1 attempt and the tier-2 attempt both report no resolution the
    conflict is stored under its id with status escalated and tier 3.  If
    the memory client acknowledges the escalation record, the call returns
    that conflict and it is appended to the active-conflicts list; if the
    client rejects the record, the call rejects with the client's error and
    the conflict is not appended.  Tier 2 is never skipped: a conflict is
    stored or returned escalated only if the tier-2 attempt, made on the
    conflict at tier 2, reported no resolution after the tier-1 attempt had
    reported none. *)
Theorem resolveConflict_escalation h now rnd ty items sev meta mem o :
  reachable h o →
  let c1 := new_conflict now rnd ty items sev meta in
  let c2 := set_resolutionTier 2 c1 in
  let c3 := set_status Escalated (set_resolutionTier 3 c2) in
  let r := resolveConflict h now rnd ty items sev meta mem o in
  (resolved (attemptTier1Resolution h c1 o) = false →
   resolved (attemptTier2Resolution h c2 o) = false →
     status c3 = Escalated ∧ resolutionTier c3 = 3%nat
     ∧ conflicts r.2 !! conflict_id c3 = Some c3
     ∧ (mem (escalation_logged c3) = None →
          r.1 = Client.Ok c3
          ∧ activeConflicts (conflictResolution (coordination r.2))
              = activeConflicts (conflictResolution (coordination o)) ++ [c3])
     ∧ (∀ e, mem (escalation_logged c3) = Some e →
          r.1 = Client.Fail e
          ∧ activeConflicts (conflictResolution (coordination r.2))
              = activeConflicts (conflictResolution (coordination o))))
  ∧ (∀ c, conflicts r.2 !! conflict_id c1 = Some c ∨ r.1 = Client.Ok c →
       status c = Escalated →
       resolved (attemptTier1Resolution h c1 o) = false
       ∧ resolved (attemptTier2Resolution h c2 o) = false).
Proof.
  intros Hreach. cbv zeta.
  pose proof (reachable_tier3_enabled h o Hreach) as Hen.
  pose proof (resolveConflict_cases h now rnd ty items sev meta mem o)
    as Hcases.
  cbv zeta in Hcases.
  destruct Hcases as [[H1 Hr]|[(H1 & H2 & Hr)|(H1 & H2 & Hr & Ho)]].
  - rewrite H1 Hr. split; [done|]. simpl. rewrite lookup_insert_eq.
    by intros c [[= <-]|[= <-]].
  - rewrite H1 H2 Hr. split; [done|]. simpl. rewrite lookup_insert_eq.
    by intros c [[= <-]|[= <-]].
  - rewrite H1 H2. split; [|done]. intros _ _.
    match type of Ho with _ = (escalateToHuman mem ?c3 ?o3).2 =>
      destruct (escalateToHuman_enabled mem c3 o3 Hen)
        as (Hthrown & Hconf & Hack & Hrej) end.
    rewrite Hr Ho Hthrown Hconf.
    split; [done|]. split; [done|].
    split; [simpl; by rewrite lookup_insert_eq|]. split.
    + intros Hm. rewrite Hm. split; [done|]. by destruct (Hack Hm) as [-> _].
    + intros e Hm. rewrite Hm. split; [done|]. by rewrite (Hrej e Hm).
Qed.

Lemma resolveConflict_escalation_witness :
  let c3 := set_status Escalated
              (set_resolutionTier 3
                 (set_resolutionTier 2
                    (new_conflict 10 "r" "resource_conflict" ["a"; "b"]
                       "high" ∅))) in
  (let r := resolveConflict source_helpers 10 "r" "resource_conflict"
              ["a"; "b"] "high" ∅ reliable_memory (new_orchestrator 0 "k") in
   status c3 = Escalated ∧ resolutionTier c3 = 3%nat
   ∧ conflicts r.2 !! conflict_id c3 = Some c3
   ∧ r.1 = Client.Ok c3
   ∧ activeConflicts (conflictResolution (coordination r.2)) = [c3])
  ∧ (let r := resolveConflict source_helpers 10 "r" "resource_conflict"
                ["a"; "b"] "high" ∅ dead_memory (new_orchestrator 0 "k") in
     conflicts r.2 !! conflict_id c3 = Some c3
     ∧ (∃ e, r.1 = Client.Fail e)
     ∧ activeConflicts (conflictResolution (coordination r.2)) = []).
Proof.
  intros c3.
  assert (reachable source_helpers (new_orchestrator 0 "k")) as Hreach
    by (exists 0, "k"; apply rtc_refl).
  split; intros r.
  - destruct (proj1 (resolveConflict_escalation source_helpers 10 "r"
                       "resource_conflict" ["a"; "b"] "high" ∅
                       reliable_memory (new_orchestrator 0 "k") Hreach)
                eq_refl eq_refl)
      as (Hst & Htier & Hstored & Hack & _).
    destruct (Hack eq_refl) as [Hret Hactive].
    split; [exact Hst|]. split; [exact Htier|]. split; [exact Hstored|].
    split; [exact Hret|exact Hactive].
  - destruct (proj1 (resolveConflict_escalation source_helpers 10 "r"
                       "resource_conflict" ["a"; "b"] "high" ∅
                       dead_memory (new_orchestrator 0 "k") Hreach)
                eq_refl eq_refl)
      as (_ & _ & Hstored & _ & Hrej).
    assert (∃ e, dead_memory (escalation_logged c3) = Some e) as [e He]
      by (eexists; by vm_compute).
    destruct (Hrej e He) as [Hret Hactive].
    split; [exact Hstored|]. split; [by exists e|exact Hactive].
Defined.

(** * Pattern store *)








(** * Session store: expiry sweep *)

#[global] Instance session_touch_po : PreOrder session_touch.
Proof.
  split.
  - intros s. by split.
  - intros s1 s2 s3 H12 H23. split.
    + by rewrite (touch_id _ _ H23) (touch_id _ _ H12).
    + by rewrite (touch_parent _ _ H23) (touch_parent _ _ H12).
    + by rewrite (touch_level _ _ H23) (touch_level _ _ H12).
    + by rewrite (touch_role _ _ H23) (touch_role _ _ H12).
    + by rewrite (touch_createdAt _ _ H23) (touch_createdAt _ _ H12).
    + by rewrite (touch_ttl _ _ H23) (touch_ttl _ _ H12).
    + by rewrite (touch_children _ _ H23) (touch_children _ _ H12).
    + by rewrite (touch_memory _ _ H23) (touch_memory _ _ H12).
Qed.

#[global] Instance sessions_touch_po : PreOrder sessions_touch.
Proof.
  split.
  - intros o k. destruct (sessions o !! k); by constructor.
  - intros o1 o2 o3 H12 H23 k. specialize (H12 k). specialize (H23 k).
    destruct H12 as [s1 s2 Hs12|]; inversion H23 as [? s3 Hs23|]; subst;
      constructor; by etrans.
Qed.

Lemma sessions_touch_alter f k o :
  (∀ s, session_touch s (f s)) → sessions_touch o (alter_session f k o).
Proof.
  intros Hf j. simpl. destruct (decide (k = j)) as [->|Hne].
  - rewrite lookup_alter_eq. destruct (sessions o !! j); by constructor.
  - by rewrite lookup_alter_ne.
Qed.

Lemma sessions_touch_dom o o' :
  sessions_touch o o' → dom (sessions o') = dom (sessions o).
Proof.
  intros Ht. apply set_eq. intros k. rewrite !elem_of_dom.
  specialize (Ht k). destruct Ht; split; intros [? ?]; done.
Qed.

Lemma sessions_touch_same o o' :
  sessions o' = sessions o → sessions_touch o o'.
Proof. intros Heq k. rewrite Heq. reflexivity. Qed.


Lemma cleanupExpiredSessions_touch now mem o :
  sessions_touch o (cleanupExpiredSessions now mem o).2.
Proof.
  unfold cleanupExpiredSessions.
  apply (cleanup_loop_inv (sessions_touch o)); [| |reflexivity].
  - intros o1 k H1. etrans; [exact H1|].
    by apply (sessions_touch_alter (set_isActive false) k o1).
  - done.
Qed.

Lemma cleanupExpiredSessions_lookup now mem o k :
  ordered o →
  sessions (cleanupExpiredSessions now mem o).2 !! k =
    (λ s, if decide (k ∈ (visited now mem (sessions_entries o)).*1)
          then expire now s else s) <$> sessions o !! k.
Proof.
  intros (Hnd & Hin & _)%sessions_entries_ordered.
  unfold cleanupExpiredSessions. apply cleanup_loop_lookup; [done|].
  intros j s. apply Hin.
Qed.

Lemma expired_entries_size now o :
  ordered o →
  length (filter (λ e, expired now e.2 = true) (sessions_entries o))
    = size (expired_sessions now o).
Proof.
  intros (_ & _ & Hperm)%sessions_entries_ordered.
  unfold expired_sessions. by rewrite map_size_filter_to_list Hperm.
Qed.

Lemma cleanupExpiredSessions_outcome now mem o :
  ordered o →
  (cleanupExpiredSessions now mem o).1 =
    match rejection now mem (sessions_entries o) with
    | None => Client.Ok (size (expired_sessions now o))
    | Some e => Client.Fail e
    end.
Proof.
  intros Ho. unfold cleanupExpiredSessions.
  by rewrite cleanup_loop_outcome (expired_entries_size now o Ho).
Qed.

(** No write of the sweep is rejected exactly when the memory client
    acknowledges the record of every expired entry. *)
Lemma rejection_None now mem l :
  rejection now mem l = None ↔
  ∀ e, e ∈ l → expired now e.2 = true → mem (session_expired now e) = None.
Proof.
  induction l as [|e l IH]; simpl.
  { split; [by intros _ e ?%elem_of_nil|done]. }
  destruct (expired now e.2) eqn:He.
  - destruct (mem (session_expired now e)) as [err|] eqn:Hm.
    + split; [done|]. intros Hall.
      rewrite Hall in Hm; [done|by left|done].
    + rewrite IH. split.
      * intros Hall e' [->|Hin]%elem_of_cons; [done|by apply Hall].
      * intros Hall e' Hin. apply Hall. by right.
  - rewrite IH. split.
    + intros Hall e' [->|Hin]%elem_of_cons; [congruence|by apply Hall].
    + intros Hall e' Hin. apply Hall. by right.
Qed.

(** A rejected sweep has visited the entries before the first expired one
    whose record was rejected, and that entry. *)
Lemma rejection_Some now mem l err :
  rejection now mem l = Some err →
  ∃ before entry after,
    l = before ++ entry :: after
    ∧ rejection now mem before = None
    ∧ expired now entry.2 = true
    ∧ mem (session_expired now entry) = Some err
    ∧ visited now mem l = before ++ [entry].
Proof.
  induction l as [|e l IH]; simpl; [done|].
  destruct (expired now e.2) eqn:He.
  - destruct (mem (session_expired now e)) as [err'|] eqn:Hm.
    + intros [= ->]. by exists [], e, l.
    + intros (before & entry & after & -> & ? & ? & ? & ->)%IH.
      exists (e :: before), entry, after. simpl. by rewrite He Hm.
  - intros (before & entry & after & -> & ? & ? & ? & ->)%IH.
    exists (e :: before), entry, after. simpl. by rewrite He.
Qed.

(** C6 (as stated, refuted).  The sweep counts expired sessions whether or
    not they are still active: on a store holding one session of TTL 1 s
    created at time 0, with a memory client that acknowledges every record,
    a first sweep at time 5000 flips that session and returns 1; a second
    sweep at time 6000 flips nothing, the session being inactive already,
    and returns 1 again. *)
Lemma cleanupExpiredSessions_counts_inactive :
  let r1 := cleanupExpiredSessions 5000 reliable_memory short_lived_store in
  let r2 := cleanupExpiredSessions 6000 reliable_memory r1.2 in
  r1.1 = Client.Ok 1%nat ∧ size (transitioned short_lived_store r1.2) = 1%nat
  ∧ r2.1 = Client.Ok 1%nat ∧ size (transitioned r1.2 r2.2) = 0%nat.
Proof. repeat split; by vm_compute. Qed.

(** C6 (amended).  A sweep at time [now] visits the stored sessions in the
    order of the session map and sets [active = false] on each visited
    session with [now - createdAt > ttl * 1000], writing one audit record
    for it; every other session, and every other field, stays as it was,
    and no session is removed from the store.  The sweep ends at the first
    such session whose record the memory client rejects: it then rejects
    with the client's error, that session being flipped already and the
    sessions after it not visited.  When no record is rejected the sweep
    flips every expired session, so the sessions it transitions are exactly
    the expired ones that were active, and it returns the number of stored
    sessions that are expired at [now], already inactive ones included. *)
Theorem cleanupExpiredSessions_effect now mem o :
  ordered o →
  let r := cleanupExpiredSessions now mem o in
  let entries := sessions_entries o in
  let seen := (visited now mem entries).*1 in
  (∀ k, sessions r.2 !! k
        = (λ s, if decide (k ∈ seen) then expire now s else s)
            <$> sessions o !! k)
  ∧ dom (sessions r.2) = dom (sessions o)
  ∧ r.1 = match rejection now mem entries with
          | None => Client.Ok (size (expired_sessions now o))
          | Some e => Client.Fail e
          end
  ∧ (rejection now mem entries = None ↔
       ∀ k s, sessions o !! k = Some s → expired now s = true →
         mem (session_expired now (k, s)) = None)
  ∧ (rejection now mem entries = None →
       sessions r.2 = expire now <$> sessions o
       ∧ transitioned o r.2 =
           filter (λ e, expired now e.2 = true ∧ isActive e.2 = true)
             (sessions o))
  ∧ (∀ e, rejection now mem entries = Some e →
       ∃ before entry after,
         entries = before ++ entry :: after
         ∧ rejection now mem before = None
         ∧ expired now entry.2 = true
         ∧ mem (session_expired now entry) = Some e
         ∧ seen = (before ++ [entry]).*1).
Proof.
  intros Ho. cbv zeta.
  pose proof (sessions_entries_ordered o Ho) as (_ & Hin & _).
  assert (rejection now mem (sessions_entries o) = None →
          sessions (cleanupExpiredSessions now mem o).2
            = expire now <$> sessions o) as Hall.
  { intros Hr. apply map_eq. intros k.
    rewrite cleanupExpiredSessions_lookup // lookup_fmap (visited_all _ _ _ Hr).
    destruct (sessions o !! k) as [s|] eqn:Hk; [|done]. simpl.
    rewrite decide_True //. apply list_elem_of_fmap. exists (k, s).
    split; [done|]. by apply Hin. }
  split; [intros k; by apply cleanupExpiredSessions_lookup|].
  split; [apply sessions_touch_dom, cleanupExpiredSessions_touch|].
  split; [by apply cleanupExpiredSessions_outcome|].
  split; [|split].
  - rewrite rejection_None. split.
    + intros Hack k s Hk He. apply (Hack (k, s)); [by apply Hin|done].
    + intros Hack [k s] Hk He. apply Hack; [by apply Hin|done].
  - intros Hr. split; [by apply Hall|].
    unfold transitioned. apply map_filter_ext. intros k s Hk. simpl.
    rewrite (Hall Hr) lookup_fmap Hk /=. unfold expire.
    destruct (expired now s), (isActive s) eqn:Ha; simpl;
      rewrite ?Ha; split; intros [??]; done.
  - intros e (before & entry & after & ? & ? & ? & ? & ->)%rejection_Some.
    by exists before, entry, after.
Qed.

Lemma two_short_lived_store_reachable :
  reachable source_helpers two_short_lived_store.
Proof.
  exists 0, "k". eapply rtc_l; [|apply rtc_once].
  - by apply (step_call _ _ _ 0
                (CallCreateSession "s" "coordinator"
                   (session_options None ∅ (Some 1)) reliable_memory)).
  - by apply (step_call _ _ _ 1
                (CallCreateSession "t" "validator"
                   (session_options None ∅ (Some 1)) reliable_memory)).
Qed.

Lemma cleanupExpiredSessions_effect_witness :
  let r := cleanupExpiredSessions 5000 first_write_fails
             two_short_lived_store in
  ordered two_short_lived_store
  ∧ (∃ e, r.1 = Client.Fail e)
  ∧ isActive <$> sessions r.2 !! "session-0-s" = Some false
  ∧ isActive <$> sessions r.2 !! "session-1-t" = Some true
  ∧ dom (sessions r.2) = dom (sessions two_short_lived_store).
Proof.
  intros r.
  pose proof (reachable_ordered _ _ two_short_lived_store_reachable) as Ho.
  destruct (cleanupExpiredSessions_effect 5000 first_write_fails
              two_short_lived_store Ho) as (Hlook & Hdom & Hout & _).
  split; [exact Ho|]. split; [eexists; rewrite Hout; by vm_compute|].
  split; [rewrite Hlook; by vm_compute|].
  split; [rewrite Hlook; by vm_compute|exact Hdom].
Defined.

(** * Session store: hierarchy and TTL along a run *)

Lemma hierarchy_link_mono o o' child parent :
  sessions_le o o' → hierarchy_link o child parent →
  hierarchy_link o' child parent.
Proof.
  intros Hle (S & P & HS & HP & Hpar & Hlvl & Hin).
  destruct (Hle _ _ HS) as (S' & HS' & HleS).
  destruct (Hle _ _ HP) as (P' & HP' & HleP).
  exists S', P'. split; [done|]. split; [done|].
  split; [by rewrite (le_parent _ _ HleS)|].
  split; [by rewrite (le_level _ _ HleS) (le_level _ _ HleP)|].
  eapply elem_of_prefix; [done|]. apply (le_children _ _ HleP).
Qed.

(** C7.  When [createSession] is called on an orchestrator built by the
    constructor with a parent id that is the key of a stored session [P],
    and the id it draws is unused, the new session [S] has
    [hierarchyLevel = P.hierarchyLevel + 1] and, after the call, [S] is
    stored with that parent id, one level below the stored parent, whose
    children contain [S.id]; the call returns [S] when the audit record is
    acknowledged, and returns no other session.  The relation holds whether
    the record is acknowledged or not, and every later run of calls,
    fulfilled or rejected, keeps it. *)
Theorem createSession_hierarchy h now rnd agentRole options mem o p P :
  reachable h o →
  opt_parentSessionId options = Some p →
  sessions o !! p = Some P →
  sessions o !! generated_id "session" now rnd = None →
  let s := new_session now rnd agentRole options o in
  let r := createSession now rnd agentRole options mem o in
  hierarchyLevel s = (hierarchyLevel P + 1)%nat
  ∧ sessions r.2 !! sess_id s = Some s
  ∧ (mem (session_created s options) = None → r.1 = Client.Ok s)
  ∧ (∀ s', r.1 = Client.Ok s' → s' = s)
  ∧ hierarchy_link r.2 (sess_id s) p
  ∧ ∀ o', rtc (step h) r.2 o' → hierarchy_link o' (sess_id s) p.
Proof.
  intros Hreach Hopt HP Hfresh. cbv zeta.
  pose proof (reachable_key_nonempty h o p P Hreach HP) as Hp.
  assert (p ≠ generated_id "session" now rnd) as Hne by congruence.
  assert (hierarchyLevel (new_session now rnd agentRole options o)
          = (hierarchyLevel P + 1)%nat) as Hlvl.
  { unfold new_session. simpl. by rewrite Hopt (truthy_Some p Hp) HP. }
  assert (sessions (createSession now rnd agentRole options mem o).2
            !! generated_id "session" now rnd
          = Some (new_session now rnd agentRole options o)) as Hstored.
  { rewrite createSession_sessions. apply lookup_insert_eq. }
  assert (hierarchy_link (createSession now rnd agentRole options mem o).2
            (generated_id "session" now rnd) p) as Hlink.
  { exists (new_session now rnd agentRole options o),
           (push_child (generated_id "session" now rnd) P).
    split; [done|]. split; [|split; [|split]].
    - rewrite createSession_sessions Hopt (truthy_Some p Hp).
      cbn [from_option]. by rewrite lookup_insert_ne // lookup_alter_eq HP.
    - done.
    - by rewrite Hlvl.
    - simpl. apply elem_of_app. right. by apply list_elem_of_singleton. }
  split; [done|]. split; [done|].
  rewrite createSession_returns. cbv zeta.
  split; [by intros ->|].
  split; [destruct (mem _); simpl; by intros s' [= <-]|].
  split; [done|].
  intros o' Hrun. eapply hierarchy_link_mono; [|exact Hlink].
  by eapply steps_sessions_le.
Qed.

(** C9.  Along any run of calls (session retrieval at any clock value, the
    expiry sweep, or any other method, fulfilled or rejected), a stored
    session whose [active] flag is false is still stored, with the flag
    false, at the end. *)
Theorem inactive_stays_inactive h o o' k s :
  rtc (step h) o o' →
  sessions o !! k = Some s →
  isActive s = false →
  ∃ s', sessions o' !! k = Some s' ∧ isActive s' = false.
Proof.
  intros Hrun Hk Hinactive.
  destruct (steps_sessions_le h o o' Hrun k s Hk) as (s' & Hk' & Hle).
  exists s'. split; [done|]. by apply (le_inactive _ _ Hle).
Qed.

Lemma createSession_hierarchy_witness :
  hierarchy_link (two_level_store ∅ ∅ None)
    "session-200-child" "session-100-root".
Proof.
  pose (o1 := (createSession 100 "root" "orchestrator"
                 (session_options None ∅ None) reliable_memory
                 (new_orchestrator 0 "k")).2).
  assert (reachable source_helpers o1) as Hreach.
  { exists 0, "k". apply rtc_once.
    by apply (step_call _ _ _ 100
                (CallCreateSession "root" "orchestrator"
                   (session_options None ∅ None) reliable_memory)). }
  exact (proj1 (proj2 (proj2 (proj2 (proj2
    (createSession_hierarchy source_helpers 200 "child" "specialist"
       (session_options (Some "session-100-root") ∅ None) reliable_memory o1
       "session-100-root"
       (new_session 100 "root" "orchestrator" (session_options None ∅ None)
          (new_orchestrator 0 "k"))
       Hreach eq_refl eq_refl eq_refl)))))).
Defined.

Lemma inactive_stays_inactive_witness :
  let o := (cleanupExpiredSessions 5000 reliable_memory short_lived_store).2 in
  let o' := (cleanupExpiredSessions 6000 dead_memory o).2 in
  ∃ s', sessions o' !! "session-0-s" = Some s' ∧ isActive s' = false.
Proof.
  intros o o'.
  assert (rtc (step source_helpers) o o') as Hrun.
  { apply rtc_once.
    by apply (step_call _ _ _ 6000 (CallCleanupExpiredSessions dead_memory)). }
  eapply (inactive_stays_inactive source_helpers o o' "session-0-s" _ Hrun).
  - vm_compute. reflexivity.
  - reflexivity.
Defined.

(** * Session store: retrieval with hierarchy *)

Lemma getSessionContext_returns_stored fuel now sid incl o r o' :
  getSessionContext fuel now sid incl o = Some (Some r, o') →
  sessions o' !! sid = Some r.
Proof.
  destruct fuel as [|fuel]; simpl; [done|].
  destruct (sessions o !! sid) as [session|]; [|done].
  destruct (expired now session); [by intros [= ? <-]|].
  destruct (if incl then truthy (parentSessionId session) else None) as [p|];
    [|by intros [= ? <-]].
  destruct (getSessionContext fuel now p true _) as [[[pc|] o2]|];
    [| |done]; by intros [= ? <-].
Qed.

(** *** The parent chain *)

Lemma parent_walk_head now o k l :
  parent_walk now o k l →
  ∃ s rest, sessions o !! k = Some s ∧ l = (k, sess_state s) :: rest.
Proof. destruct 1; eauto. Qed.

Lemma parent_walk_functional now o k l1 :
  parent_walk now o k l1 → ∀ l2, parent_walk now o k l2 → l1 = l2.
Proof.
  induction 1 as [sid s Hs He|sid s Hs He Htop|sid s p l Hs He Hp Hl IH];
    intros l2 H2;
    inversion H2 as [? s2 Hs2 He2|? s2 Hs2 He2 Htop2|? s2 p2 l' Hs2 He2 Hp2 Hl2];
    subst; assert (s2 = s) as -> by congruence; try congruence.
  - destruct (parent_walk_head _ _ _ _ Hl2) as (sp & ? & Hsp & _).
    specialize (Htop _ Hp2). congruence.
  - destruct (parent_walk_head _ _ _ _ Hl) as (sp & ? & Hsp & _).
    specialize (Htop2 _ Hp). congruence.
  - assert (p2 = p) as -> by congruence. f_equal. by apply IH.
Qed.

Lemma parent_walk_suffix now o k l :
  parent_walk now o k l → ∀ j, j ∈ l.*1 →
  ∃ l', parent_walk now o j l' ∧ (length l' ≤ length l)%nat.
Proof.
  induction 1 as [sid s Hs He|sid s Hs He Htop|sid s p l Hs He Hp Hl IH];
    intros j Hj.
  - apply list_elem_of_singleton in Hj as ->.
    eexists. split; [by apply walk_expired|done].
  - apply list_elem_of_singleton in Hj as ->.
    eexists. split; [by apply walk_top|done].
  - apply elem_of_cons in Hj as [->|Hj].
    + eexists. split; [by eapply walk_link|done].
    + destruct (IH j Hj) as (l' & Hl' & Hlen).
      exists l'. split; [done|]. simpl. lia.
Qed.

(** The walk never comes back to a session it has visited. *)
Lemma parent_walk_acyclic now o k e l :
  parent_walk now o k (e :: l) → k ∉ l.*1.
Proof.
  intros Hc Hin.
  inversion Hc as [? s Hs _|? s Hs _ Htop|? s p l0 Hs _ Hp Hl]; subst;
    try by apply elem_of_nil in Hin.
  destruct (parent_walk_suffix _ _ _ _ Hl k Hin) as (l' & Hl' & Hlen).
  pose proof (parent_walk_functional _ _ _ _ Hc _ Hl') as <-.
  simpl in Hlen. lia.
Qed.

Lemma parent_walk_set_lastAccess now v j o k l :
  parent_walk now o k l →
  parent_walk now (alter_session (set_lastAccess v) j o) k l.
Proof.
  induction 1 as [sid s Hs He|sid s Hs He Htop|sid s p l Hs He Hp Hl IH].
  - destruct (decide (j = sid)) as [->|Hne].
    + apply (walk_expired _ _ sid (set_lastAccess v s)); [|done].
      by rewrite /= lookup_alter_eq Hs.
    + apply walk_expired; [|done]. by rewrite /= lookup_alter_ne.
  - destruct (decide (j = sid)) as [->|Hne].
    + apply (walk_top _ _ sid (set_lastAccess v s)); [|done|].
      * by rewrite /= lookup_alter_eq Hs.
      * intros p Hp. rewrite /= lookup_alter_None. by apply Htop.
    + apply walk_top; [|done|].
      * by rewrite /= lookup_alter_ne.
      * intros p Hp. rewrite /= lookup_alter_None. by apply Htop.
  - destruct (decide (j = sid)) as [->|Hne].
    + apply (walk_link _ _ sid (set_lastAccess v s) p); [|done..].
      by rewrite /= lookup_alter_eq Hs.
    + apply (walk_link _ _ sid s p); [|done..].
      by rewrite /= lookup_alter_ne.
Qed.

Lemma merge_root_to_leaf_cons leaf ancestors :
  merge_root_to_leaf (reverse (leaf :: ancestors))
    = spread (merge_root_to_leaf (reverse ancestors)) leaf.
Proof.
  unfold merge_root_to_leaf. by rewrite reverse_cons foldl_app.
Qed.

Lemma lookup_alter_session f k o s :
  sessions o !! k = Some s →
  sessions (alter_session f k o) !! k = Some (f s).
Proof. intros Hs. by rewrite /= lookup_alter_eq Hs. Qed.

Lemma lookup_alter_session_ne f k j o :
  k ≠ j → sessions (alter_session f k o) !! j = sessions o !! j.
Proof. intros Hne. by rewrite /= lookup_alter_ne. Qed.

Lemma merge_root_to_leaf_singleton m : merge_root_to_leaf (reverse [m]) = m.
Proof. unfold merge_root_to_leaf, spread. simpl. by rewrite right_id_L. Qed.


(** Walking the parent chain returns, within [length chain + 1] nested
    calls, the merge of the chain's state maps; it leaves every session of
    the chain with the merge of its own chain as stored state and touches no
    session off the chain. *)
Lemma getSessionContext_walk now chain : ∀ fuel o sid,
  parent_walk now o sid chain →
  (length chain < fuel)%nat →
  ∃ r o',
    getSessionContext fuel now sid true o = Some (Some r, o')
    ∧ sess_state r = merge_root_to_leaf (reverse chain.*2)
    ∧ (∀ i k m, chain !! i = Some (k, m) →
         sess_state <$> sessions o' !! k
           = Some (merge_root_to_leaf (reverse (drop i chain).*2)))
    ∧ ∀ k, k ∉ chain.*1 → sessions o' !! k = sessions o !! k.
Proof.
  induction chain as [|e chain IH]; intros fuel o sid Hc Hfuel;
    [by inversion Hc|].
  pose proof (parent_walk_acyclic _ _ _ _ _ Hc) as Hacyc.
  destruct fuel as [|fuel]; [lia|]. simpl in Hfuel.
  assert (∀ (s : SessionContext) (o1 : Orchestrator),
            sessions o1 !! sid = Some s →
            ∀ i k m, [(sid, sess_state s)] !! i = Some (k, m) →
              sess_state <$> sessions o1 !! k
                = Some (merge_root_to_leaf
                          (reverse (drop i [(sid, sess_state s)]).*2)))
    as Hsingle.
  { intros s o1 Hs1 [|i] k m Hi; [|by destruct i].
    injection Hi as <- <-. rewrite Hs1 /=. f_equal.
    apply symmetry, merge_root_to_leaf_singleton. }
  assert (∀ k, k ∉ [(sid, sess_state <$> sessions o !! sid)].*1 → sid ≠ k)
    as Hoff.
  { intros k Hk ->. apply Hk. by left. }
  inversion Hc as [? s Hs He|? s Hs He Htop|? s p l0 Hs He Hp Hl]; subst;
    cbn [getSessionContext]; rewrite Hs He.
  - (* the session has expired: the walk ends with it *)
    assert (sessions (alter_session (set_isActive false) sid
                        (alter_session (set_lastAccess now) sid o)) !! sid
            = Some (set_isActive false (set_lastAccess now s))) as Hr.
    { by rewrite /= !lookup_alter_eq Hs. }
    rewrite Hr. eexists _, _. split; [done|].
    split; [apply symmetry, merge_root_to_leaf_singleton|]. split.
    + apply (Hsingle (set_isActive false (set_lastAccess now s))), Hr.
    + intros k Hk. rewrite /= !lookup_alter_ne //; apply Hoff, Hk.
  - (* the chain ends here *)
    assert (∀ k, k ∉ [(sid, sess_state s)].*1 →
              sessions (alter_session (set_lastAccess now) sid o) !! k
              = sessions o !! k) as Hframe.
    { intros k Hk. apply lookup_alter_session_ne. apply Hoff, Hk. }
    destruct (truthy (parentSessionId s)) as [p|] eqn:Hp.
    + destruct fuel as [|fuel]; [lia|]. cbn [getSessionContext].
      pose proof (Htop p eq_refl) as Hnone.
      assert (sid ≠ p) as Hne by congruence.
      rewrite (lookup_alter_session_ne _ _ _ _ Hne) Hnone.
      rewrite (lookup_alter_session _ _ _ _ Hs).
      eexists _, _. split; [done|].
      split; [apply symmetry, merge_root_to_leaf_singleton|].
      split; [|done].
      apply (Hsingle (set_lastAccess now s)).
      by apply lookup_alter_session.
    + rewrite (lookup_alter_session _ _ _ _ Hs).
      eexists _, _. split; [done|].
      split; [apply symmetry, merge_root_to_leaf_singleton|].
      split; [|done].
      apply (Hsingle (set_lastAccess now s)).
      by apply lookup_alter_session.
  - (* the walk continues with the parent *)
    rewrite Hp.
    destruct (IH fuel (alter_session (set_lastAccess now) sid o) p)
      as (pc & o2 & Hrec & Hstate & Hstored & Hframe);
      [by apply parent_walk_set_lastAccess|lia|].
    rewrite Hrec.
    assert (sessions o2 !! sid = Some (set_lastAccess now s)) as Hs2.
    { rewrite (Hframe sid Hacyc). by apply lookup_alter_session. }
    rewrite (lookup_alter_session _ _ _ _ Hs2).
    assert (sess_state (inherit_state pc (set_lastAccess now s))
            = merge_root_to_leaf (reverse ((sid, sess_state s) :: chain).*2))
      as Hmerge.
    { rewrite fmap_cons merge_root_to_leaf_cons -Hstate. done. }
    eexists _, _. split; [done|]. split; [done|]. split.
    + intros [|i] k m Hi.
      * injection Hi as <- <-.
        rewrite (lookup_alter_session _ _ _ _ Hs2). cbn [fmap option_fmap option_map drop].
        by rewrite Hmerge.
      * simpl in Hi. assert (sid ≠ k) as Hne.
        { intros ->. apply Hacyc. apply list_elem_of_fmap.
          exists (k, m). split; [done|]. by eapply list_elem_of_lookup_2. }
        rewrite lookup_alter_session_ne //. by apply (Hstored i k m).
    + intros k Hk. apply not_elem_of_cons in Hk as [Hne Hk].
      rewrite lookup_alter_session_ne //. rewrite (Hframe k Hk).
      by apply lookup_alter_session_ne.
Qed.

(** In a merge each binding comes from the first map, leaf first, that
    has the key. *)
Lemma merge_root_to_leaf_lookup (l : list JsRecord) k v :
  merge_root_to_leaf (reverse l) !! k = Some v →
  ∃ i m, l !! i = Some m ∧ m !! k = Some v
    ∧ ∀ j m', (j < i)%nat → l !! j = Some m' → m' !! k = None.
Proof.
  revert k v. induction l as [|leaf l IH]; intros k v.
  { unfold merge_root_to_leaf. simpl. by rewrite lookup_empty. }
  rewrite merge_root_to_leaf_cons. unfold spread.
  rewrite lookup_union_Some_raw. intros [Hleaf|[Hnone Hrest]].
  - exists 0%nat, leaf. split; [done|]. split; [done|]. intros j m' Hj. lia.
  - destruct (IH k v Hrest) as (i & m & Hi & Hm & Hfirst).
    exists (S i), m. split; [done|]. split; [done|].
    intros [|j] m' Hj Hm'; simpl in Hm'.
    + by injection Hm' as <-.
    + apply (Hfirst j); [lia|done].
Qed.

(** C4 (as stated, refuted).  With a root holding [{a: 1}] and a live child
    holding [{b: 2}], retrieving the child with [includeHierarchy] stores
    the merged map in the child session: its stored state is [{b: 2}]
    before the call and [{a: 1, b: 2}] after it. *)
Lemma getSessionContext_mutates_stored_state :
  let o := two_level_store {["a" := JsNumber 1]} {["b" := JsNumber 2]} None in
  sess_state <$> sessions o !! "session-200-child"
    = Some {["b" := JsNumber 2]}
  ∧ ∃ r o',
      getSessionContext 2 300 "session-200-child" true o = Some (Some r, o')
      ∧ sess_state <$> sessions o' !! "session-200-child"
          = Some (<["a" := JsNumber 1]> {["b" := JsNumber 2]})
      ∧ sess_state <$> sessions o' !! "session-200-child"
          ≠ sess_state <$> sessions o !! "session-200-child".
Proof.
  split; [by vm_compute|]. eexists _, _.
  split; [vm_compute; reflexivity|]. split; by vm_compute.
Qed.

(** C4 (amended).  The hierarchy merge is written back to the store.  A
    [getSessionContext] call with [includeHierarchy] on a stored session
    returns (within one nested call per session of the parent chain it
    walks, plus one) the record that is stored under the session id after
    the call, and the state map of that record is the root-to-leaf merge of
    the chain's state maps; every session of the chain is likewise left
    with the merge of its own chain as stored state, and sessions off the
    chain are untouched.  Stored state maps only grow: after the call every
    stored session still has every binding of its state map, and a session
    without parent has exactly the state map it had. *)
Theorem getSessionContext_persists_merge now o sid chain fuel :
  parent_walk now o sid chain →
  (length chain < fuel)%nat →
  ∃ r o',
    getSessionContext fuel now sid true o = Some (Some r, o')
    ∧ sessions o' !! sid = Some r
    ∧ sess_state r = merge_root_to_leaf (reverse chain.*2)
    ∧ (∀ i k m, chain !! i = Some (k, m) →
         sess_state <$> sessions o' !! k
           = Some (merge_root_to_leaf (reverse (drop i chain).*2)))
    ∧ (∀ k, k ∉ chain.*1 → sessions o' !! k = sessions o !! k)
    ∧ ∀ k s, sessions o !! k = Some s →
        ∃ s', sessions o' !! k = Some s'
          ∧ sess_state s ⊆ sess_state s'
          ∧ (truthy (parentSessionId s) = None →
               sess_state s' = sess_state s).
Proof.
  intros Hc Hfuel.
  destruct (getSessionContext_walk now chain fuel o sid Hc Hfuel)
    as (r & o' & Hget & Hstate & Hstored & Hframe).
  exists r, o'. split; [done|].
  split; [by eapply getSessionContext_returns_stored|].
  split; [done|]. split; [done|]. split; [done|].
  intros k s Hk.
  destruct (getSessionContext_sessions_le _ _ _ _ _ _ _ Hget k s Hk)
    as (s' & Hk' & Hle).
  exists s'. split; [done|]. split; [apply (le_state _ _ Hle)|].
  apply (le_root_state _ _ Hle).
Qed.

(** The walks of the example stores: from the child of a family whose
    sessions are all live, and from the live child of an expired root. *)
Lemma live_family_walk root child :
  parent_walk 300 (two_level_store root child None) "session-200-child"
    [("session-200-child", child); ("session-100-root", root)].
Proof.
  pose (o1 := createSession 100 "root" "orchestrator"
                (session_options None root None) reliable_memory
                (new_orchestrator 0 "k")).
  pose (sc := new_session 200 "child" "specialist"
                (session_options (Some "session-100-root") child None) o1.2).
  pose (sr := push_child "session-200-child"
                (new_session 100 "root" "orchestrator"
                   (session_options None root None) (new_orchestrator 0 "k"))).
  refine (walk_link 300 _ "session-200-child" sc "session-100-root"
            [("session-100-root", root)] _ _ _ _);
    [by vm_compute|by vm_compute|by vm_compute|].
  refine (walk_top 300 _ "session-100-root" sr _ _ _);
    [by vm_compute|by vm_compute|]. by intros p [=].
Qed.

Lemma expired_root_walk root child :
  parent_walk 5000 (family_store root (Some 1) child None)
    "session-200-child"
    [("session-200-child", child); ("session-100-root", root)].
Proof.
  pose (o1 := createSession 100 "root" "orchestrator"
                (session_options None root (Some 1)) reliable_memory
                (new_orchestrator 0 "k")).
  pose (sc := new_session 200 "child" "specialist"
                (session_options (Some "session-100-root") child None) o1.2).
  pose (sr := push_child "session-200-child"
                (new_session 100 "root" "orchestrator"
                   (session_options None root (Some 1))
                   (new_orchestrator 0 "k"))).
  refine (walk_link 5000 _ "session-200-child" sc "session-100-root"
            [("session-100-root", root)] _ _ _ _);
    [by vm_compute|by vm_compute|by vm_compute|].
  refine (walk_expired 5000 _ "session-100-root" sr _ _);
    by vm_compute.
Qed.

Lemma getSessionContext_persists_merge_witness :
  let o := two_level_store {["a" := JsNumber 1]} {["b" := JsNumber 2]} None in
  ∃ r o',
    getSessionContext 3 300 "session-200-child" true o = Some (Some r, o')
    ∧ sessions o' !! "session-200-child" = Some r
    ∧ sess_state r = <["a" := JsNumber 1]> {["b" := JsNumber 2]}.
Proof.
  intros o.
  destruct (getSessionContext_persists_merge 300 o "session-200-child" _ 3
              (live_family_walk _ _) (le_n 3))
    as (r & o' & Hget & Hstored & Hstate & _).
  exists r, o'. split; [exact Hget|]. split; [exact Hstored|].
  rewrite Hstate. by vm_compute.
Defined.

(** C8 (as stated, refuted).  An expired session is returned without its
    ancestors' state: with a root holding [{a: 1}] and a child holding
    [{b: 2}] whose TTL of 1 s has run out, retrieval of the child with
    [includeHierarchy] returns [{b: 2}], not the merge [{a: 1, b: 2}]. *)
Lemma getSessionContext_expired_not_merged :
  let o := two_level_store {["a" := JsNumber 1]} {["b" := JsNumber 2]}
             (Some 1) in
  ∃ r o',
    getSessionContext 2 5000 "session-200-child" true o = Some (Some r, o')
    ∧ isActive r = false
    ∧ sess_state r = {["b" := JsNumber 2]}
    ∧ sess_state r
        ≠ merge_root_to_leaf [ {["a" := JsNumber 1]}; {["b" := JsNumber 2]} ].
Proof.
  eexists _, _. split; [vm_compute; reflexivity|].
  split; [done|]. split; by vm_compute.
Qed.

(** C8 (amended).  A [getSessionContext] call with [includeHierarchy] on a
    stored session returns (within one nested call per session of the
    chain, plus one) the root-to-leaf merge of the state maps along the
    parent chain as the call walks it: from the session up through stored
    sessions that have not expired, ending with the first session that has
    expired, has no parent id, or whose parent is not stored.  A
    descendant's value wins for any key it shares with an ancestor.  An
    expired session ends the walk, so the ancestors of an expired session
    contribute nothing; an expired leaf is returned with its own state map.
    For a live child of a root, live or expired, root [{a: 1}] with child
    [{b: 2}] gives [{a: 1, b: 2}], and root [{a: 1}] with child [{a: 3}]
    gives [{a: 3}]. *)
Theorem getSessionContext_hierarchy_merge now o sid chain fuel :
  parent_walk now o sid chain →
  (length chain < fuel)%nat →
  ∃ r o',
    getSessionContext fuel now sid true o = Some (Some r, o')
    ∧ sess_state r = merge_root_to_leaf (reverse chain.*2)
    ∧ (∀ k v, sess_state r !! k = Some v →
         ∃ i m, chain.*2 !! i = Some m ∧ m !! k = Some v
           ∧ ∀ j m', (j < i)%nat → chain.*2 !! j = Some m' → m' !! k = None).
Proof.
  intros Hc Hfuel.
  destruct (getSessionContext_walk now chain fuel o sid Hc Hfuel)
    as (r & o' & Hget & Hstate & _).
  exists r, o'. split; [done|]. split; [done|].
  rewrite Hstate. apply merge_root_to_leaf_lookup.
Qed.

Lemma getSessionContext_hierarchy_merge_witness :
  (let o := two_level_store {["a" := JsNumber 1]} {["b" := JsNumber 2]}
              None in
   ∃ r o',
     getSessionContext 3 300 "session-200-child" true o = Some (Some r, o')
     ∧ sess_state r = <["a" := JsNumber 1]> {["b" := JsNumber 2]})
  ∧ (let o := two_level_store {["a" := JsNumber 1]} {["a" := JsNumber 3]}
                None in
     ∃ r o',
       getSessionContext 3 300 "session-200-child" true o = Some (Some r, o')
       ∧ sess_state r = {["a" := JsNumber 3]})
  ∧ (let o := family_store {["a" := JsNumber 1]} (Some 1)
                {["b" := JsNumber 2]} None in
     ∃ r o',
       getSessionContext 3 5000 "session-200-child" true o
         = Some (Some r, o')
       ∧ sess_state r = <["a" := JsNumber 1]> {["b" := JsNumber 2]}).
Proof.
  split; [|split]; intros o.
  - destruct (getSessionContext_hierarchy_merge 300 o "session-200-child"
                _ 3 (live_family_walk _ _) (le_n 3))
      as (r & o' & Hget & Hstate & _).
    exists r, o'. split; [exact Hget|]. rewrite Hstate. by vm_compute.
  - destruct (getSessionContext_hierarchy_merge 300 o "session-200-child"
                _ 3 (live_family_walk _ _) (le_n 3))
      as (r & o' & Hget & Hstate & _).
    exists r, o'. split; [exact Hget|]. rewrite Hstate. by vm_compute.
  - destruct (getSessionContext_hierarchy_merge 5000 o "session-200-child"
                _ 3 (expired_root_walk _ _) (le_n 3))
      as (r & o' & Hget & Hstate & _).
    exists r, o'. split; [exact Hget|]. rewrite Hstate. by vm_compute.
Defined.

(** * Further properties of the orchestrator *)

(** ** Retrieval *)

(** Everything of the orchestrator outside the session store. *)
Lemma getSessionContext_rest fuel now : ∀ sid incl o r o',
  getSessionContext fuel now sid incl o = Some (r, o') →
  client o' = client o ∧ coordination o' = coordination o
  ∧ agents o' = agents o ∧ conflicts o' = conflicts o
  ∧ patterns o' = patterns o.
Proof.
  induction fuel as [|fuel IH]; intros sid incl o r o'; simpl; [done|].
  destruct (sessions o !! sid) as [session|]; [|by intros [= _ <-]].
  destruct (expired now session); [by intros [= _ <-]|].
  destruct (if incl then truthy (parentSessionId session) else None) as [p|];
    [|by intros [= _ <-]].
  destruct (getSessionContext fuel now p true _) as [[[pc|] o2]|] eqn:Hrec;
    [| |done]; intros [= _ <-];
    by destruct (IH _ _ _ _ _ Hrec) as (? & ? & ? & ? & ?).
Qed.

Lemma getSessionContext_touch fuel now : ∀ sid incl o r o',
  getSessionContext fuel now sid incl o = Some (r, o') → sessions_touch o o'.
Proof.
  induction fuel as [|fuel IH]; intros sid incl o r o'; simpl; [done|].
  destruct (sessions o !! sid) as [session|].
  2:{ intros [= _ <-]. reflexivity. }
  assert (sessions_touch o (alter_session (set_lastAccess now) sid o)) as H1
    by by apply sessions_touch_alter.
  destruct (expired now session).
  { intros [= _ <-]. etrans; [exact H1|]. by apply sessions_touch_alter. }
  destruct (if incl then truthy (parentSessionId session) else None) as [p|];
    [|by intros [= _ <-]].
  destruct (getSessionContext fuel now p true _) as [[[pc|] o2]|] eqn:Hrec;
    [| |done]; intros [= _ <-].
  - etrans; [exact H1|]. etrans; [by eapply IH|].
    by apply sessions_touch_alter.
  - etrans; [exact H1|]. by eapply IH.
Qed.

(** X1.  A retrieval, with or without hierarchy, sends nothing to the memory
    client and leaves the coordination record, the agents, the conflicts and
    the patterns alone.  In the session store it adds and removes no key and
    assigns nothing but [lastAccess], [isActive] and [state]; for an id that
    is not stored it returns [null] and changes nothing at all. *)
Theorem getSessionContext_silent fuel now sid incl o r o' :
  getSessionContext fuel now sid incl o = Some (r, o') →
  client o' = client o ∧ coordination o' = coordination o
  ∧ agents o' = agents o ∧ conflicts o' = conflicts o
  ∧ patterns o' = patterns o
  ∧ sessions_touch o o'
  ∧ dom (sessions o') = dom (sessions o)
  ∧ (sessions o !! sid = None → r = None ∧ o' = o).
Proof.
  intros Hget.
  destruct (getSessionContext_rest _ _ _ _ _ _ _ Hget) as (? & ? & ? & ? & ?).
  pose proof (getSessionContext_touch _ _ _ _ _ _ _ Hget) as Ht.
  repeat (split; [done|]). split.
  - apply set_eq. intros k. rewrite !elem_of_dom. specialize (Ht k).
    destruct Ht; split; intros [? ?]; done.
  - intros Hnone. destruct fuel; simpl in Hget; [done|].
    rewrite Hnone in Hget. by injection Hget as <- <-.
Qed.

Lemma getSessionContext_silent_witness :
  let o := two_level_store ∅ ∅ None in
  ∃ r o',
    getSessionContext 1 300 "session-7-unknown" true o = Some (r, o')
    ∧ r = None ∧ o' = o.
Proof.
  intros o. exists None, o.
  assert (getSessionContext 1 300 "session-7-unknown" true o = Some (None, o))
    as Hget by reflexivity.
  split; [exact Hget|].
  exact (proj2 (proj2 (proj2 (proj2 (proj2 (proj2 (proj2
    (getSessionContext_silent _ _ _ _ _ _ _ Hget))))))) eq_refl).
Defined.

(** X2.  Expiry is observed on read: retrieving a stored session whose age
    exceeds its TTL returns it with [isActive = false] and
    [lastAccess = now], with its own state map (no ancestor is consulted,
    whatever [includeHierarchy] is), and touches no other session. *)
Theorem getSessionContext_expired fuel now sid incl o s :
  sessions o !! sid = Some s →
  expired now s = true →
  ∃ r o',
    getSessionContext (S fuel) now sid incl o = Some (Some r, o')
    ∧ r = set_isActive false (set_lastAccess now s)
    ∧ sessions o' = <[sid := r]> (sessions o).
Proof.
  intros Hs He. simpl. rewrite Hs He. eexists _, _.
  rewrite /= !lookup_alter_eq Hs /=. split; [done|]. split; [done|].
  apply map_eq. intros k. destruct (decide (sid = k)) as [->|Hne].
  - by rewrite lookup_insert_eq !lookup_alter_eq Hs.
  - by rewrite lookup_insert_ne // !lookup_alter_ne.
Qed.

Lemma getSessionContext_expired_witness :
  ∃ r o',
    getSessionContext 1 5000 "session-0-s" true short_lived_store
      = Some (Some r, o')
    ∧ isActive r = false.
Proof.
  destruct (getSessionContext_expired 0 5000 "session-0-s" true
              short_lived_store
              (new_session 0 "s" "coordinator"
                 (session_options None ∅ (Some 1)) (new_orchestrator 0 "k"))
              eq_refl eq_refl) as (r & o' & Hget & Hr & _).
  exists r, o'. split; [exact Hget|]. rewrite Hr. reflexivity.
Defined.

Lemma alter_session_id f k o s :
  sessions o !! k = Some s → f s = s → alter_session f k o = o.
Proof.
  intros Hs Hf. unfold alter_session, with_sessions. destruct o. simpl in *.
  f_equal. apply map_eq. intros j. destruct (decide (k = j)) as [<-|Hne].
  - by rewrite lookup_alter_eq Hs /= Hf.
  - by rewrite lookup_alter_ne.
Qed.

(** X3.  Create then read: a session created with a TTL that is not
    negative and retrieved at the time of its creation is returned as
    created (the session the creating call stored, and returned if its
    audit record was acknowledged), still active, and the retrieval leaves
    the orchestrator as [createSession] left it. *)
Theorem createSession_then_get fuel now rnd agentRole options mem o incl :
  0 ≤ ttl_or_default (opt_ttl options) →
  (incl = true → truthy (opt_parentSessionId options) = None) →
  let s := new_session now rnd agentRole options o in
  let r := createSession now rnd agentRole options mem o in
  getSessionContext (S fuel) now (sess_id s) incl r.2 = Some (Some s, r.2)
  ∧ isActive s = true
  ∧ (mem (session_created s options) = None → r.1 = Client.Ok s)
  ∧ ∀ s', r.1 = Client.Ok s' → s' = s.
Proof.
  intros Httl Hincl. cbv zeta.
  split; [|split; [done|rewrite createSession_returns; cbv zeta; split;
                          [by intros ->|]]].
  - pose proof (createSession_sessions now rnd agentRole options mem o) as Hs.
    set (s := new_session now rnd agentRole options o) in *.
    set (r := createSession now rnd agentRole options mem o) in *.
    assert (sessions r.2 !! sess_id s = Some s) as Hr.
    { rewrite Hs. apply lookup_insert_eq. }
    assert (expired now s = false) as He.
    { unfold expired. apply bool_decide_eq_false. simpl. lia. }
    cbn [getSessionContext].
    rewrite Hr He (alter_session_id _ _ _ s Hr) // Hr.
    assert ((if incl then truthy (parentSessionId s) else None) = None) as ->.
    { destruct incl; [|done]. by apply Hincl. }
    done.
  - destruct (mem _); simpl; by intros s' [= <-].
Qed.

Lemma createSession_then_get_witness :
  let s := new_session 100 "root" "orchestrator"
             (session_options None ∅ None) (new_orchestrator 0 "k") in
  let r := createSession 100 "root" "orchestrator"
             (session_options None ∅ None) reliable_memory
             (new_orchestrator 0 "k") in
  getSessionContext 1 100 "session-100-root" true r.2 = Some (Some s, r.2).
Proof.
  intros s r.
  refine (proj1 (createSession_then_get 0 100 "root" "orchestrator"
                   (session_options None ∅ None) reliable_memory
                   (new_orchestrator 0 "k") true _ _)).
  - simpl. lia.
  - reflexivity.
Defined.

(** ** Conflict resolution *)

(** Everything [escalateToHuman] leaves alone, whatever tier 3 is set to
    and whatever the memory client answers. *)
Lemma escalateToHuman_rest mem c o :
  let r := escalateToHuman mem c o in
  conflicts r.2 = conflicts o ∧ agents r.2 = agents o
  ∧ patterns r.2 = patterns o ∧ sessions_order r.2 = sessions_order o
  ∧ client o `prefix_of` client r.2
  ∧ activeConflicts (conflictResolution (coordination o))
      `prefix_of` activeConflicts (conflictResolution (coordination r.2))
  ∧ performanceMetrics (coordination r.2) = performanceMetrics (coordination o)
  ∧ activeAgents (coordination r.2) = activeAgents (coordination o)
  ∧ sessionHierarchy (coordination r.2) = sessionHierarchy (coordination o)
  ∧ globalPatterns_patterns (coordination r.2)
      = globalPatterns_patterns (coordination o)
  ∧ (r.1 = None
     ∨ ∃ e, r.1 = Some e ∧ mem (escalation_logged c) = Some e ∧ r.2 = o).
Proof.
  cbv zeta. unfold escalateToHuman, storeMemory.
  destruct (negb _); [repeat split; try done; by left|].
  destruct (mem _) as [e|] eqn:Hm; simpl.
  - repeat split; try done. right. by exists e.
  - repeat split; try done; try (by apply prefix_app_r). by left.
Qed.

Lemma resolveConflict_conflicts h now rnd ty items sev meta mem o :
  ∃ c, conflicts (resolveConflict h now rnd ty items sev meta mem o).2
         = <[generated_id "conflict" now rnd := c]> (conflicts o)
    ∧ conflict_id c = generated_id "conflict" now rnd
    ∧ ∀ c', (resolveConflict h now rnd ty items sev meta mem o).1
              = Client.Ok c' → c' = c.
Proof.
  pose proof (resolveConflict_cases h now rnd ty items sev meta mem o)
    as Hcases.
  cbv zeta in Hcases.
  destruct Hcases as [[_ ->]|[(_ & _ & ->)|(_ & _ & -> & ->)]].
  - eexists. split; [done|]. split; [done|]. by intros c' [= <-].
  - eexists. split; [done|]. split; [done|]. by intros c' [= <-].
  - match goal with |- context [escalateToHuman mem ?c3 ?o3] =>
      destruct (escalateToHuman_rest mem c3 o3) as (-> & _);
      exists c3; destruct (escalateToHuman mem c3 o3).1 end.
    + split; [done|]. split; [done|]. by intros c' [=].
    + split; [done|]. split; [done|]. by intros c' [= <-].
Qed.

(** X4.  For every choice of the placeholder helpers, taken as functions
    that return, [resolveConflict] leaves under the generated id a conflict
    that is never pending or in progress: it is either resolved, at tier 1
    or 2 with [resolvedAt] set to the time of the call, or escalated, at
    tier 3 with no [resolvedAt] and an empty strategy.  The conflict
    carries the generated id and the given type, severity and metadata; all
    other entries of the conflict map are kept; sessions, agents and
    patterns are not touched.  The call returns exactly this conflict,
    unless the conflict is escalated and the memory client rejects the
    escalation record: then the call rejects with the client's error, and
    nothing else has changed than the conflict map. *)
Theorem resolveConflict_outcome h now rnd ty items sev meta mem o :
  let r := resolveConflict h now rnd ty items sev meta mem o in
  ∃ c,
    conflicts r.2 = <[conflict_id c := c]> (conflicts o)
    ∧ (status c = Resolved ∧ resolvedAt c = Some now
         ∧ (resolutionTier c = 1 ∨ resolutionTier c = 2)%nat
         ∧ r.1 = Client.Ok c
       ∨ status c = Escalated ∧ resolvedAt c = None
         ∧ resolutionTier c = 3%nat ∧ resolutionStrategy c = ""
         ∧ (r.1 = Client.Ok c
            ∨ ∃ e, r.1 = Client.Fail e
                ∧ mem (escalation_logged c) = Some e
                ∧ r.2 = with_conflicts (insert (conflict_id c) c) o))
    ∧ conflict_id c = generated_id "conflict" now rnd
    ∧ conflict_type c = ty ∧ severity c = sev ∧ metadata c = meta
    ∧ sessions r.2 = sessions o ∧ agents r.2 = agents o
    ∧ patterns r.2 = patterns o.
Proof.
  cbv zeta.
  pose proof (resolveConflict_cases h now rnd ty items sev meta mem o)
    as Hcases.
  cbv zeta in Hcases.
  destruct Hcases as [[_ ->]|[(_ & _ & ->)|(_ & _ & -> & ->)]].
  - match goal with |- context [Client.Ok ?c] => exists c end.
    split; [done|]. split; [|done].
    left. repeat split; try done. by left.
  - match goal with |- context [Client.Ok ?c] => exists c end.
    split; [done|]. split; [|done].
    left. repeat split; try done. by right.
  - match goal with |- context [escalateToHuman mem ?c3 ?o3] =>
      destruct (escalateToHuman_rest mem c3 o3)
        as (-> & -> & -> & _ & _ & _ & _ & _ & _ & _ & Hthrown);
      pose proof (escalateToHuman_sessions mem c3 o3) as ->;
      exists c3 end.
    split; [done|]. split; [|done]. right. repeat split; try done.
    destruct Hthrown as [->|(e & -> & Hm & ->)]; [by left|].
    right. by exists e.
Qed.

Lemma reachable_tiers_enabled h o :
  reachable h o →
  tier1_enabled (tier1 (conflictResolution (coordination o))) = true
  ∧ tier2_enabled (tier2 (conflictResolution (coordination o))) = true
  ∧ contextualAnalysis (tier2 (conflictResolution (coordination o))) = true.
Proof.
  intros [(now & rnd & Hc) _]%reachable_invariant.
  unfold configuration in Hc. by injection Hc as -> -> _.
Qed.

(** X5.  With the helper bodies of the source, on an orchestrator built by
    the constructor, a conflict of one of the four known types is always
    resolved at tier 1 and returned, under the strategy name of its type,
    without any call of the memory client (so whatever the client would
    answer) and without touching the active-conflicts list. *)
Theorem resolveConflict_source_tier1 now rnd ty strat items sev meta mem o :
  reachable source_helpers o →
  (ty, strat) ∈ [("memory_conflict", "memory_deduplication");
                 ("session_conflict", "session_hierarchy_precedence");
                 ("agent_conflict", "agent_precedence");
                 ("pattern_conflict", "pattern_priority")] →
  let r := resolveConflict source_helpers now rnd ty items sev meta mem o in
  ∃ c, r.1 = Client.Ok c
    ∧ conflicts r.2 !! generated_id "conflict" now rnd = Some c
    ∧ status c = Resolved ∧ resolutionTier c = 1%nat
    ∧ resolvedAt c = Some now ∧ resolutionStrategy c = strat
    ∧ client r.2 = client o
    ∧ coordination r.2 = coordination o.
Proof.
  intros [H1 _]%reachable_tiers_enabled Hty. cbv zeta.
  unfold resolveConflict, attemptTier1Resolution. simpl. rewrite H1. simpl.
  repeat (apply elem_of_cons in Hty as [[= -> ->]|Hty];
          [eexists; split; [done|]; simpl; by rewrite lookup_insert_eq|]).
  by apply elem_of_nil in Hty.
Qed.

Lemma resolveConflict_source_tier1_witness :
  let r := resolveConflict source_helpers 10 "r" "memory_conflict"
             ["memory-001"; "memory-002"] "medium" ∅ dead_memory
             (new_orchestrator 0 "k") in
  ∃ c, r.1 = Client.Ok c ∧ status c = Resolved ∧ resolutionTier c = 1%nat
    ∧ resolutionStrategy c = "memory_deduplication".
Proof.
  intros r.
  destruct (resolveConflict_source_tier1 10 "r" "memory_conflict"
              "memory_deduplication" ["memory-001"; "memory-002"] "medium" ∅
              dead_memory (new_orchestrator 0 "k"))
    as (c & Hret & _ & Hst & Htier & _ & Hstrat & _).
  - exists 0, "k". apply rtc_refl.
  - by left.
  - exists c. split; [exact Hret|]. split; [exact Hst|].
    split; [exact Htier|exact Hstrat].
Defined.

Lemma mediators_nil o :
  mediators o = [] ↔ ∀ k a, agents o !! k = Some a → is_mediator a = false.
Proof.
  unfold mediators. split.
  - intros Hnil k a Hk. destruct (is_mediator a) eqn:Hm; [|done].
    assert (In a (List.filter is_mediator (map_to_list (agents o)).*2)) as Hin.
    { apply filter_In. split; [|done]. apply list_elem_of_In.
      apply list_elem_of_fmap. exists (k, a). split; [done|].
      by apply elem_of_map_to_list. }
    rewrite Hnil in Hin. destruct Hin.
  - intros Hall.
    destruct (List.filter is_mediator (map_to_list (agents o)).*2)
      as [|a l] eqn:Hf; [done|].
    assert (In a (List.filter is_mediator (map_to_list (agents o)).*2)) as Hin
      by (rewrite Hf; by left).
    apply filter_In in Hin as [Hin Hm].
    apply list_elem_of_In, list_elem_of_fmap in Hin as ([k a'] & -> & Hin).
    apply elem_of_map_to_list in Hin. rewrite (Hall _ _ Hin) in Hm. done.
Qed.

(** X6.  With the helper bodies of the source, on an orchestrator built by
    the constructor, a conflict whose type is none of the four known ones
    passes tier 1 unresolved and its fate depends only on the agent
    registry: if some registered agent has role [coordinator] or
    [orchestrator] it is resolved at tier 2 by contextual analysis and
    returned; if none has, it is escalated to tier 3, and returned provided
    the memory client acknowledges the escalation record. *)
Theorem resolveConflict_source_mediation now rnd ty items sev meta mem o :
  reachable source_helpers o →
  ty ∉ ["memory_conflict"; "session_conflict"; "agent_conflict";
        "pattern_conflict"] →
  let r := resolveConflict source_helpers now rnd ty items sev meta mem o in
  ((∃ k a, agents o !! k = Some a ∧ is_mediator a = true) →
     ∃ c, r.1 = Client.Ok c
       ∧ conflicts r.2 !! generated_id "conflict" now rnd = Some c
       ∧ status c = Resolved ∧ resolutionTier c = 2%nat
       ∧ resolutionStrategy c = "contextual_analysis")
  ∧ ((∀ k a, agents o !! k = Some a → is_mediator a = false) →
     ∃ c, conflicts r.2 !! generated_id "conflict" now rnd = Some c
       ∧ status c = Escalated ∧ resolutionTier c = 3%nat
       ∧ r.1 = settle (mem (escalation_logged c)) c).
Proof.
  intros Hreach Hty. cbv zeta.
  pose proof (reachable_tier3_enabled _ _ Hreach) as Hen.
  destruct (reachable_tiers_enabled _ _ Hreach) as (H1 & H2 & H3).
  assert (String.eqb ty "memory_conflict" = false
          ∧ String.eqb ty "session_conflict" = false
          ∧ String.eqb ty "agent_conflict" = false
          ∧ String.eqb ty "pattern_conflict" = false) as (E1 & E2 & E3 & E4).
  { repeat split; apply String.eqb_neq; intros ->; apply Hty;
      repeat constructor. }
  pose proof (resolveConflict_cases source_helpers now rnd ty items sev meta
                mem o) as Hcases.
  cbv zeta in Hcases.
  assert (resolved (attemptTier1Resolution source_helpers
                      (new_conflict now rnd ty items sev meta) o) = false)
    as Ht1.
  { unfold attemptTier1Resolution. simpl. by rewrite H1 E1 E2 E3 E4. }
  rewrite Ht1 in Hcases.
  destruct Hcases as [[? _]|[(_ & Ht2 & Hr)|(_ & Ht2 & Hr1 & Hr2)]]; [done| |].
  - split.
    + intros _. rewrite Hr. eexists. split; [done|].
      split; [simpl; by rewrite lookup_insert_eq|].
      split; [done|]. split; [done|]. simpl.
      revert Ht2. unfold attemptTier2Resolution. rewrite H2 H3. simpl.
      by destruct (length (mediators o) =? 0)%nat.
    + intros Hall. exfalso. revert Ht2.
      unfold attemptTier2Resolution. rewrite H2 (proj2 (mediators_nil o) Hall).
      done.
  - split.
    + intros (k & a & Hk & Hm). exfalso. revert Ht2.
      unfold attemptTier2Resolution. rewrite H2 H3. simpl.
      destruct (mediators o) as [|m l] eqn:Hmed; [|done].
      pose proof (proj1 (mediators_nil _) Hmed k a Hk) as Hm'. congruence.
    + intros _.
      match type of Hr2 with _ = (escalateToHuman mem ?c3 ?o3).2 =>
        destruct (escalateToHuman_enabled mem c3 o3 Hen)
          as (Hthrown & Hconf & _); exists c3 end.
      rewrite Hr1 Hr2 Hthrown Hconf. simpl.
      by rewrite lookup_insert_eq.
Qed.

Lemma resolveConflict_source_mediation_witness :
  let o := (registerAgent 5 "coordinator-001" "coordinator"
              ["task-coordination"] reliable_memory
              (new_orchestrator 0 "k")).2 in
  let r := resolveConflict source_helpers 10 "r" "resource_conflict"
             ["a"; "b"] "high" ∅ reliable_memory o in
  ∃ c, r.1 = Client.Ok c ∧ status c = Resolved ∧ resolutionTier c = 2%nat
    ∧ resolutionStrategy c = "contextual_analysis".
Proof.
  intros o r.
  assert (reachable source_helpers o) as Hreach.
  { exists 0, "k". apply rtc_once.
    by apply (step_call _ _ _ 5
                (CallRegisterAgent "coordinator-001" "coordinator"
                   ["task-coordination"] reliable_memory)). }
  assert ("resource_conflict" ∉ ["memory_conflict"; "session_conflict";
                                 "agent_conflict"; "pattern_conflict"]) as Hty.
  { intros Hin. repeat (apply elem_of_cons in Hin as [[=]|Hin]).
    by apply elem_of_nil in Hin. }
  destruct (proj1 (resolveConflict_source_mediation 10 "r" "resource_conflict"
                     ["a"; "b"] "high" ∅ reliable_memory o Hreach Hty))
    as (c & Hret & _ & Hst & Htier & Hstrat).
  - exists "coordinator-001",
      (new_agent 5 "coordinator-001" "coordinator" ["task-coordination"]).
    split; [apply lookup_insert_eq|reflexivity].
  - exists c. split; [exact Hret|]. split; [exact Hst|].
    split; [exact Htier|exact Hstrat].
Defined.

(** ** Pattern store *)

(** X7.  [applyPattern] works on one pattern only.  It never calls the
    memory client and never touches sessions, agents or conflicts; an
    unknown pattern id gives [false] and no change at all; the pattern
    applied keeps its id, type, conditions, actions, confidence and
    contexts; every other pattern is left as it was; and the
    [patternsApplied] metric moves, by one, exactly when the call returns
    [true]. *)
Theorem applyPattern_frame h now pid ctx o :
  let r := applyPattern h now pid ctx o in
  sessions r.2 = sessions o ∧ agents r.2 = agents o
  ∧ conflicts r.2 = conflicts o ∧ client r.2 = client o
  ∧ (patterns o !! pid = None → r = (false, o))
  ∧ (∀ k, k ≠ pid → patterns r.2 !! k = patterns o !! k)
  ∧ (∀ p, patterns o !! pid = Some p →
       ∃ p', patterns r.2 !! pid = Some p'
         ∧ pattern_id p' = pattern_id p ∧ pattern_type p' = pattern_type p
         ∧ conditions p' = conditions p ∧ actions p' = actions p
         ∧ confidence p' = confidence p
         ∧ applicableContexts p' = applicableContexts p)
  ∧ patternsApplied (performanceMetrics (coordination r.2))
      = ((if r.1 then 1 else 0)
         + patternsApplied (performanceMetrics (coordination o)))%nat.
Proof.
  cbv zeta. unfold applyPattern.
  destruct (patterns o !! pid) as [p|] eqn:Hp; [|by repeat split].
  destruct (JsNum.ltb _ _).
  { repeat split; try done. intros p' [= ->]. by exists p'. }
  destruct (executePatternActions _ _ _); simpl;
    repeat split; try done;
    try (intros k Hk; by rewrite lookup_insert_ne);
    intros p' [= ->]; eexists; by rewrite lookup_insert_eq.
Qed.

Lemma Qred_inject_Z z : Qred (inject_Z z) = inject_Z z.
Proof. apply Qred_identity. simpl. apply Z.gcd_1_r. Qed.

Lemma of_nat_S_nonzero k : Q2Qc (inject_Z (Z.of_nat (S k))) ≠ 0%Qc.
Proof.
  intros H. apply (f_equal this) in H. simpl in H.
  rewrite Qred_inject_Z in H. discriminate H.
Qed.

Lemma sgn_of_nat_S k : JsNum.sgn (Q2Qc (inject_Z (Z.of_nat (S k)))) = Gt.
Proof. unfold JsNum.sgn. simpl. by rewrite Qred_inject_Z. Qed.

(** The running average after one more success is 1 when it was 1, and
    when nothing had been counted yet. *)
Lemma record_success_rate now p :
  successRate p = JsNum.of_Z 1
  ∨ (usageCount p = 0%nat ∧ successRate p = JsNum.of_Z 0) →
  successRate (record_success now p) = JsNum.of_Z 1.
Proof.
  intros Hp. unfold record_success, running_average. simpl.
  destruct Hp as [->|[-> ->]].
  - unfold JsNum.of_nat, JsNum.of_Z, JsNum.sub, JsNum.mul, JsNum.add,
      JsNum.div, JsNum.neg.
    rewrite sgn_of_nat_S. f_equal.
    pose proof (of_nat_S_nonzero (usageCount p)) as Hnz.
    set (n := Q2Qc (inject_Z (Z.of_nat (S (usageCount p))))) in *.
    change (Q2Qc (inject_Z 1)) with 1%Qc. by field.
  - unfold JsNum.of_nat, JsNum.of_Z, JsNum.sub, JsNum.mul, JsNum.add,
      JsNum.div, JsNum.neg.
    rewrite sgn_of_nat_S. by f_equal.
Qed.

(** Everything [resolveConflict] leaves alone or only adds to. *)
Lemma resolveConflict_rest h now rnd ty items sev meta mem o :
  let o' := (resolveConflict h now rnd ty items sev meta mem o).2 in
  agents o' = agents o ∧ patterns o' = patterns o
  ∧ sessions_order o' = sessions_order o
  ∧ client o `prefix_of` client o'
  ∧ activeConflicts (conflictResolution (coordination o))
      `prefix_of` activeConflicts (conflictResolution (coordination o'))
  ∧ performanceMetrics (coordination o') = performanceMetrics (coordination o)
  ∧ activeAgents (coordination o') = activeAgents (coordination o)
  ∧ sessionHierarchy (coordination o') = sessionHierarchy (coordination o)
  ∧ globalPatterns_patterns (coordination o')
      = globalPatterns_patterns (coordination o).
Proof.
  cbv zeta.
  pose proof (resolveConflict_cases h now rnd ty items sev meta mem o)
    as Hcases.
  cbv zeta in Hcases.
  destruct Hcases as [[_ ->]|[(_ & _ & ->)|(_ & _ & _ & ->)]]; [done..|].
  match goal with |- context [escalateToHuman mem ?c3 ?o3] =>
    destruct (escalateToHuman_rest mem c3 o3)
      as (_ & -> & -> & -> & ? & ? & -> & -> & -> & -> & _) end.
  done.
Qed.

Lemma perform_patterns h now c o o' :
  perform h now c o = Some o' →
  patterns o' =
    match c with
    | CallLearnPattern rnd type context action applicableContexts _ =>
        <[generated_id ("pattern-" +:+ type) now rnd :=
            new_pattern now rnd type context action applicableContexts]>
          (patterns o)
    | CallApplyPattern pid ctx => patterns (applyPattern h now pid ctx o).2
    | _ => patterns o
    end.
Proof.
  destruct_call c; simpl.
  - intros [= <-].
    by destruct (createSession_rest now rnd agentRole options mem o)
      as (_ & _ & -> & _).
  - intros [= <-].
    by destruct (registerAgent_rest now agentId role specialization mem o)
      as (_ & _ & -> & _).
  - intros [= <-].
    by destruct (resolveConflict_rest h now rnd conflictType involvedItems
                   severity metadata mem o) as (_ & -> & _).
  - intros [= <-].
    by destruct (learnPattern_rest now rnd type context action
                   applicableContexts mem o) as (_ & _ & -> & _).
  - by intros [= <-].
  - destruct (getSessionContext _ _ _ _ _) as [[r o1]|] eqn:E; [|done].
    intros [= <-].
    by destruct (getSessionContext_rest _ _ _ _ _ _ _ E) as (_&_&_&_&?).
  - intros [= <-].
    by destruct (cleanupExpiredSessions_rest now mem o)
      as (_ & _ & _ & _ & _ & _ & _ & _ & -> & _).
Qed.

(** X8.  With the helper bodies of the source, on an orchestrator built by
    the constructor, the statistics of every stored pattern stay sound,
    whatever the memory client answered along the way: its confidence is
    the initial 0.5, and its success rate is 0 while it has never been
    applied and exactly 1 once it has; so it always lies in the interval
    [0, 1]. *)
Theorem source_pattern_statistics o k p :
  reachable source_helpers o →
  patterns o !! k = Some p →
  confidence p = JsNum.lit 5 10
  ∧ (usageCount p = 0%nat ∧ successRate p = JsNum.of_Z 0
     ∨ (0 < usageCount p)%nat ∧ successRate p = JsNum.of_Z 1)
  ∧ JsNum.in_unit_interval (successRate p) = true.
Proof.
  intros (now0 & rnd0 & Hrun). revert o Hrun k p.
  assert (∀ p, (usageCount p = 0%nat ∧ successRate p = JsNum.of_Z 0
                ∨ (0 < usageCount p)%nat ∧ successRate p = JsNum.of_Z 1) →
               JsNum.in_unit_interval (successRate p) = true) as Hunit.
  { intros p [[_ ->]|[_ ->]]; done. }
  enough (∀ o, rtc (step source_helpers) (new_orchestrator now0 rnd0) o →
            ∀ k p, patterns o !! k = Some p →
              confidence p = JsNum.lit 5 10
              ∧ (usageCount p = 0%nat ∧ successRate p = JsNum.of_Z 0
                 ∨ (0 < usageCount p)%nat ∧ successRate p = JsNum.of_Z 1))
    as Hinv.
  { intros o Hrun k p Hk. destruct (Hinv o Hrun k p Hk) as [Hc Hs].
    split; [done|]. split; [done|]. by apply Hunit. }
  apply (rtc_ind_r (λ o, ∀ k p, patterns o !! k = Some p → _)).
  { intros k p. by rewrite lookup_empty. }
  intros o1 o2 _ [now c _ Hperf] IH k p Hk.
  rewrite (perform_patterns _ _ _ _ _ Hperf) in Hk. destruct c; eauto.
  - (* learnPattern *)
    apply lookup_insert_Some in Hk as [[_ <-]|[_ Hk]]; [|by eauto].
    split; [done|]. by left.
  - (* applyPattern *)
    unfold applyPattern in Hk.
    destruct (patterns o1 !! patternId) as [q|] eqn:Hq; [|by eauto].
    simpl in Hk.
    apply lookup_insert_Some in Hk as [[_ <-]|[_ Hk]]; [|by eauto].
    destruct (IH _ _ Hq) as [Hc Hs]. split; [done|]. right.
    split; [simpl; lia|]. apply record_success_rate. tauto.
Qed.

Lemma source_pattern_statistics_witness :
  let o1 := (learnPattern 0 "p" "workflow" ∅ ∅ [] dead_memory
               (new_orchestrator 0 "k")).2 in
  let pid := generated_id "pattern-workflow" 0 "p" in
  let o2 := (applyPattern source_helpers 5 pid ∅ o1).2 in
  ∃ p, patterns o2 !! pid = Some p ∧ successRate p = JsNum.of_Z 1.
Proof.
  intros o1 pid o2.
  assert (reachable source_helpers o2) as Hreach.
  { exists 0, "k". eapply rtc_l; [|apply rtc_once].
    - by apply (step_call _ _ _ 0
                  (CallLearnPattern "p" "workflow" ∅ ∅ [] dead_memory)).
    - by apply (step_call _ _ _ 5 (CallApplyPattern pid ∅)). }
  assert (patterns o2 !! pid
          = Some (record_success 5 (new_pattern 0 "p" "workflow" ∅ ∅ [])))
    as Hp by (vm_compute; reflexivity).
  eexists. split; [exact Hp|].
  destruct (source_pattern_statistics o2 pid _ Hreach Hp)
    as (_ & [[Hz _]|[_ Hs]] & _); [discriminate Hz|exact Hs].
Defined.

(** ** Expiry sweep *)

Lemma expired_mono now now' s :
  now ≤ now' → expired now s = true → expired now' s = true.
Proof.
  unfold expired. intros Hle He.
  apply bool_decide_eq_true in He. apply bool_decide_eq_true. lia.
Qed.

Lemma expire_expire now now' s :
  now ≤ now' → expire now' (expire now s) = expire now' s.
Proof.
  intros Hle. unfold expire.
  destruct (expired now s) eqn:He; [|done].
  by rewrite expired_set_isActive (expired_mono _ _ _ Hle He).
Qed.

(** A sweep whose records are all acknowledged. *)
Lemma cleanupExpiredSessions_complete now mem o :
  ordered o →
  (∀ k s, sessions o !! k = Some s → expired now s = true →
     mem (session_expired now (k, s)) = None) →
  sessions (cleanupExpiredSessions now mem o).2 = expire now <$> sessions o
  ∧ (cleanupExpiredSessions now mem o).1
      = Client.Ok (size (expired_sessions now o))
  ∧ visited now mem (sessions_entries o) = sessions_entries o.
Proof.
  intros Ho Hack.
  pose proof (sessions_entries_ordered o Ho) as (_ & Hin & _).
  assert (rejection now mem (sessions_entries o) = None) as Hr.
  { apply rejection_None. intros [k s] Hk He. apply Hack; [by apply Hin|done]. }
  split; [|split].
  - apply map_eq. intros k.
    rewrite cleanupExpiredSessions_lookup // lookup_fmap (visited_all _ _ _ Hr).
    destruct (sessions o !! k) as [s|] eqn:Hk; [|done]. simpl.
    rewrite decide_True //. apply list_elem_of_fmap. exists (k, s).
    split; [done|]. by apply Hin.
  - by rewrite cleanupExpiredSessions_outcome // Hr.
  - by apply visited_all.
Qed.

Lemma cleanupExpiredSessions_ordered now mem o :
  ordered o → ordered (cleanupExpiredSessions now mem o).2.
Proof.
  apply ordered_same.
  - by destruct (cleanupExpiredSessions_rest now mem o)
      as (_ & _ & _ & _ & _ & _ & _ & _ & _ & ->).
  - apply sessions_touch_dom, cleanupExpiredSessions_touch.
Qed.

(** Whether a session is expired does not depend on the fields a sweep or
    a retrieval assigns. *)
Lemma expired_touch now s s' : session_touch s s' → expired now s' = expired now s.
Proof.
  intros Ht. unfold expired.
  by rewrite (touch_createdAt _ _ Ht) (touch_ttl _ _ Ht).
Qed.

Lemma expired_sessions_touch now o o' :
  sessions_touch o o' →
  size (expired_sessions now o') = size (expired_sessions now o).
Proof.
  intros Ht. rewrite -!size_dom. f_equal. apply set_eq. intros k.
  unfold expired_sessions. rewrite !elem_of_dom. specialize (Ht k).
  split; intros [s [Hs He]%map_lookup_filter_Some]; simpl in He;
    rewrite Hs in Ht; inversion Ht as [s1 s2 Hss H1 H2|]; subst.
  - exists s1. apply map_lookup_filter_Some. split; [done|]. simpl.
    by rewrite -(expired_touch now _ _ Hss).
  - exists s2. apply map_lookup_filter_Some. split; [done|]. simpl.
    by rewrite (expired_touch now _ _ Hss).
Qed.

(** X9.  A sweep whose records are all acknowledged absorbs every earlier
    sweep, however that one ended: after a sweep at [now] (completed or
    rejected) and then a sweep at a later time [now'] during which the
    memory client acknowledges the record of every session expired at
    [now'], the session store is exactly as one such sweep at [now'] alone
    would have left it, and the second sweep returns the count that single
    sweep would have returned, the number of stored sessions expired at
    [now'], which is at least the count of the first sweep if that one
    returned.  In particular repeating an acknowledged sweep at the same
    time changes nothing in the store and returns the same count. *)
Theorem cleanupExpiredSessions_later now now' mem mem' o :
  ordered o →
  now ≤ now' →
  (∀ k s, sessions o !! k = Some s → expired now' s = true →
     mem' (session_expired now' (k, s)) = None) →
  let r1 := cleanupExpiredSessions now mem o in
  let r2 := cleanupExpiredSessions now' mem' r1.2 in
  sessions r2.2 = expire now' <$> sessions o
  ∧ sessions r2.2 = sessions (cleanupExpiredSessions now' mem' o).2
  ∧ r2.1 = Client.Ok (size (expired_sessions now' o))
  ∧ r2.1 = (cleanupExpiredSessions now' mem' o).1
  ∧ ∀ n, r1.1 = Client.Ok n → (n ≤ size (expired_sessions now' o))%nat.
Proof.
  intros Ho Hle Hack. cbv zeta.
  destruct (cleanupExpiredSessions_complete now' mem' o Ho Hack)
    as (Hs & Hn & _).
  pose proof (cleanupExpiredSessions_touch now mem o) as Ht.
  pose proof (cleanupExpiredSessions_ordered now mem o Ho) as Ho1.
  assert (∀ k s, sessions (cleanupExpiredSessions now mem o).2 !! k = Some s →
            expired now' s = true →
            mem' (session_expired now' (k, s)) = None) as Hack1.
  { intros k s1 Hk He. specialize (Ht k). rewrite Hk in Ht.
    inversion Ht as [s ? Hss Hs0|]; subst. symmetry in Hs0.
    unfold session_expired. simpl.
    rewrite (touch_createdAt _ _ Hss) (touch_ttl _ _ Hss).
    apply (Hack k s Hs0). by rewrite -(expired_touch now' _ _ Hss). }
  destruct (cleanupExpiredSessions_complete now' mem' _ Ho1 Hack1)
    as (Hs2 & Hn2 & _).
  assert (sessions (cleanupExpiredSessions now' mem'
                      (cleanupExpiredSessions now mem o).2).2
          = expire now' <$> sessions o) as Hfinal.
  { rewrite Hs2. apply map_eq. intros k.
    rewrite !lookup_fmap cleanupExpiredSessions_lookup //.
    destruct (sessions o !! k) as [s|]; [|done]. simpl. f_equal.
    case_decide; [by apply expire_expire|done]. }
  split; [done|]. split; [by rewrite Hfinal Hs|].
  rewrite Hn2 (expired_sessions_touch now' _ _ Ht).
  split; [done|]. split; [by rewrite Hn|].
  intros n. rewrite cleanupExpiredSessions_outcome //.
  destruct (rejection now mem (sessions_entries o)); [done|].
  intros [= <-]. apply map_subseteq_size. unfold expired_sessions.
  apply map_filter_subseteq_ext. intros k s _. by apply expired_mono.
Qed.

Lemma cleanupExpiredSessions_later_witness :
  let r1 := cleanupExpiredSessions 5000 first_write_fails
              two_short_lived_store in
  let r2 := cleanupExpiredSessions 6000 reliable_memory r1.2 in
  (∃ e, r1.1 = Client.Fail e)
  ∧ sessions r2.2
      = sessions (cleanupExpiredSessions 6000 reliable_memory
                    two_short_lived_store).2
  ∧ r2.1 = Client.Ok 2%nat.
Proof.
  intros r1 r2.
  pose proof (reachable_ordered _ _ two_short_lived_store_reachable) as Ho.
  destruct (cleanupExpiredSessions_later 5000 6000 first_write_fails
              reliable_memory two_short_lived_store Ho)
    as (_ & Hsame & Hcount & _); [lia|done|].
  split; [eexists; by vm_compute|]. split; [exact Hsame|].
  rewrite Hcount. by vm_compute.
Defined.

(** What the iterations of the sweep leave outside the session store. *)
Lemma cleanup_loop_trail now mem l : ∀ n o,
  let r := cleanup_loop now mem l n o in
  let seen := filter (λ e, expired now e.2 = true) (visited now mem l) in
  let acknowledged :=
    filter (λ e, mem (session_expired now e) = None) seen in
  client r.2 = client o ++ (session_expired now <$> acknowledged)
  ∧ sessionHierarchy (coordination r.2)
      = sessionHierarchy (coordination o) ∖ list_to_set seen.*1.
Proof.
  induction l as [|[k s] l IH]; intros n o; cbv zeta.
  { simpl. by rewrite right_id_L difference_empty_L. }
  cbn [cleanup_loop visited snd]. destruct (expired now s) eqn:He.
  - unfold storeMemory.
    destruct (mem (session_expired now (k, s))) as [e|] eqn:Hm.
    + rewrite (filter_cons_True (λ e, expired now e.2 = true)) // filter_nil.
      rewrite (filter_cons_False (λ e, mem (session_expired now e) = None));
        [|by rewrite Hm].
      rewrite filter_nil /= right_id_L. split; [done|].
      f_equal. by rewrite right_id_L.
    + specialize (IH (S n)
        (recorded (session_expired now (k, s))
           (with_coordination (with_sessionHierarchy (λ m, m ∖ {[k]}))
              (alter_session (set_isActive false) k o)))).
      cbv zeta in IH. destruct IH as [-> ->].
      rewrite (filter_cons_True (λ e, expired now e.2 = true)) //.
      rewrite (filter_cons_True (λ e, mem (session_expired now e) = None)) //.
      simpl. split; [by rewrite -app_assoc|].
      by rewrite difference_difference_l_L.
  - specialize (IH n o). cbv zeta in IH. destruct IH as [-> ->].
    rewrite (filter_cons_False (λ e, expired now e.2 = true)); [done|].
    simpl. by rewrite He.
Qed.

Lemma acknowledged_all now mem l :
  rejection now mem l = None →
  filter (λ e, mem (session_expired now e) = None)
    (filter (λ e, expired now e.2 = true) l)
  = filter (λ e, expired now e.2 = true) l.
Proof.
  induction l as [|e l IH]; simpl; [done|].
  destruct (expired now e.2) eqn:He.
  - destruct (mem (session_expired now e)) eqn:Hm; [done|].
    intros Hr.
    rewrite (filter_cons_True (λ e, expired now e.2 = true)) //.
    rewrite (filter_cons_True (λ e, mem (session_expired now e) = None)) //.
    by rewrite IH.
  - intros Hr.
    rewrite (filter_cons_False (λ e, expired now e.2 = true));
      [by apply IH|by rewrite He].
Qed.

Lemma acknowledged_rejected now mem l err :
  rejection now mem l = Some err →
  ∃ entry,
    filter (λ e, expired now e.2 = true) (visited now mem l)
    = filter (λ e, mem (session_expired now e) = None)
        (filter (λ e, expired now e.2 = true) (visited now mem l))
      ++ [entry]
    ∧ mem (session_expired now entry) = Some err.
Proof.
  induction l as [|e l IH]; simpl; [done|].
  destruct (expired now e.2) eqn:He.
  - destruct (mem (session_expired now e)) as [err'|] eqn:Hm.
    + intros [= ->]. exists e.
      rewrite (filter_cons_True (λ e, expired now e.2 = true)) // filter_nil.
      rewrite (filter_cons_False (λ e, mem (session_expired now e) = None));
        [done|by rewrite Hm].
    + intros (entry & Hseen & Hrej)%IH. exists entry.
      rewrite (filter_cons_True (λ e, expired now e.2 = true)) //.
      rewrite (filter_cons_True (λ e, mem (session_expired now e) = None)) //.
      split; [|done]. simpl. by rewrite -Hseen.
  - intros (entry & Hseen & Hrej)%IH. exists entry.
    rewrite (filter_cons_False (λ e, expired now e.2 = true));
      [done|by rewrite He].
Qed.

(** X10.  The sweep reports expired sessions to the memory client and to
    nothing else.  The audit trail grows by exactly the acknowledged
    records, one per expired session the sweep got to, in the order of the
    session map and carrying the session's id, age and TTL; the ids of the
    expired sessions it got to are removed from the coordination record's
    session hierarchy; agents, conflicts and patterns are not touched.
    When the sweep returns, the returned count is the number of records
    written, there is exactly one for each stored session that is expired
    at [now], and the ids removed are those of all these sessions.  When it
    is rejected, the rejected record is that of the last session it got
    to. *)
Theorem cleanupExpiredSessions_audit now mem o :
  ordered o →
  let r := cleanupExpiredSessions now mem o in
  let seen := filter (λ e, expired now e.2 = true)
                (visited now mem (sessions_entries o)) in
  let acknowledged :=
    filter (λ e, mem (session_expired now e) = None) seen in
  client r.2 = client o ++ (session_expired now <$> acknowledged)
  ∧ sessionHierarchy (coordination r.2)
      = sessionHierarchy (coordination o) ∖ list_to_set seen.*1
  ∧ (∀ n, r.1 = Client.Ok n →
       n = length acknowledged
       ∧ n = size (expired_sessions now o)
       ∧ (∀ e, e ∈ (session_expired now <$> acknowledged) ↔
            ∃ k s, sessions o !! k = Some s ∧ expired now s = true
              ∧ e = SessionExpired k (now - createdAt s) (ttl s))
       ∧ sessionHierarchy (coordination r.2)
           = sessionHierarchy (coordination o)
               ∖ dom (expired_sessions now o))
  ∧ (∀ e, r.1 = Client.Fail e →
       ∃ entry, seen = acknowledged ++ [entry]
         ∧ mem (session_expired now entry) = Some e)
  ∧ agents r.2 = agents o ∧ conflicts r.2 = conflicts o
  ∧ patterns r.2 = patterns o.
Proof.
  intros Ho. cbv zeta.
  pose proof (sessions_entries_ordered o Ho) as (_ & Hin & _).
  pose proof (cleanup_loop_trail now mem (sessions_entries o) 0%nat o) as Ht.
  cbv zeta in Ht. destruct Ht as [Hc Hh].
  fold (cleanupExpiredSessions now mem o) in Hc, Hh.
  destruct (cleanupExpiredSessions_rest now mem o)
    as (_ & _ & _ & _ & _ & _ & Ha & Hcf & Hp & _).
  split; [done|]. split; [done|]. split; [|split; [|done]].
  - intros n. rewrite cleanupExpiredSessions_outcome //.
    destruct (rejection now mem (sessions_entries o)) eqn:Hr; [done|].
    intros [= <-]. rewrite Hh (visited_all _ _ _ Hr) (acknowledged_all _ _ _ Hr).
    split; [by rewrite -expired_entries_size|]. split; [done|]. split.
    + intros e. rewrite list_elem_of_fmap. split.
      * intros ([k s] & -> & [He Hk%Hin]%list_elem_of_filter).
        by exists k, s.
      * intros (k & s & Hk & He & ->). exists (k, s). split; [done|].
        apply list_elem_of_filter. split; [done|]. by apply Hin.
    + f_equal. symmetry. unfold expired_sessions.
      apply dom_filter_L. intros k.
      rewrite elem_of_list_to_set list_elem_of_fmap. split.
      * intros ([k' s] & -> & [He Hk%Hin]%list_elem_of_filter).
        by exists s.
      * intros (s & Hk & He). exists (k, s). split; [done|].
        apply list_elem_of_filter. split; [done|]. by apply Hin.
  - intros e. rewrite cleanupExpiredSessions_outcome //.
    destruct (rejection now mem (sessions_entries o)) eqn:Hr; [|done].
    intros [= <-]. by apply acknowledged_rejected.
Qed.

Lemma cleanupExpiredSessions_audit_witness :
  let r := cleanupExpiredSessions 5000 reliable_memory
             two_short_lived_store in
  client r.2 = client two_short_lived_store
                 ++ [SessionExpired "session-0-s" 5000 1;
                     SessionExpired "session-1-t" 4999 1].
Proof.
  intros r.
  pose proof (reachable_ordered _ _ two_short_lived_store_reachable) as Ho.
  destruct (cleanupExpiredSessions_audit 5000 reliable_memory
              two_short_lived_store Ho) as (Htrail & _).
  rewrite Htrail. by vm_compute.
Defined.

(** ** Invariants of runs *)

Lemma createSession_dom now rnd agentRole options mem o :
  dom (sessions (createSession now rnd agentRole options mem o).2)
    = {[generated_id "session" now rnd]} ∪ dom (sessions o).
Proof.
  rewrite createSession_sessions dom_insert_L.
  destruct (truthy _); simpl; [|done]. by rewrite dom_alter_L.
Qed.

Lemma applyPattern_dom h now pid ctx o :
  dom (patterns (applyPattern h now pid ctx o).2) = dom (patterns o).
Proof.
  unfold applyPattern. destruct (patterns o !! pid) as [p|] eqn:Hp; [|done].
  assert ({[pid]} ∪ dom (patterns o) = dom (patterns o)) as Hin.
  { apply subseteq_union_1_L, singleton_subseteq_l, elem_of_dom. eauto. }
  repeat case_match; simpl; by rewrite ?dom_insert_L.
Qed.

Lemma applyPattern_rest h now pid ctx o :
  let o' := (applyPattern h now pid ctx o).2 in
  client o' = client o ∧ agents o' = agents o ∧ conflicts o' = conflicts o
  ∧ conflictResolution (coordination o') = conflictResolution (coordination o)
  ∧ activeAgents (coordination o') = activeAgents (coordination o)
  ∧ sessionHierarchy (coordination o') = sessionHierarchy (coordination o)
  ∧ globalPatterns_patterns (coordination o')
      = globalPatterns_patterns (coordination o)
  ∧ patternsLearned (performanceMetrics (coordination o'))
      = patternsLearned (performanceMetrics (coordination o))
  ∧ (patternsApplied (performanceMetrics (coordination o))
     ≤ patternsApplied (performanceMetrics (coordination o')))%nat.
Proof.
  cbv zeta. unfold applyPattern.
  repeat case_match; simpl; repeat split; try done; lia.
Qed.


Lemma resolveConflict_dom h now rnd ty items sev meta mem o :
  dom (conflicts o)
    ⊆ dom (conflicts (resolveConflict h now rnd ty items sev meta mem o).2).
Proof.
  destruct (resolveConflict_conflicts h now rnd ty items sev meta mem o)
    as (c & -> & _).
  rewrite dom_insert_L. apply union_subseteq_r.
Qed.

Lemma client_prefix_if (b : option Client.JsError) (l : list AuditEvent) e :
  l `prefix_of` (if b is None then l ++ [e] else l).
Proof. destruct b; [done|]. by apply prefix_app_r. Qed.

(** What one call may do to the stores, as far as growth is concerned. *)
Lemma perform_grows h now c o o' :
  perform h now c o = Some o' →
  client o `prefix_of` client o'
  ∧ dom (sessions o) ⊆ dom (sessions o')
  ∧ dom (agents o) ⊆ dom (agents o')
  ∧ dom (patterns o) ⊆ dom (patterns o')
  ∧ dom (conflicts o) ⊆ dom (conflicts o')
  ∧ activeConflicts (conflictResolution (coordination o))
      `prefix_of` activeConflicts (conflictResolution (coordination o'))
  ∧ (patternsLearned (performanceMetrics (coordination o))
     ≤ patternsLearned (performanceMetrics (coordination o')))%nat
  ∧ (patternsApplied (performanceMetrics (coordination o))
     ≤ patternsApplied (performanceMetrics (coordination o')))%nat.
Proof.
  intros Hperf.
  assert (dom (patterns o) ⊆ dom (patterns o')) as Hpat.
  { rewrite (perform_patterns _ _ _ _ _ Hperf). destruct c; try done.
    - rewrite dom_insert_L. apply union_subseteq_r.
    - by rewrite applyPattern_dom. }
  destruct_call c; simpl in Hperf.
  - injection Hperf as <-. rewrite createSession_dom.
    destruct (createSession_rest now rnd agentRole options mem o)
      as (-> & -> & _ & -> & _ & _ & -> & _ & ->).
    split; [apply client_prefix_if|]. split; [apply union_subseteq_r|]. done.
  - injection Hperf as <-. rewrite registerAgent_sessions.
    destruct (registerAgent_rest now agentId role specialization mem o)
      as (-> & -> & _ & _ & -> & _ & _ & -> & _ & ->).
    split; [apply client_prefix_if|]. split; [done|].
    split; [rewrite dom_insert_L; apply union_subseteq_r|]. done.
  - injection Hperf as <-. rewrite resolveConflict_sessions.
    pose proof (resolveConflict_dom h now rnd conflictType involvedItems
                  severity metadata mem o) as Hdom.
    destruct (resolveConflict_rest h now rnd conflictType involvedItems
                severity metadata mem o) as (-> & _ & _ & ? & ? & -> & _).
    done.
  - injection Hperf as <-. rewrite learnPattern_sessions.
    simpl in Hpat.
    destruct (learnPattern_rest now rnd type context action
                applicableContexts mem o)
      as (-> & -> & _ & _ & -> & _ & _ & _ & -> & -> & ->).
    split; [apply client_prefix_if|]. repeat (split; [done|]).
    split; [lia|done].
  - injection Hperf as <-. rewrite applyPattern_sessions.
    destruct (applyPattern_rest h now patternId currentContext o)
      as (-> & -> & -> & -> & _ & _ & _ & -> & ?).
    done.
  - destruct (getSessionContext _ _ _ _ _) as [[r o1]|] eqn:E; [|done].
    injection Hperf as <-.
    destruct (getSessionContext_rest _ _ _ _ _ _ _ E)
      as (-> & -> & -> & -> & ?).
    rewrite (sessions_touch_dom _ _ (getSessionContext_touch _ _ _ _ _ _ _ E)).
    done.
  - injection Hperf as <-.
    destruct (cleanupExpiredSessions_rest now mem o)
      as (? & _ & _ & -> & _ & -> & -> & -> & _).
    rewrite (sessions_touch_dom _ _ (cleanupExpiredSessions_touch now mem o)).
    done.
Qed.

(** X11.  Nothing is ever deleted or rewritten along a run of calls,
    fulfilled or rejected: the audit trail of acknowledged writes and the
    active-conflicts list are only appended to, the key sets of the
    session, agent, pattern and conflict maps only grow, and the
    learned/applied pattern counters never decrease. *)
Theorem run_only_grows h o o' :
  rtc (step h) o o' →
  client o `prefix_of` client o'
  ∧ dom (sessions o) ⊆ dom (sessions o')
  ∧ dom (agents o) ⊆ dom (agents o')
  ∧ dom (patterns o) ⊆ dom (patterns o')
  ∧ dom (conflicts o) ⊆ dom (conflicts o')
  ∧ activeConflicts (conflictResolution (coordination o))
      `prefix_of` activeConflicts (conflictResolution (coordination o'))
  ∧ (patternsLearned (performanceMetrics (coordination o))
     ≤ patternsLearned (performanceMetrics (coordination o')))%nat
  ∧ (patternsApplied (performanceMetrics (coordination o))
     ≤ patternsApplied (performanceMetrics (coordination o')))%nat.
Proof.
  induction 1 as [o|o1 o2 o3 [now c _ Hperf] _ IH].
  { repeat split; done. }
  destruct (perform_grows _ _ _ _ _ Hperf)
    as (H1 & H2 & H3 & H4 & H5 & H6 & H7 & H8).
  destruct IH as (I1 & I2 & I3 & I4 & I5 & I6 & I7 & I8).
  split; [by etrans|]. split; [by etrans|]. split; [by etrans|].
  split; [by etrans|]. split; [by etrans|]. split; [by etrans|].
  split; lia.
Qed.

Lemma run_only_grows_witness :
  let o := short_lived_store in
  let o' := (cleanupExpiredSessions 5000 reliable_memory o).2 in
  client o `prefix_of` client o' ∧ dom (sessions o) ⊆ dom (sessions o').
Proof.
  intros o o'.
  assert (rtc (step source_helpers) o o') as Hrun.
  { apply rtc_once.
    by apply (step_call _ _ _ 5000
                (CallCleanupExpiredSessions reliable_memory)). }
  destruct (run_only_grows source_helpers o o' Hrun) as (H1 & H2 & _).
  split; [exact H1|exact H2].
Defined.

Lemma applyPattern_lookup h now pid ctx o k p' :
  patterns (applyPattern h now pid ctx o).2 !! k = Some p' →
  ∃ p, patterns o !! k = Some p ∧ pattern_id p' = pattern_id p.
Proof.
  unfold applyPattern. destruct (patterns o !! pid) as [p|] eqn:Hp; [|by eauto].
  destruct (JsNum.ltb _ _); [by eauto|].
  destruct (executePatternActions _ _ _); simpl;
    (intros [[<- <-]|[_ Hk]]%lookup_insert_Some; [by eauto|by eauto]).
Qed.

Lemma perform_agents h now c o o' :
  perform h now c o = Some o' →
  agents o' =
    match c with
    | CallRegisterAgent agentId role specialization _ =>
        <[agentId := new_agent now agentId role specialization]> (agents o)
    | _ => agents o
    end.
Proof.
  destruct_call c; simpl.
  - intros [= <-].
    by destruct (createSession_rest now rnd agentRole options mem o)
      as (-> & _).
  - intros [= <-].
    by destruct (registerAgent_rest now agentId role specialization mem o)
      as (-> & _).
  - intros [= <-].
    by destruct (resolveConflict_rest h now rnd conflictType involvedItems
                   severity metadata mem o) as (-> & _).
  - intros [= <-].
    by destruct (learnPattern_rest now rnd type context action
                   applicableContexts mem o) as (-> & _).
  - intros [= <-]. by destruct (applyPattern_rest h now patternId
                                  currentContext o) as (_ & -> & _).
  - destruct (getSessionContext _ _ _ _ _) as [[r o1]|] eqn:E; [|done].
    intros [= <-].
    by destruct (getSessionContext_rest _ _ _ _ _ _ _ E) as (_&_&?&_).
  - intros [= <-].
    by destruct (cleanupExpiredSessions_rest now mem o) as (_&_&_&_&_&_&?&_).
Qed.

Lemma perform_conflicts h now c o o' k x :
  perform h now c o = Some o' →
  conflicts o' !! k = Some x →
  conflicts o !! k = Some x
  ∨ ∃ rnd ty items sev meta mem,
      c = CallResolveConflict rnd ty items sev meta mem
      ∧ k = generated_id "conflict" now rnd ∧ conflict_id x = k.
Proof.
  destruct_call c; simpl.
  - intros [= <-].
    destruct (createSession_rest now rnd agentRole options mem o)
      as (_ & -> & _). by left.
  - intros [= <-].
    destruct (registerAgent_rest now agentId role specialization mem o)
      as (_ & -> & _). by left.
  - intros [= <-].
    destruct (resolveConflict_conflicts h now rnd conflictType involvedItems
                severity metadata mem o) as (c & -> & Hid & _).
    intros [[<- <-]|[_ Hk]]%lookup_insert_Some; [|by left].
    right. by eexists _, _, _, _, _, _.
  - intros [= <-].
    destruct (learnPattern_rest now rnd type context action
                applicableContexts mem o) as (_ & -> & _). by left.
  - intros [= <-]. destruct (applyPattern_rest h now patternId
                               currentContext o) as (_ & _ & -> & _).
    by left.
  - destruct (getSessionContext _ _ _ _ _) as [[r o1]|] eqn:E; [|done].
    intros [= <-].
    destruct (getSessionContext_rest _ _ _ _ _ _ _ E) as (_&_&_&->&_).
    by left.
  - intros [= <-].
    destruct (cleanupExpiredSessions_rest now mem o)
      as (_&_&_&_&_&_&_&->&_). by left.
Qed.

(** After a call other than [createSession] the session store has the same
    keys, and each session differs from before at most in the touched
    fields. *)
Lemma perform_sessions_touch h now c o o' :
  perform h now c o = Some o' →
  (∀ rnd agentRole options mem,
     c ≠ CallCreateSession rnd agentRole options mem) →
  sessions_touch o o'.
Proof.
  intros Hperf Hc. destruct_call c; simpl in Hperf.
  - by destruct (Hc rnd agentRole options mem).
  - injection Hperf as <-. apply sessions_touch_same, registerAgent_sessions.
  - injection Hperf as <-.
    apply sessions_touch_same, resolveConflict_sessions.
  - injection Hperf as <-. apply sessions_touch_same, learnPattern_sessions.
  - injection Hperf as <-. apply sessions_touch_same, applyPattern_sessions.
  - destruct (getSessionContext _ _ _ _ _) as [[r o1]|] eqn:E; [|done].
    injection Hperf as <-. by eapply getSessionContext_touch.
  - injection Hperf as <-. apply cleanupExpiredSessions_touch.
Qed.

Lemma call_create_or_not c :
  (∃ rnd agentRole options mem,
     c = CallCreateSession rnd agentRole options mem)
  ∨ (∀ rnd agentRole options mem,
       c ≠ CallCreateSession rnd agentRole options mem).
Proof. destruct c; try (by right); left; by eexists _, _, _, _. Qed.

(** X12.  On an orchestrator built by the constructor every map is keyed by
    the id of the record it holds, whatever the memory client answered
    along the way: a session, agent, pattern or conflict found under key
    [k] has id [k]. *)
Theorem reachable_keys_are_ids h o :
  reachable h o →
  (∀ k s, sessions o !! k = Some s → sess_id s = k)
  ∧ (∀ k a, agents o !! k = Some a → agent_id a = k)
  ∧ (∀ k p, patterns o !! k = Some p → pattern_id p = k)
  ∧ (∀ k c, conflicts o !! k = Some c → conflict_id c = k).
Proof.
  intros (now0 & rnd0 & Hrun). revert o Hrun. apply rtc_ind_r.
  { repeat split; intros k x; by rewrite lookup_empty. }
  intros o1 o2 _ [now c _ Hperf] (Is & Ia & Ip & Ic).
  split; [|split; [|split]].
  - intros k s' Hk.
    destruct (call_create_or_not c) as [(rnd & role_ & opts & mem & ->)|Hnc].
    + simpl in Hperf. injection Hperf as <-.
      rewrite createSession_sessions in Hk.
      apply lookup_insert_Some in Hk as [[<- <-]|[Hne Hk]]; [done|].
      destruct (truthy _) as [p|]; simpl in Hk; [|by apply Is].
      apply lookup_alter_Some in Hk as [(_ & s & Hs & ->)|[_ Hk]];
        [|by apply Is]. simpl. by apply Is.
    + pose proof (perform_sessions_touch _ _ _ _ _ Hperf Hnc) as Ht.
      specialize (Ht k). rewrite Hk in Ht.
      inversion Ht as [s ? Hss Hs1|]; subst.
      rewrite (touch_id _ _ Hss). by apply Is.
  - intros k a Hk. rewrite (perform_agents _ _ _ _ _ Hperf) in Hk.
    destruct c; try by apply Ia.
    apply lookup_insert_Some in Hk as [[<- <-]|[_ Hk]]; [done|by apply Ia].
  - intros k p Hk. rewrite (perform_patterns _ _ _ _ _ Hperf) in Hk.
    destruct c; try by apply Ip.
    + apply lookup_insert_Some in Hk as [[<- <-]|[_ Hk]]; [done|by apply Ip].
    + apply applyPattern_lookup in Hk as (q & Hq & ->). by apply Ip.
  - intros k x Hk.
    destruct (perform_conflicts _ _ _ _ _ _ _ Hperf Hk)
      as [Hold|(? & ? & ? & ? & ? & ? & _ & _ & Hid)]; [by apply Ic|done].
Qed.

Lemma two_level_store_reachable :
  reachable source_helpers (two_level_store ∅ ∅ None).
Proof.
  exists 0, "k". eapply rtc_l; [|apply rtc_once].
  - by apply (step_call _ _ _ 100
                (CallCreateSession "root" "orchestrator"
                   (session_options None ∅ None) reliable_memory)).
  - by apply (step_call _ _ _ 200
                (CallCreateSession "child" "specialist"
                   (session_options (Some "session-100-root") ∅ None)
                   reliable_memory)).
Qed.

Lemma reachable_keys_are_ids_witness :
  ∃ s, sessions (two_level_store ∅ ∅ None) !! "session-200-child" = Some s
    ∧ sess_id s = "session-200-child".
Proof.
  assert (sessions (two_level_store ∅ ∅ None) !! "session-200-child"
          = Some _) as Hs by (vm_compute; reflexivity).
  eexists. split; [exact Hs|].
  exact (proj1 (reachable_keys_are_ids source_helpers _
                  two_level_store_reachable) _ _ Hs).
Defined.

Lemma perform_alias h now c o o' :
  perform h now c o = Some o' →
  activeAgents (coordination o') =
    match c with
    | CallRegisterAgent agentId _ _ _ =>
        {[agentId]} ∪ activeAgents (coordination o)
    | _ => activeAgents (coordination o)
    end
  ∧ globalPatterns_patterns (coordination o') =
      match c with
      | CallLearnPattern rnd type _ _ _ _ =>
          {[generated_id ("pattern-" +:+ type) now rnd]}
            ∪ globalPatterns_patterns (coordination o)
      | _ => globalPatterns_patterns (coordination o)
      end
  ∧ sessionHierarchy (coordination o') ⊆
      match c with
      | CallCreateSession rnd _ _ _ =>
          {[generated_id "session" now rnd]}
            ∪ sessionHierarchy (coordination o)
      | _ => sessionHierarchy (coordination o)
      end.
Proof.
  destruct_call c; simpl.
  - intros [= <-].
    by destruct (createSession_rest now rnd agentRole options mem o)
      as (_ & _ & _ & _ & -> & -> & _ & -> & _).
  - intros [= <-].
    by destruct (registerAgent_rest now agentId role specialization mem o)
      as (_ & _ & _ & _ & _ & -> & -> & _ & -> & _).
  - intros [= <-].
    by destruct (resolveConflict_rest h now rnd conflictType involvedItems
                   severity metadata mem o)
      as (_ & _ & _ & _ & _ & _ & -> & -> & ->).
  - intros [= <-].
    by destruct (learnPattern_rest now rnd type context action
                   applicableContexts mem o)
      as (_ & _ & _ & _ & _ & -> & -> & -> & _).
  - intros [= <-].
    by destruct (applyPattern_rest h now patternId currentContext o)
      as (_ & _ & _ & _ & -> & -> & -> & _).
  - destruct (getSessionContext _ _ _ _ _) as [[r o1]|] eqn:E; [|done].
    intros [= <-].
    by destruct (getSessionContext_rest _ _ _ _ _ _ _ E) as (_ & -> & _).
  - intros [= <-].
    by destruct (cleanupExpiredSessions_rest now mem o)
      as (_ & ? & -> & _ & -> & _).
Qed.

(** X13.  On an orchestrator built by the constructor the coordination
    record mirrors the stores, whatever the memory client answered along
    the way: its active-agents map has exactly the keys of the agent map,
    its global pattern map exactly the keys of the pattern map, and every
    id in its session hierarchy is the key of a stored session (the sweep
    removes expired ids from the hierarchy only). *)
Theorem reachable_coordination_mirrors h o :
  reachable h o →
  activeAgents (coordination o) = dom (agents o)
  ∧ globalPatterns_patterns (coordination o) = dom (patterns o)
  ∧ sessionHierarchy (coordination o) ⊆ dom (sessions o).
Proof.
  intros (now0 & rnd0 & Hrun). revert o Hrun. apply rtc_ind_r.
  { simpl. by rewrite !dom_empty_L. }
  intros o1 o2 _ [now c _ Hperf] (Ia & Ip & Is).
  destruct (perform_alias _ _ _ _ _ Hperf) as (Ha & Hp & Hs).
  pose proof (perform_grows _ _ _ _ _ Hperf) as (_ & Hdom & _).
  rewrite Ha Hp (perform_agents _ _ _ _ _ Hperf)
    (perform_patterns _ _ _ _ _ Hperf).
  split; [|split].
  - destruct c; try done. by rewrite dom_insert_L Ia.
  - destruct c; try done.
    + by rewrite dom_insert_L Ip.
    + by rewrite applyPattern_dom.
  - etrans; [exact Hs|]. destruct c; try (by etrans).
    simpl in Hperf. injection Hperf as <-. rewrite createSession_dom.
    by apply union_mono_l.
Qed.

Lemma reachable_coordination_mirrors_witness :
  let o := (registerAgent 5 "a1" "specialist" [] dead_memory
              (new_orchestrator 0 "k")).2 in
  activeAgents (coordination o) = dom (agents o).
Proof.
  intros o.
  refine (proj1 (reachable_coordination_mirrors source_helpers o _)).
  exists 0, "k". apply rtc_once.
  by apply (step_call _ _ _ 5
              (CallRegisterAgent "a1" "specialist" [] dead_memory)).
Defined.

(** X14.  On an orchestrator built by the constructor, with session ids
    drawn fresh, the children lists are sound: every id listed in the
    [childSessions] of a stored session is the key of a stored session that
    names it as parent and sits exactly one level below it, and no id is
    listed twice. *)
Theorem reachable_children_sound h o k P :
  reachable h o →
  sessions o !! k = Some P →
  NoDup (childSessions P)
  ∧ ∀ c, c ∈ childSessions P → hierarchy_link o c k.
Proof.
  intros (now0 & rnd0 & Hrun). revert k P. revert o Hrun.
  apply (rtc_ind_r (λ o, ∀ k P, sessions o !! k = Some P →
           NoDup (childSessions P)
           ∧ ∀ c, c ∈ childSessions P → hierarchy_link o c k)).
  { intros k P. by rewrite lookup_empty. }
  intros o1 o2 _ Hstep IH k P' Hk.
  pose proof (step_sessions_le h o1 o2 Hstep) as Hle.
  destruct Hstep as [now c Hfresh Hperf].
  destruct (call_create_or_not c) as [(rnd & role_ & opts & mem & ->)|Hnc].
  - cbn [perform] in Hperf. simpl in Hfresh.
    assert (o2 = (createSession now rnd role_ opts mem o1).2) as ->
      by congruence.
    pose proof Hk as Hk'. rewrite createSession_sessions in Hk'.
    apply lookup_insert_Some in Hk' as [[<- <-]|[Hne Hk']].
    { split; [constructor|]. intros c Hc. by apply elem_of_nil in Hc. }
    destruct (truthy (opt_parentSessionId opts)) as [p|] eqn:Hp;
      simpl in Hk'.
    2:{ destruct (IH _ _ Hk') as [Hnd Hall]. split; [done|].
        intros c Hc. eapply hierarchy_link_mono; [exact Hle|by apply Hall]. }
    apply lookup_alter_Some in Hk' as [(-> & P & HP & ->)|[Hpk Hk']].
    2:{ destruct (IH _ _ Hk') as [Hnd Hall]. split; [done|].
        intros c Hc. eapply hierarchy_link_mono; [exact Hle|by apply Hall]. }
    destruct (IH _ _ HP) as [Hnd Hall]. cbn [childSessions push_child].
    assert (generated_id "session" now rnd ∉ childSessions P) as Hnew.
    { intros Hin. destruct (Hall _ Hin) as (S & _ & HS & _). congruence. }
    split.
    + apply NoDup_app. split; [done|]. split; [|apply NoDup_singleton].
      intros c Hc ->%list_elem_of_singleton. done.
    + intros c [Hc| ->%list_elem_of_singleton]%elem_of_app.
      { eapply hierarchy_link_mono; [exact Hle|by apply Hall]. }
      apply truthy_inv in Hp as [Hopt Hpne].
      exists (new_session now rnd role_ opts o1),
             (push_child (generated_id "session" now rnd) P).
      split; [rewrite createSession_sessions; apply lookup_insert_eq|].
      split; [done|]. split; [done|]. split.
      * unfold new_session. simpl.
        by rewrite Hopt (truthy_Some k Hpne) HP.
      * simpl. apply elem_of_app. right. by apply list_elem_of_singleton.
  - pose proof (perform_sessions_touch _ _ _ _ _ Hperf Hnc k) as Ht.
    rewrite Hk in Ht. inversion Ht as [P ? HPP HP|]; subst.
    symmetry in HP. destruct (IH _ _ HP) as [Hnd Hall].
    rewrite (touch_children _ _ HPP). split; [done|].
    intros c' Hc. eapply hierarchy_link_mono; [exact Hle|by apply Hall].
Qed.

Lemma reachable_children_sound_witness :
  ∃ P, sessions (two_level_store ∅ ∅ None) !! "session-100-root" = Some P
    ∧ NoDup (childSessions P).
Proof.
  assert (sessions (two_level_store ∅ ∅ None) !! "session-100-root"
          = Some _) as Hs by (vm_compute; reflexivity).
  eexists. split; [exact Hs|].
  exact (proj1 (reachable_children_sound source_helpers _ _ _
                  two_level_store_reachable Hs)).
Defined.

(** * The memory client *)

Section ClientProperties.
Import Client.
Variable trim_is_empty : string → bool.
Variable JSON_parse : string → option Json.
Variable config : VPSConfig.

Abbreviation makeHttpRequest := (makeHttpRequest trim_is_empty JSON_parse config).
Abbreviation retry_loop := (retry_loop trim_is_empty JSON_parse config).
Abbreviation makeRequest := (makeRequest trim_is_empty JSON_parse config).
Abbreviation healthCheck := (healthCheck trim_is_empty JSON_parse config).
Abbreviation validateConnection :=
  (validateConnection trim_is_empty JSON_parse config).

Abbreviation retryable := (retryable trim_is_empty JSON_parse config).
Abbreviation backoff := (backoff config).

Lemma retry_loop_skip http m : ∀ remaining attempt lastError sent slept,
  (∀ i, attempt ≤ i < attempt + Z.of_nat m → retryable (http i)) →
  attempt + Z.of_nat m ≤ retryAttempts config →
  ∃ lastError',
    retry_loop http (m + remaining) attempt lastError sent slept
      = retry_loop http remaining (attempt + Z.of_nat m) lastError'
          (sent + m)
          (slept ++ ((λ i, retryDelay config * i) <$> seqZ attempt (Z.of_nat m)))
    ∧ (m = 0%nat → lastError' = lastError)
    ∧ ((0 < m)%nat →
         ∃ e, makeHttpRequest (http (attempt + Z.of_nat m - 1)) = Fail e
              ∧ lastError' = Some e).
Proof.
  induction m as [|m IH]; intros remaining attempt lastError sent slept Hall Hn.
  { exists lastError. rewrite Z.add_0_r Nat.add_0_r app_nil_r.
    split; [done|]. split; [done|lia]. }
  destruct (Hall attempt) as (e & He & Hce); [lia|].
  destruct (IH remaining (attempt + 1) (Some e) (S sent)
              (slept ++ [retryDelay config * attempt]))
    as (last' & Hloop & H0 & Hpos); [intros i Hi; apply Hall; lia|lia|].
  exists last'. split; [|split; [done|]].
  - cbn [Nat.add Client.retry_loop]. rewrite He Hce.
    assert ((attempt <? retryAttempts config) = true) as -> by lia.
    rewrite Hloop. f_equal; [lia|lia|].
    rewrite Nat2Z.inj_succ (seqZ_cons attempt); [|lia].
    by rewrite Z.pred_succ fmap_cons -app_assoc.
  - intros _. destruct m as [|m].
    + exists e. rewrite (H0 eq_refl). split; [|done].
      by replace (attempt + Z.of_nat 1 - 1) with attempt by lia.
    + destruct Hpos as (e' & He' & ->); [lia|]. exists e'. split; [|done].
      by replace (attempt + Z.of_nat (S (S m)) - 1)
        with (attempt + 1 + Z.of_nat (S m) - 1) by lia.
Qed.

(** The run up to attempt [k], when all earlier attempts were retried. *)
Lemma makeRequest_reaches http k :
  1 ≤ k ≤ retryAttempts config →
  (∀ i, 1 ≤ i < k → retryable (http i)) →
  ∃ lastError,
    makeRequest http
      = retry_loop http (S (Z.to_nat (retryAttempts config - k))) k lastError
          (Z.to_nat (k - 1)) (backoff k).
Proof.
  intros Hk Hall. unfold Client.makeRequest.
  destruct (retry_loop_skip http (Z.to_nat (k - 1))
              (S (Z.to_nat (retryAttempts config - k))) 1 None 0%nat [])
    as (last' & Hloop & _); [intros i Hi; apply Hall; lia|lia|].
  exists last'.
  replace (Z.to_nat (retryAttempts config))
    with (Z.to_nat (k - 1) + S (Z.to_nat (retryAttempts config - k)))%nat
    by lia.
  rewrite Hloop. unfold Client.backoff. f_equal; [lia|].
  simpl. rewrite Z2Nat.id; [done|lia].
Qed.

(** X15.  [makeRequest] returns the first successful response: if attempt
    [k], within the configured number of attempts, succeeds and every
    earlier attempt failed in a retryable way, the call resolves with that
    response after exactly [k] requests, having slept [retryDelay * i]
    after each failed attempt [i]. *)
Theorem makeRequest_first_success http k result :
  1 ≤ k ≤ retryAttempts config →
  (∀ i, 1 ≤ i < k → retryable (http i)) →
  makeHttpRequest (http k) = Ok result →
  makeRequest http
    = {| outcome := Ok result; requests := Z.to_nat k; delays := backoff k |}.
Proof.
  intros Hk Hall Hok.
  destruct (makeRequest_reaches http k Hk Hall) as (last & ->).
  cbn [Client.retry_loop]. rewrite Hok. f_equal. lia.
Qed.

Lemma makeHttpRequest_client_status statusCode body :
  400 ≤ statusCode < 500 →
  ∃ e, makeHttpRequest (Responded statusCode body) = Fail e
    ∧ statusCode_of e = Some statusCode
    ∧ is_client_error e = true
    ∧ (code_of e = Some "EMPTY_RESPONSE" ∨ code_of e = Some "PARSE_ERROR"
       ∨ code_of e = Some "HTTP_ERROR").
Proof.
  intros Hsc.
  assert (negb (statusCode =? 0) && (400 <=? statusCode)
          && (statusCode <? 500) = true) as Hce.
  { repeat (apply andb_true_iff; split); [apply negb_true_iff|..]; lia. }
  assert ((200 <=? statusCode) && (statusCode <? 300) = false) as Hok.
  { apply andb_false_iff. right. lia. }
  unfold Client.makeHttpRequest.
  destruct (trim_is_empty body);
    [|destruct (JSON_parse body) as [result|];
      [rewrite Hok; destruct (get result "error") as [error|]|]].
  all: eexists; (split; [reflexivity|]); simpl; rewrite Hce; eauto 10.
Qed.

(** X16.  A response with a 4xx status is never retried, whatever its body
    is (empty, not JSON, or JSON): if attempt [k] is answered with such a
    status after retryable failures, [makeRequest] rejects at once with the
    error of that attempt, which carries the status, and sends no further
    request. *)
Theorem makeRequest_client_error_not_retried http k statusCode body :
  1 ≤ k ≤ retryAttempts config →
  (∀ i, 1 ≤ i < k → retryable (http i)) →
  http k = Responded statusCode body →
  400 ≤ statusCode < 500 →
  ∃ e,
    makeRequest http
      = {| outcome := Fail e; requests := Z.to_nat k; delays := backoff k |}
    ∧ makeHttpRequest (http k) = Fail e
    ∧ statusCode_of e = Some statusCode
    ∧ code_of e ≠ Some "RETRY_EXHAUSTED".
Proof.
  intros Hk Hall Hhttp Hsc.
  destruct (makeHttpRequest_client_status statusCode body Hsc)
    as (e & He & Hst & Hce & Hcode).
  destruct (makeRequest_reaches http k Hk Hall) as (last & ->).
  exists e. rewrite Hhttp. split; [|split; [done|split; [done|]]].
  - cbn [Client.retry_loop]. rewrite Hhttp He Hce. f_equal. lia.
  - destruct Hcode as [Hc|[Hc|Hc]]; rewrite Hc; by intros [=].
Qed.

(** X17.  When every attempt fails in a retryable way, [makeRequest] sends
    exactly [retryAttempts] requests, sleeps [retryDelay * i] after each
    attempt [i] but the last, and rejects with a [RETRY_EXHAUSTED] error
    that has no status code and wraps the error of the last attempt.
    With [retryAttempts] below 1 it sends no request at all and wraps
    nothing. *)
Theorem makeRequest_exhausted http :
  (∀ i, 1 ≤ i ≤ retryAttempts config → retryable (http i)) →
  ∃ lastError,
    makeRequest http
      = {| outcome := Fail (retry_exhausted config lastError);
           requests := Z.to_nat (retryAttempts config);
           delays := backoff (retryAttempts config) |}
    ∧ (retryAttempts config < 1 → lastError = None)
    ∧ (1 ≤ retryAttempts config →
         ∃ e, makeHttpRequest (http (retryAttempts config)) = Fail e
              ∧ lastError = Some e).
Proof.
  intros Hall. destruct (Z_lt_le_dec (retryAttempts config) 1) as [Hn|Hn].
  { exists None. unfold Client.makeRequest, Client.backoff.
    replace (Z.to_nat (retryAttempts config)) with 0%nat by lia.
    rewrite seqZ_nil; [|lia]. split; [done|]. split; [done|lia]. }
  destruct (makeRequest_reaches http (retryAttempts config))
    as (last & ->); [lia|intros i Hi; apply Hall; lia|].
  destruct (Hall (retryAttempts config)) as (e & He & Hce); [lia|].
  exists (Some e). split; [|split; [lia|by eauto]].
  rewrite Z.sub_diag. cbn [Z.to_nat Client.retry_loop]. rewrite He Hce.
  assert ((retryAttempts config <? retryAttempts config) = false) as ->
    by lia.
  f_equal. lia.
Qed.

Lemma backoff_snoc (c : nat) :
  backoff (Z.of_nat (S (S c)))
    = backoff (Z.of_nat (S c)) ++ [retryDelay config * (Z.of_nat c + 1)].
Proof.
  unfold Client.backoff.
  replace (Z.of_nat (S (S c)) - 1) with (Z.of_nat (S c)) by lia.
  replace (Z.of_nat (S c) - 1) with (Z.of_nat c) by lia.
  rewrite seqZ_S fmap_app. simpl. do 3 f_equal. lia.
Qed.

Abbreviation run_ok := (run_ok trim_is_empty JSON_parse config).

Lemma retry_loop_run http remaining : ∀ attempt lastError sent slept,
  attempt = Z.of_nat sent + 1 →
  (sent + remaining)%nat = Z.to_nat (retryAttempts config) →
  slept = backoff (Z.of_nat match remaining with O => sent | S _ => S sent end) →
  run_ok http (retry_loop http remaining attempt lastError sent slept).
Proof.
  induction remaining as [|remaining IH];
    intros attempt lastError sent slept -> Hsent ->.
  { split; [simpl; lia|]. split; [done|]. right. simpl. split; [lia|done]. }
  cbn [Client.retry_loop].
  destruct (makeHttpRequest (http (Z.of_nat sent + 1))) as [result|e] eqn:Hreq.
  { split; [simpl; lia|]. split; [done|]. simpl.
    by replace (Z.of_nat (S sent)) with (Z.of_nat sent + 1) by lia. }
  destruct (is_client_error e) eqn:Hce.
  { split; [simpl; lia|]. split; [done|]. left. simpl.
    by replace (Z.of_nat (S sent)) with (Z.of_nat sent + 1) by lia. }
  apply IH; [lia|lia|]. destruct remaining as [|remaining].
  - by assert ((Z.of_nat sent + 1 <? retryAttempts config) = false) as ->
      by lia.
  - assert ((Z.of_nat sent + 1 <? retryAttempts config) = true) as -> by lia.
    by rewrite backoff_snoc.
Qed.

(** X18.  Whatever the HTTP layer does, [makeRequest] sends at most
    [retryAttempts] requests and sleeps [retryDelay * i] after each request
    [i] but the last one it sends; a value it resolves with is the response
    to the last request sent; an error it rejects with is either the 4xx
    error of the last request sent or, after exactly [retryAttempts]
    requests, a [RETRY_EXHAUSTED] error without status code. *)
Theorem makeRequest_run http :
  (requests (makeRequest http) ≤ Z.to_nat (retryAttempts config))%nat
  ∧ delays (makeRequest http)
      = backoff (Z.of_nat (requests (makeRequest http)))
  ∧ match outcome (makeRequest http) with
    | Ok result =>
        makeHttpRequest (http (Z.of_nat (requests (makeRequest http))))
          = Ok result
    | Fail e =>
        (makeHttpRequest (http (Z.of_nat (requests (makeRequest http))))
           = Fail e
         ∧ is_client_error e = true)
        ∨ (requests (makeRequest http) = Z.to_nat (retryAttempts config)
           ∧ code_of e = Some "RETRY_EXHAUSTED"
           ∧ statusCode_of e = None)
    end.
Proof.
  apply (retry_loop_run http (Z.to_nat (retryAttempts config)) 1 None 0%nat []);
    [done|done|].
  unfold Client.backoff.
  destruct (Z.to_nat (retryAttempts config)); by rewrite seqZ_nil.
Qed.

(** X19.  [healthCheck] never rejects: it answers [healthy] exactly when the
    request succeeded with a response other than [null], and otherwise the
    fixed [error] status with uptime 0.  Hence [validateConnection] returns
    [true] whatever the HTTP layer does, also when no request gets
    through. *)
Theorem validateConnection_always_true http now :
  (∃ status, healthCheck http now = Ok status
     ∧ (health_status status = "healthy"
        ↔ ∃ health, outcome (makeRequest http) = Ok health ∧ health ≠ JNull)
     ∧ (health_status status ≠ "healthy" →
          health_status status = "error"
          ∧ uptime status = JNum (JsNum.of_Z 0)))
  ∧ validateConnection http now = true.
Proof.
  unfold Client.validateConnection, Client.healthCheck.
  destruct (outcome (makeRequest http)) as [health|e].
  - destruct health; simpl;
      (split; [|done]); eexists; (split; [done|]); simpl;
      (split; [split; [intros; try done; by eexists|
                       intros (? & [= <-] & ?); done]
              |intros; done]).
  - split; [|done]. eexists. split; [done|]. simpl.
    split; [split; [done|by intros (? & [=] & _)]|done].
Qed.

End ClientProperties.

Lemma makeRequest_first_success_witness :
  Client.makeRequest example_trim_is_empty example_JSON_parse example_config
    flaky_http
  = {| Client.outcome := Client.Ok (Client.JObject []);
       Client.requests := 3;
       Client.delays := [1000; 2000] |}.
Proof.
  apply (makeRequest_first_success example_trim_is_empty example_JSON_parse
           example_config flaky_http 3 (Client.JObject [])).
  - simpl. lia.
  - intros i Hi. assert (i = 1 ∨ i = 2) as [->| ->] by lia;
      eexists; split; reflexivity.
  - reflexivity.
Defined.

Lemma makeRequest_client_error_not_retried_witness :
  ∃ e,
    Client.makeRequest example_trim_is_empty example_JSON_parse example_config
      not_found_http
    = {| Client.outcome := Client.Fail e;
         Client.requests := 2;
         Client.delays := [1000] |}
    ∧ Client.makeHttpRequest example_trim_is_empty example_JSON_parse
        example_config (not_found_http 2) = Client.Fail e
    ∧ Client.statusCode_of e = Some 404
    ∧ Client.code_of e ≠ Some "RETRY_EXHAUSTED".
Proof.
  apply (makeRequest_client_error_not_retried example_trim_is_empty
           example_JSON_parse example_config not_found_http 2 404
           "Not Found").
  - simpl. lia.
  - intros i Hi. assert (i = 1) as -> by lia. eexists; split; reflexivity.
  - reflexivity.
  - lia.
Defined.

Lemma makeRequest_exhausted_witness :
  ∃ lastError,
    Client.makeRequest example_trim_is_empty example_JSON_parse example_config
      dead_http
    = {| Client.outcome :=
           Client.Fail (Client.retry_exhausted example_config lastError);
         Client.requests := 3;
         Client.delays := [1000; 2000] |}
    ∧ (Client.retryAttempts example_config < 1 → lastError = None)
    ∧ (1 ≤ Client.retryAttempts example_config →
         ∃ e, Client.makeHttpRequest example_trim_is_empty example_JSON_parse
                example_config (dead_http 3) = Client.Fail e
              ∧ lastError = Some e).
Proof.
  apply (makeRequest_exhausted example_trim_is_empty example_JSON_parse
           example_config dead_http).
  intros i Hi. eexists; split; reflexivity.
Defined.

(** * The tool table *)

(** X20.  The tools advertised by [getTools] are exactly the names that the
    [switch] of [executeTool] handles, and no name is advertised twice: the
    server's [tools/call] handler, which looks the name up in [getTools]
    before it calls [executeTool], never reaches the [Unknown tool] arm, and
    no advertised tool is without a handler. *)
Theorem executeTool_handles_tools :
  (∀ name, find_tool name = Some name ↔ is_Some (executeTool_handler name))
  ∧ (∀ name, find_tool name = None ↔ executeTool_handler name = None)
  ∧ (∀ name, name ∈ tool_names ↔ is_Some (executeTool_handler name))
  ∧ NoDup tool_names.
Proof.
  assert (∀ name, (find_tool name = Some name
                   ∧ is_Some (executeTool_handler name)
                   ∧ name ∈ tool_names)
                  ∨ (find_tool name = None
                     ∧ executeTool_handler name = None
                     ∧ name ∉ tool_names)) as Hcases.
  { intros name. unfold find_tool, executeTool_handler, tool_names.
    cbn [List.find].
    repeat match goal with
    | |- context [String.eqb name ?t] =>
        destruct (String.eqb_spec name t) as [->|?];
        [left; split; [done|]; split; [by eexists|];
         rewrite !elem_of_cons; tauto|]
    end.
    right. split; [done|]. split; [done|].
    rewrite !elem_of_cons elem_of_nil. tauto. }
  split; [|split; [|split]].
  - intros name. destruct (Hcases name) as [(? & ? & ?)|(Hf & He & ?)];
      [done|]. rewrite Hf He. split; [done|by intros [? [=]]].
  - intros name. destruct (Hcases name) as [(Hf & [h Hh] & ?)|(? & ? & ?)];
      [|done]. rewrite Hf Hh. split; done.
  - intros name. destruct (Hcases name) as [(? & ? & ?)|(? & He & ?)];
      [done|]. rewrite He. split; [done|by intros [? [=]]].
  - apply (bool_decide_unpack _). by vm_compute.
Qed.
